(** * dlt: configuration resolver, schema contracts, extraction commit,
      GCP credentials and the Synapse error classifier

    A shallow embedding of
    - [dlt/common/configuration/resolve.py],
    - the schema-contract engine exercised by
      [tests/common/schema/test_contract_mode_functions.py],
    - [experiments/pipeline/extract.py],
    - [dlt/common/configuration/specs/gcp_client_credentials.py],
    - [dlt/destinations/synapse/sql_client.py].

    Python objects that are mutated in place (configuration instances, the
    file storage) live in an explicit store that is threaded through the
    functions; exceptions are explicit outcomes. *)

From Stdlib Require Import ZArith Lia Ascii String DecimalString DecimalZ.
From Stdlib.Strings Require Byte.
From stdpp Require Import base option list strings gmap.

Open Scope string_scope.

Set Warnings "-register-all".

(** ** Configuration resolver: [dlt/common/configuration/resolve.py] *)

Module Resolve.

Definition class_name := string.
Definition loc := positive.

(** *** Hints *)

(** Modelled from the spec: the typing helpers ([extract_inner_hint],
    [is_secret_hint], [is_optional_type], [is_final_type], [is_union],
    [get_all_types_of_class_in_union], [is_context_inner_hint],
    [is_base_configuration_inner_hint]) are imported from modules that are
    not among the sources. The inner hint of a field is a scalar, a context
    or a sub-configuration. *)
Inductive inner_hint :=
| InnerAny                          (* a scalar type, [AnyType] included *)
| InnerContext (cls : class_name)   (* a container-injectable context *)
| InnerConfig (cls : class_name).   (* a [BaseConfiguration] subclass *)

(** Modelled from the spec: a hint is represented by the answers the typing
    helpers give for it. *)
Record hint := Hint {
  extract_inner_hint : inner_hint;
  is_secret_hint : bool;
  is_optional_type : bool;
  is_final_type : bool;
  (* [get_all_types_of_class_in_union hint BaseConfiguration]; empty when
     [is_union hint] is false *)
  specs_in_union_of : list class_name
}.

Definition is_context_inner_hint (h : inner_hint) : bool :=
  match h with InnerContext _ => true | _ => false end.

Definition is_base_configuration_inner_hint (h : inner_hint) : bool :=
  match h with InnerConfig _ => true | _ => false end.

Definition AnyType : hint := Hint InnerAny false false false [].
Definition TSecretValue : hint := Hint InnerAny true false false [].

(** A bare type used where a hint is expected (the context provider is
    called with the inner hint). *)
Definition hint_of_inner (h : inner_hint) : hint := Hint h false false false [].

(** *** Values *)

Inductive value :=
| VStr (s : string)                     (* [str] and the other scalars *)
| VMapping (m : list (string * value))  (* a [collections.abc.Mapping] *)
| VConfig (l : loc).                    (* a configuration instance *)

(** [isinstance v collections.abc.Mapping]: configuration instances are
    mappings themselves (the credentials classes call [dict(self)] and
    [self.update]). *)
Definition isinstance_Mapping (v : option value) : bool :=
  match v with
  | Some (VMapping _) | Some (VConfig _) => true
  | _ => false
  end.

(** Python truth value of an optional object: [None], the empty string and
    the empty mapping are false; a configuration instance, which has
    fields, is true. *)
Definition truthy (v : option value) : bool :=
  match v with
  | None => false
  | Some (VStr s) => negb (String.eqb s EmptyString)
  | Some (VMapping m) => negb (Nat.eqb (length m) 0)
  | Some (VConfig _) => true
  end.

Definition truthy_str (s : option string) : bool :=
  match s with
  | None => false
  | Some s => negb (String.eqb s EmptyString)
  end.

(** Every item of [m] has an item of [n] with the same key and an equal
    value. *)
Definition items_within {A} (eqv : A -> A -> bool) (m n : list (string * A)) : bool :=
  forallb (fun kv =>
    existsb (fun kv' => String.eqb (fst kv) (fst kv') && eqv (snd kv) (snd kv')) n) m.

(** [a == b]. A mapping holds its items in insertion order, under distinct
    keys; two mappings are equal when they have the same keys with equal
    values, whatever the order. Modelled from the spec: [BaseConfiguration]
    is not among the sources, and two configuration instances are taken to
    be equal when they are the same object. *)
Fixpoint value_eqb (a b : value) {struct a} : bool :=
  match a, b with
  | VStr s, VStr t => String.eqb s t
  | VMapping m, VMapping n =>
      items_within value_eqb m n && items_within (fun v' v => value_eqb v v') n m
  | VConfig l, VConfig l' => Pos.eqb l l'
  | _, _ => false
  end.

Definition opt_value_eqb (a b : option value) : bool :=
  match a, b with
  | None, None => true
  | Some x, Some y => value_eqb x y
  | _, _ => false
  end.


(** *** Traces and exceptions *)

Record LookupTrace := mkLookupTrace {
  trace_provider : string;
  trace_sections : list string;
  trace_key : string;
  trace_value : option value
}.

Inductive exn :=
| ConfigFieldMissingException (spec_name : string)
                              (traces : list (string * list LookupTrace))
| InvalidNativeValue (spec : class_name) (embedded_sections : list string)
| ValueNotSecretException (provider_name key : string)
| FinalConfigFieldException (spec_name field : string)
| ValueError (msg : string)
| NotImplementedError
| UnboundLocalError (variable : string)
| OtherException (msg : string).

(** *** Providers and the container *)

(** Modelled from the spec: [ConfigProvider] is not among the sources. A
    provider has a stable name, two capability flags and its sole operation
    [get_value]; it is immutable for the lifetime of a resolution call. *)
Record ConfigProvider := mkProvider {
  name : string;
  supports_sections : bool;
  supports_secrets : bool;
  (* [get_value key hint *sections] returns the value and the effective key *)
  get_value : string -> hint -> list string -> option value * string
}.

(** Modelled from the spec: the two injectable contexts the resolver reads
    from [Container()], [ConfigProvidersContext] and [ConfigSectionContext]. *)
Record Container := mkContainer {
  providers : list ConfigProvider;
  context_provider : ConfigProvider;
  pipeline_name : option string;
  sections : list string
}.

(** *** Configuration instances and the store *)

(** Modelled from the spec: [BaseConfiguration] is not among the sources. An
    instance has its class, the values of its fields, the resolved flag and
    the stored exception. *)
Record config := mkConfig {
  config_class : class_name;
  attrs : gmap string value;         (* an absent attribute reads as [None] *)
  __is_resolved__ : bool;
  __exception__ : option exn
}.

Definition is_resolved (c : config) : bool := __is_resolved__ c.

Definition getattr (c : config) (key : string) : option value := attrs c !! key.

Definition setattr (c : config) (key : string) (v : option value) : config :=
  mkConfig (config_class c)
           (match v with Some x => <[key := x]> (attrs c) | None => delete key (attrs c) end)
           (__is_resolved__ c) (__exception__ c).

Definition set_resolved (c : config) (b : bool) : config :=
  mkConfig (config_class c) (attrs c) b (__exception__ c).

Definition set_exception (c : config) (e : option exn) : config :=
  mkConfig (config_class c) (attrs c) (__is_resolved__ c) e.

(** What the resolver does to the outside world, in order. *)
Inductive event :=
| EvGetValue (provider_name key : string) (sections : list string)
| EvParseNative (config : loc)
| EvHook (cls : class_name) (method : string) (config : loc)
| EvLogTraces (key : string) (traces : list LookupTrace).

Record store := mkStore {
  heap : gmap loc config;
  events : list event
}.

Inductive outcome (A : Type) :=
| Ok (a : A)
| Raise (e : exn)
| OutOfFuel.
Arguments Ok {A} a.
Arguments Raise {A} e.
Arguments OutOfFuel {A}.

Definition M (A : Type) : Type := store -> outcome A * store.

#[export] Instance M_ret : MRet M := fun A a st => (Ok a, st).
#[export] Instance M_bind : MBind M := fun A B f m st =>
  match m st with
  | (Ok a, st') => f a st'
  | (Raise e, st') => (Raise e, st')
  | (OutOfFuel, st') => (OutOfFuel, st')
  end.

Definition raise {A} (e : exn) : M A := fun st => (Raise e, st).
Definition out_of_fuel {A} : M A := fun st => (OutOfFuel, st).

(** [try: m except e: h e] *)
Definition try_except {A} (m : M A) (h : exn -> M A) : M A := fun st =>
  match m st with
  | (Raise e, st') => h e st'
  | r => r
  end.

Definition emit (ev : event) : M unit := fun st =>
  (Ok tt, mkStore (heap st) (events st ++ [ev])%list).

Definition deref (l : loc) : M config := fun st =>
  match heap st !! l with
  | Some c => (Ok c, st)
  | None => (Raise (OtherException "dangling reference"), st)
  end.

Definition update (l : loc) (f : config -> config) : M unit := fun st =>
  match heap st !! l with
  | Some c => (Ok tt, mkStore (<[l := f c]> (heap st)) (events st))
  | None => (Raise (OtherException "dangling reference"), st)
  end.

Definition alloc (c : config) : M loc := fun st =>
  let l := fresh (dom (heap st)) in
  (Ok l, mkStore (<[l := c]> (heap st)) (events st)).

(** A provider call, recorded in the event log. *)
Definition call_get_value (p : ConfigProvider) (key : string) (h : hint)
    (full_ns : list string) : M (option value * string) := fun st =>
  (Ok (get_value p key h full_ns),
   mkStore (heap st) (events st ++ [EvGetValue (name p) key full_ns])%list).

(** *** [_apply_embedded_sections_to_config_sections] *)

Definition startswith_underscore (s : string) : bool :=
  match s with
  | String c _ => Ascii.eqb c "_"%char
  | EmptyString => false
  end.

Definition _apply_embedded_sections_to_config_sections
    (config_section : option string) (embedded_sections : list string)
  : option string * list string :=
  let '(config_section, embedded_sections) :=
    match embedded_sections with
    | [] => (config_section, embedded_sections)
    | _ :: _ =>
        let innermost := List.last embedded_sections EmptyString in
        (if negb (startswith_underscore innermost)
         then Some innermost else config_section,
         removelast embedded_sections)
    end in
  (config_section,
   List.filter (fun ns => negb (startswith_underscore ns)) embedded_sections).

(** *** [resolve_single_provider_value] *)

(** [LookupTrace(provider.name, full_ns, ns_key, value)] keeps the list
    [full_ns], not a copy of it. Where [full_ns] is [ns] itself, [ns.pop()]
    therefore shortens the sections of every trace this walk has made so
    far: [with_sections] is what such a trace reads afterwards. *)
Definition with_sections (ns : list string) (t : LookupTrace) : LookupTrace :=
  mkLookupTrace (trace_provider t) ns (trace_key t) (trace_value t).

(** The [while True] loop. [ns] shrinks by one element per iteration, so
    [length ns] further iterations always suffice. [traces] is the local list
    of the call: all its traces were made by this loop. *)
Fixpoint section_loop (fuel : nat) (provider : ConfigProvider) (key : string)
    (h : hint) (pipeline_name config_section : option string)
    (ns : list string) (traces : list LookupTrace)
  : M (option value * list LookupTrace) :=
  (* [full_ns = ns.copy()] in the first branch, [full_ns = ns] in the other *)
  let copied :=
    (truthy_str pipeline_name || truthy_str config_section)
    && supports_sections provider in
  let full_ns :=
    if copied
    then
      (* pipeline, when provided, is the most outer and always present;
         config section is always present and innermost *)
      ((if truthy_str pipeline_name then [default EmptyString pipeline_name] else [])
       ++ ns ++
       (if truthy_str config_section then [default EmptyString config_section] else []))%list
    else ns in
  '(value, ns_key) ← call_get_value provider key h full_ns;
  (* if secret is obtained from non secret provider, we must fail *)
  let cant_hold_it := negb (supports_secrets provider) && is_secret_hint h in
  if bool_decide (value ≠ None) && cant_hold_it
  then raise (ValueNotSecretException (name provider) ns_key)
  else
    let traces :=
      if negb cant_hold_it
      then (traces ++ [mkLookupTrace (name provider) full_ns ns_key value])%list
      else traces in
    if bool_decide (value ≠ None) then mret (value, traces)
    else if Nat.eqb (length ns) 0 then mret (value, traces)
    else match fuel with
         | O => out_of_fuel
         | S fuel' =>
             (* pop optional sections for less precise lookup; the traces
                that hold [ns] itself lose the section with it *)
             let ns := removelast ns in
             let traces :=
               if copied then traces else List.map (with_sections ns) traces in
             section_loop fuel' provider key h pipeline_name config_section
                          ns traces
         end.

Definition resolve_single_provider_value (provider : ConfigProvider)
    (key : string) (h : hint) (pipeline_name config_section : option string)
    (explicit_sections embedded_sections : list string)
  : M (option value * list LookupTrace) :=
  if supports_sections provider then
    let ns := (explicit_sections ++ embedded_sections)%list in
    section_loop (length ns) provider key h pipeline_name config_section ns []
  else
    (* if provider does not support sections and pipeline name is set then
       ignore it *)
    if truthy_str pipeline_name then mret (None, [])
    else section_loop 0 provider key h pipeline_name config_section [] [].

(** *** [_resolve_single_value] *)

(** The [for provider in providers] loop of [look_sections], after at least
    one iteration: [value] is bound. *)
Fixpoint for_providers (ps : list ConfigProvider) (key : string) (h : hint)
    (pipeline_name config_section : option string)
    (explicit_sections embedded_sections : list string)
    (traces : list LookupTrace) : M (option value * list LookupTrace) :=
  match ps with
  | [] => mret (None, traces)
  | provider :: ps' =>
      '(value, provider_traces) ←
        resolve_single_provider_value provider key h pipeline_name
          config_section explicit_sections embedded_sections;
      let traces := (traces ++ provider_traces)%list in
      if bool_decide (value ≠ None)
      then mret (value, traces)   (* value found, ignore other providers *)
      else for_providers ps' key h pipeline_name config_section
                         explicit_sections embedded_sections traces
  end.

(** [look_sections]: with no provider at all the local [value] is never
    assigned and [return value] fails. *)
Definition look_sections (ps : list ConfigProvider) (key : string) (h : hint)
    (pipeline_name config_section : option string)
    (explicit_sections embedded_sections : list string)
    (traces : list LookupTrace) : M (option value * list LookupTrace) :=
  match ps with
  | [] => raise (UnboundLocalError "value")
  | _ :: _ => for_providers ps key h pipeline_name config_section
                            explicit_sections embedded_sections traces
  end.

Definition _resolve_single_value (C : Container) (key : string) (h : hint)
    (inner : inner_hint) (config_section : option string)
    (explicit_sections embedded_sections : list string)
  : M (option value * list LookupTrace) :=
  if is_context_inner_hint inner then
    (* resolve context with context provider and do not look further *)
    '(value, _) ← call_get_value (context_provider C) key (hint_of_inner inner) [];
    mret (value, [])
  else if is_base_configuration_inner_hint inner then
    (* cannot resolve configurations directly *)
    mret (None, [])
  else
    let '(config_section, embedded_sections) :=
      _apply_embedded_sections_to_config_sections config_section embedded_sections in
    (* if explicit sections are provided, ignore the injected context *)
    let outer :=
      match explicit_sections with [] => sections C | _ :: _ => explicit_sections end in
    (* first try with pipeline name as section, if present *)
    '(value, traces) ←
      (if truthy_str (pipeline_name C)
       then look_sections (providers C) key h (pipeline_name C) config_section
                          outer embedded_sections []
       else mret (None, []));
    (* then without it *)
    if bool_decide (value = None)
    then look_sections (providers C) key h None config_section
                       outer embedded_sections traces
    else mret (value, traces).

(** *** Configuration classes *)

Inductive hook := OnResolved | OnPartial.

Definition hook_name (m : hook) : string :=
  match m with
  | OnResolved => "on_resolved"
  | OnPartial => "on_partial"
  end.

(** Modelled from the spec: what the resolver asks of the class of a
    configuration instance ([BaseConfiguration] and its subclasses are not
    among the sources): its section, its resolvable fields, its MRO with the
    lifecycle hooks of every class, and its native-representation parser. *)
Record configspec := mkClass {
  __section__ : option string;
  (* the class derives from [CredentialsConfiguration] *)
  is_credentials : bool;
  (* [get_resolvable_fields()], in declaration order *)
  get_resolvable_fields : list (string * hint);
  (* the attributes of a fresh instance *)
  class_defaults : gmap string value;
  (* [type.mro cls], most derived first *)
  mro : list class_name;
  (* the hooks in the class's own [__dict__] *)
  own_hook : hook -> option (config -> exn + config);
  (* [parse_native_representation], as the class inherits or defines it *)
  parse_native_representation : config -> value -> exn + config
}.

Definition new_instance (classes : class_name -> configspec) (cls : class_name)
  : config :=
  mkConfig cls (class_defaults (classes cls)) false None.

(** A class used where a hint is expected (one alternative of a union). *)
Definition hint_of_class (classes : class_name -> configspec) (cls : class_name)
  : hint :=
  Hint (InnerConfig cls) (is_credentials (classes cls)) false false [].

Definition lift {A} (r : exn + A) : M A :=
  match r with
  | inl e => raise e
  | inr a => mret a
  end.

Section Resolver.

Variable classes : class_name -> configspec.
Variable C : Container.

(** [utils.deserialize_value key value hint] *)
Variable deserialize_value : string -> value -> inner_hint -> exn + value.

(** Modelled from the spec: [utils.log_traces] is not among the sources; the
    traces of a lookup are handed to the audit trail. *)
Definition log_traces (key : string) (traces : list LookupTrace) : M unit :=
  emit (EvLogTraces key traces).

(** [_call_method_in_mro]: every class of the MRO that defines the method
    itself gets its call, most derived first. *)
Fixpoint call_methods (config : loc) (m : hook) (mro : list class_name) : M unit :=
  match mro with
  | [] => mret tt
  | c :: rest =>
      match own_hook (classes c) m with
      | Some method =>
          emit (EvHook c (hook_name m) config);;
          self ← deref config;
          self' ← lift (method self);
          update config (fun _ => self');;
          call_methods config m rest
      | None => call_methods config m rest
      end
  end.

Definition _call_method_in_mro (config : loc) (m : hook) : M unit :=
  self ← deref config;
  call_methods config m (mro (classes (config_class self))).

Definition call_parse_native_representation (config : loc) (native_value : value)
  : M unit :=
  emit (EvParseNative config);;
  self ← deref config;
  self' ← lift (parse_native_representation (classes (config_class self))
                  self native_value);
  update config (fun _ => self').

Definition or_default (default_value current : option value) : option value :=
  match current with
  | None => default_value
  | Some _ => current
  end.

(** [_resolve_config_field]; [resolve] is [_resolve_configuration], to which
    an embedded configuration is handed. *)
Definition _resolve_config_field
    (resolve : loc -> list string -> list string -> option value -> bool -> M loc)
    (key : string) (h : hint) (default_value explicit_value : option value)
    (config_sections : option string)
    (explicit_sections embedded_sections : list string) (accept_partial : bool)
  : M (option value * list LookupTrace) :=
  let inner := extract_inner_hint h in
  '(value, traces) ←
    match explicit_value with
    | Some _ => mret (explicit_value, [])
    | None =>
        (* resolve key value via active providers passing the original hint *)
        r ← _resolve_single_value C key h inner config_sections
              explicit_sections embedded_sections;
        log_traces key (snd r);;
        mret r
    end;
  match inner with
  | InnerContext _ =>
      (* contexts must be resolved as a whole *)
      mret (or_default default_value value, traces)
  | InnerConfig cls =>
      (* if inner_hint is BaseConfiguration then resolve it recursively *)
      '(embedded_config, value, default_value) ←
        match value, default_value with
        | Some (VConfig l), _ => mret (l, None, default_value)
        | _, Some (VConfig l) => mret (l, value, None)
        | _, _ => l ← alloc (new_instance classes cls); mret (l, value, default_value)
        end;
      embedded ← deref embedded_config;
      if is_resolved embedded then
        (* injected context will be resolved *)
        mret (Some (VConfig embedded_config), traces)
      else
        let embedded_class := classes (config_class embedded) in
        '(value, traces) ←
          (* only config with sections may look for initial values *)
          (if truthy_str (__section__ embedded_class) && bool_decide (value = None)
           then
             let '(initial_key, initial_embedded) :=
               _apply_embedded_sections_to_config_sections
                 (__section__ embedded_class) (embedded_sections ++ [key])%list in
             (* it must be a secret value is config is credentials *)
             let initial_hint :=
               if is_credentials embedded_class then TSecretValue else AnyType in
             '(initial, initial_traces) ←
               _resolve_single_value C (default EmptyString initial_key) initial_hint
                 InnerAny None explicit_sections initial_embedded;
             if isinstance_Mapping initial
             then mret (None, traces)   (* mappings are not passed as initials *)
             else
               log_traces (default EmptyString initial_key) initial_traces;;
               mret (initial, (traces ++ initial_traces)%list)
           else mret (value, traces));
        (* accept partial becomes True if type if optional *)
        let accept_partial := accept_partial || is_optional_type h in
        resolved ← resolve embedded_config explicit_sections
                     (embedded_sections ++ [key])%list
                     (or_default default_value value) accept_partial;
        mret (Some (VConfig resolved), traces)
  | InnerAny =>
      (* if value is resolved, then deserialize and coerce it; do not
         deserialize explicit values *)
      value ←
        match value, explicit_value with
        | Some v, None => v' ← lift (deserialize_value key v inner); mret (Some v')
        | _, _ => mret value
        end;
      mret (or_default default_value value, traces)
  end.

(** The loop over the configurations of a union hint: the first that
    resolves is taken. *)
Fixpoint resolve_union
    (resolve : loc -> list string -> list string -> option value -> bool -> M loc)
    (key : string) (specs : list class_name)
    (default_value explicit_value : option value) (config_sections : option string)
    (explicit_sections embedded_sections : list string) (accept_partial : bool)
    (traces : list LookupTrace) : M (option value * list LookupTrace) :=
  match specs with
  | [] => mret (None, traces)
  | alt_spec :: rest =>
      try_except
        (_resolve_config_field resolve key (hint_of_class classes alt_spec)
           default_value explicit_value config_sections explicit_sections
           embedded_sections accept_partial)
        (fun e =>
           match e with
           | ConfigFieldMissingException _ missing =>
               (* add traces from unresolved union spec *)
               resolve_union resolve key rest default_value explicit_value
                 config_sections explicit_sections embedded_sections accept_partial
                 (traces ++ List.concat (List.map snd missing))%list
           | InvalidNativeValue _ _ =>
               (* if none of specs in union parsed *)
               match rest with
               | [] => raise e
               | _ :: _ =>
                   resolve_union resolve key rest default_value explicit_value
                     config_sections explicit_sections embedded_sections
                     accept_partial traces
               end
           | _ => raise e
           end)
  end.

(** [explicit_values.get(key)] *)
Definition explicit_value_of (explicit_values : option value) (key : string)
  : M (option value) :=
  match explicit_values with
  | Some (VMapping m) => mret (snd <$> List.find (fun kv => String.eqb (fst kv) key) m)
  | Some (VConfig l) => other ← deref l; mret (getattr other key)
  | _ => raise (OtherException "AttributeError")
  end.

(** The [for key, hint in fields.items()] loop of [_resolve_config_fields]. *)
Fixpoint resolve_fields
    (resolve : loc -> list string -> list string -> option value -> bool -> M loc)
    (config : loc) (explicit_values : option value)
    (explicit_sections embedded_sections : list string) (accept_partial : bool)
    (fields : list (string * hint))
    (unresolved_fields : list (string * list LookupTrace))
  : M (list (string * list LookupTrace)) :=
  match fields with
  | [] => mret unresolved_fields
  | (key, h) :: rest =>
      self ← deref config;
      (* get default and explicit values *)
      let default_value := getattr self key in
      explicit_value ←
        (if truthy explicit_values then explicit_value_of explicit_values key
         else if is_final_type h
              then mret default_value  (* for final fields default value is like explicit *)
              else mret None);
      (* if hint is union of configurations, any of them must be resolved *)
      let specs_in_union := specs_in_union_of h in
      '(current_value, traces) ←
        (if Nat.ltb 1 (length specs_in_union)
         then resolve_union resolve key specs_in_union default_value explicit_value
                (__section__ (classes (config_class self)))
                explicit_sections embedded_sections accept_partial []
         else _resolve_config_field resolve key h default_value explicit_value
                (__section__ (classes (config_class self)))
                explicit_sections embedded_sections accept_partial);
      (* collect unresolved fields *)
      let unresolved_fields :=
        if negb (is_optional_type h) && bool_decide (current_value = None)
        then (unresolved_fields ++ [(key, traces)])%list else unresolved_fields in
      (* set resolved value in config *)
      (if negb (opt_value_eqb default_value current_value)
       then if is_final_type h
            then raise (FinalConfigFieldException (config_class self) key)
            else update config (fun self => setattr self key current_value)
       else mret tt);;
      resolve_fields resolve config explicit_values explicit_sections
        embedded_sections accept_partial rest unresolved_fields
  end.

Definition _resolve_config_fields
    (resolve : loc -> list string -> list string -> option value -> bool -> M loc)
    (config : loc) (explicit_values : option value)
    (explicit_sections embedded_sections : list string) (accept_partial : bool)
  : M unit :=
  self ← deref config;
  unresolved_fields ←
    resolve_fields resolve config explicit_values explicit_sections
      embedded_sections accept_partial
      (get_resolvable_fields (classes (config_class self))) [];
  match unresolved_fields with
  | [] => mret tt
  | _ :: _ => raise (ConfigFieldMissingException (config_class self) unresolved_fields)
  end.

(** [_resolve_configuration]. The function calls itself on embedded
    configurations; [fuel] bounds the nesting depth. *)
Fixpoint _resolve_configuration (fuel : nat) (config : loc)
    (explicit_sections embedded_sections : list string)
    (explicit_value : option value) (accept_partial : bool) {struct fuel} : M loc :=
  self ← deref config;
  (* do not resolve twice *)
  if is_resolved self then mret config
  else
    match fuel with
    | O => out_of_fuel
    | S fuel' =>
        update config (fun self => set_exception self None);;
        try_except
          (try_except
             ((* use initial value to resolve the whole configuration. if
                 explicit value is a mapping it will be applied field by
                 field later *)
              explicit_value ←
                (if truthy explicit_value && negb (isinstance_Mapping explicit_value)
                 then
                   try_except
                     (call_parse_native_representation config
                        (default (VStr EmptyString) explicit_value))
                     (fun v_err =>
                        match v_err with
                        | ValueError _ =>
                            (* provide generic exception *)
                            raise (InvalidNativeValue (config_class self) embedded_sections)
                        | NotImplementedError => mret tt
                        | _ => raise v_err
                        end);;
                   (* explicit value was consumed *)
                   mret None
                 else mret explicit_value);
              (* if native representation didn't fully resolve the config, we
                 try to resolve field by field *)
              self ← deref config;
              (if negb (is_resolved self)
               then _resolve_config_fields (_resolve_configuration fuel') config
                      explicit_value explicit_sections embedded_sections accept_partial
               else mret tt);;
              _call_method_in_mro config OnResolved;;
              (* full configuration was resolved *)
              update config (fun self => set_resolved self true))
             (fun cm_ex =>
                match cm_ex with
                | ConfigFieldMissingException _ _ =>
                    (* store the exception to have full info on traces of
                       missing fields *)
                    update config (fun self => set_exception self (Some cm_ex));;
                    _call_method_in_mro config OnPartial;;
                    (* if resolved then do not raise *)
                    self ← deref config;
                    if is_resolved self then _call_method_in_mro config OnResolved
                    else if negb accept_partial then raise cm_ex else mret tt
                | _ => raise cm_ex
                end))
          (fun ex =>
             (* store the exception that happened in the resolution process *)
             update config (fun self => set_exception self (Some ex));;
             raise ex);;
        mret config
    end.

(** [resolve_configuration], for [config] a configuration instance. *)
Definition resolve_configuration (fuel : nat) (config : loc)
    (sections : list string) (explicit_value : option value) (accept_partial : bool)
  : M loc :=
  self ← deref config;
  let cls := classes (config_class self) in
  (* try to get the native representation of the top level configuration
     using the config section as a key *)
  explicit_value ←
    (if truthy_str (__section__ cls) && bool_decide (explicit_value = None)
     then
       let initial_hint := if is_credentials cls then TSecretValue else AnyType in
       '(explicit_value, traces) ←
         _resolve_single_value C (default EmptyString (__section__ cls)) initial_hint
           InnerAny None sections [];
       if isinstance_Mapping explicit_value
       then mret None
       else log_traces (default EmptyString (__section__ cls)) traces;;
            mret explicit_value
     else mret explicit_value);
  _resolve_configuration fuel config sections [] explicit_value accept_partial.

(** A sequence of resolve requests on one configuration instance. *)
Record request := mkRequest {
  req_fuel : nat;
  req_explicit_sections : list string;
  req_embedded_sections : list string;
  req_explicit_value : option value;
  req_accept_partial : bool
}.

Fixpoint resolve_all (config : loc) (requests : list request) (st : store)
  : list (outcome loc) * store :=
  match requests with
  | [] => ([], st)
  | r :: rest =>
      let '(o, st') :=
        _resolve_configuration (req_fuel r) config (req_explicit_sections r)
          (req_embedded_sections r) (req_explicit_value r) (req_accept_partial r) st in
      let '(os, st'') := resolve_all config rest st' in
      (o :: os, st'')
  end.

End Resolver.

(** *** The probing plan

    The section prefixes a walk visits, written as an explicit list, and
    the part of a plan that is executed before the first hit. *)

Fixpoint peel_n (n : nat) (ns : list string) : list (list string) :=
  match n with
  | O => [ns]
  | S n' => ns :: peel_n n' (removelast ns)
  end.

(** [ns], then [ns] without its last element, ... down to the empty list. *)
Definition peel (ns : list string) : list (list string) := peel_n (length ns) ns.

Definition opt_section (s : option string) : list string :=
  if truthy_str s then [default EmptyString s] else [].

Definition wrap (pipeline_name config_section : option string)
    (ns : list string) : list string :=
  (opt_section pipeline_name ++ ns ++ opt_section config_section)%list.

Definition provider_plan (pipeline_name config_section : option string)
    (ns : list string) (prov : ConfigProvider)
  : list (ConfigProvider * list string) :=
  List.map (fun pre => (prov, wrap pipeline_name config_section pre)) (peel ns).

Definition probe_plan (ps : list ConfigProvider)
    (pipeline_name config_section : option string) (ns : list string)
  : list (ConfigProvider * list string) :=
  List.flat_map (provider_plan pipeline_name config_section ns) ps.

Fixpoint until_hit (key : string) (h : hint)
    (plan : list (ConfigProvider * list string))
  : list (ConfigProvider * list string) * option value :=
  match plan with
  | [] => ([], None)
  | (prov, full_ns) :: rest =>
      match fst (get_value prov key h full_ns) with
      | Some v => ([(prov, full_ns)], Some v)
      | None =>
          let '(probed, v) := until_hit key h rest in
          ((prov, full_ns) :: probed, v)
      end
  end.

Definition event_of (key : string) (pr : ConfigProvider * list string) : event :=
  EvGetValue (name (fst pr)) key (snd pr).

Definition trace_of (key : string) (h : hint)
    (pr : ConfigProvider * list string) : LookupTrace :=
  mkLookupTrace (name (fst pr)) (snd pr)
                (snd (get_value (fst pr) key h (snd pr)))
                (fst (get_value (fst pr) key h (snd pr))).

Definition add_events (st : store) (evs : list event) : store :=
  mkStore (heap st) (events st ++ evs)%list.

(** A lookup that ended on a hit: it returned the value or raised. *)
Definition hit_outcome {A} (r : outcome (option value * A)) : Prop :=
  (exists v tr, r = Ok (Some v, tr)) \/ (exists e, r = Raise e).

(** A provider that can hold the value of hint [h]. *)
Definition can_hold (h : hint) (prov : ConfigProvider) : bool :=
  negb (negb (supports_secrets prov) && is_secret_hint h).

(** The sections one loop iteration passes to the provider. *)
Definition full_ns_of (prov : ConfigProvider) (pn cfg : option string)
    (ns : list string) : list string :=
  if supports_sections prov then wrap pn cfg ns else ns.

(** Whether an iteration passes the provider a copy of [ns], extended
    with the pipeline name or the config section, rather than [ns] itself. *)
Definition copies (prov : ConfigProvider) (pn cfg : option string) : bool :=
  (truthy_str pn || truthy_str cfg) && supports_sections prov.

(** A provider with sections that can hold the hint. *)
Definition walkable (h : hint) (prov : ConfigProvider) : Prop :=
  supports_sections prov = true /\ can_hold h prov = true.

(** The complete plan of [_resolve_single_value] for a scalar hint: one walk
    over all providers under the pipeline name when there is one, then one
    walk without it. *)
Definition resolution_plan (C : Container) (config_section : option string)
    (explicit_sections embedded_sections : list string)
  : list (ConfigProvider * list string) :=
  let '(config_section, embedded_sections) :=
    _apply_embedded_sections_to_config_sections config_section embedded_sections in
  let outer :=
    match explicit_sections with [] => sections C | _ :: _ => explicit_sections end in
  ((if truthy_str (pipeline_name C)
    then probe_plan (providers C) (pipeline_name C) config_section
                    (outer ++ embedded_sections)
    else [])
   ++ probe_plan (providers C) None config_section (outer ++ embedded_sections))%list.

(** The first probe of a plan that yields a value, with that value and the
    effective key the provider reports. *)
Fixpoint first_hit (key : string) (h : hint)
    (plan : list (ConfigProvider * list string))
  : option (ConfigProvider * list string * value * string) :=
  match plan with
  | [] => None
  | (prov, full_ns) :: rest =>
      match get_value prov key h full_ns with
      | (Some v, ns_key) => Some (prov, full_ns, v, ns_key)
      | (None, _) => first_hit key h rest
      end
  end.

(** The probes [resolve_single_provider_value] makes on one provider when
    nothing is found. *)
Definition single_provider_plan (prov : ConfigProvider)
    (pipeline_name config_section : option string) (ns : list string)
  : list (ConfigProvider * list string) :=
  if supports_sections prov then provider_plan pipeline_name config_section ns prov
  else if truthy_str pipeline_name then [] else [(prov, [])].

Definition probed_sections (evs : list event) : list (list string) :=
  omap (fun ev => match ev with EvGetValue _ _ ns => Some ns | _ => None end) evs.

Definition empty_store : store := mkStore ∅ [].

(** The probing order as the specification words it, for key [k] under
    pipeline [p], outer sections [s1], [s2] and config section [cfg]. *)
Definition spec_section_walk (p s1 s2 cfg : string) : list (list string) :=
  [[p; s1; s2; cfg]; [p; s1; cfg]; [p; cfg]; [cfg];
   [p; s1; s2]; [p; s1]; [p]; []].

(** The probing order the resolver follows: the config section stays
    innermost in every probe. *)
Definition code_section_walk (p s1 s2 cfg : string) : list (list string) :=
  [[p; s1; s2; cfg]; [p; s1; cfg]; [p; cfg];
   [s1; s2; cfg]; [s1; cfg]; [cfg]].

(** The same order over a list of providers: every provider is walked under
    the pipeline name, then every provider without it. *)
Definition code_probe_plan (ps : list ConfigProvider) (p s1 s2 cfg : string)
  : list (ConfigProvider * list string) :=
  (List.flat_map
     (fun prov => List.map (pair prov) [[p; s1; s2; cfg]; [p; s1; cfg]; [p; cfg]]) ps
   ++
   List.flat_map
     (fun prov => List.map (pair prov) [[s1; s2; cfg]; [s1; cfg]; [cfg]]) ps)%list.

(** Two providers used in the examples: one that holds nothing, and a plain
    file without secret support that holds [PASSWORD]. *)
Definition silent_provider (nm : string) : ConfigProvider :=
  mkProvider nm true true (fun key _ _ => (None, key)).

(** The cascade scenario: a configuration class with section [db] and one
    field [host], resolved from an [env] provider. *)
Definition env_provider : ConfigProvider :=
  mkProvider "env" true true
    (fun key _ ns =>
       if String.eqb key "host" && bool_decide (ns = ["db"])
       then (Some (VStr "h1"), "DB__HOST") else (None, key)).

Definition db_class : configspec :=
  mkClass (Some "db") false [("host", Hint InnerAny false false false [])] ∅
    ["DbConfiguration"; "BaseConfiguration"]
    (fun m => match m with OnResolved => Some inr | OnPartial => None end)
    (fun _ _ => inl NotImplementedError).

Definition base_class : configspec :=
  mkClass None false [] ∅ ["BaseConfiguration"] (fun _ => None)
    (fun _ _ => inl NotImplementedError).

Definition db_classes (cls : class_name) : configspec :=
  if String.eqb cls "DbConfiguration" then db_class else base_class.

Definition db_container : Container :=
  mkContainer [env_provider] (silent_provider "context") None [].

Definition no_coercion (key : string) (v : value) (inner : inner_hint) : exn + value :=
  inr v.

Definition db_store : store :=
  mkStore {[1%positive := new_instance db_classes "DbConfiguration"]} [].

Definition db_store_resolved : store :=
  snd (_resolve_configuration db_classes db_container no_coercion 1 1%positive
         [] [] None false db_store).

Definition file_provider : ConfigProvider :=
  mkProvider "file" true false
    (fun key _ ns =>
       match ns with
       | [] => if String.eqb key "password"
               then (Some (VStr "p"), "PASSWORD") else (None, key)
       | _ :: _ => (None, key)
       end).

(** *** The plan of a lookup over providers of every kind *)

(** The complete plan of [_resolve_single_value] for a scalar hint, whatever
    the providers support: a provider without sections is left out of the
    walk under the pipeline name and probed once, with no sections, in the
    walk without it. *)
Definition lookup_plan (C : Container) (config_section : option string)
    (explicit_sections embedded_sections : list string)
  : list (ConfigProvider * list string) :=
  let '(config_section, embedded_sections) :=
    _apply_embedded_sections_to_config_sections config_section embedded_sections in
  let outer :=
    match explicit_sections with [] => sections C | _ :: _ => explicit_sections end in
  ((if truthy_str (pipeline_name C)
    then List.flat_map
           (fun prov => single_provider_plan prov (pipeline_name C) config_section
                          (outer ++ embedded_sections))
           (providers C)
    else [])
   ++ List.flat_map
        (fun prov => single_provider_plan prov None config_section
                       (outer ++ embedded_sections))
        (providers C))%list.

(** The traces of the probes made, each with the sections of its probe: a
    provider that cannot hold the hint leaves none. *)
Definition traced (key : string) (h : hint)
    (probed : list (ConfigProvider * list string)) : list LookupTrace :=
  List.map (trace_of key h) (List.filter (fun pr => can_hold h (fst pr)) probed).

(** The traces one walk on [prov] returns, [probed] being the probes it
    made. Where the probes were passed copies of [ns], every trace shows the
    sections of its probe. Where they were passed [ns] itself, the traces
    share that list, and all of them show what is left of it when the walk
    ends: the sections of the last probe. *)
Definition walk_traces (key : string) (h : hint) (prov : ConfigProvider)
    (pn cfg : option string) (probed : list (ConfigProvider * list string))
  : list LookupTrace :=
  if copies prov pn cfg then traced key h probed
  else List.map (with_sections (List.last (List.map snd probed) []))
                (traced key h probed).

(** The probes of one pass over the providers when nothing is found. *)
Definition pass_plan (ps : list ConfigProvider) (pn cfg : option string)
    (ns : list string) : list (ConfigProvider * list string) :=
  List.flat_map (fun prov => single_provider_plan prov pn cfg ns) ps.

(** The traces of one pass over the providers: walk after walk, up to the
    walk with the first hit. *)
Fixpoint pass_traces (key : string) (h : hint) (pn cfg : option string)
    (ns : list string) (ps : list ConfigProvider) : list LookupTrace :=
  match ps with
  | [] => []
  | prov :: ps' =>
      let '(probed, v) := until_hit key h (single_provider_plan prov pn cfg ns) in
      (walk_traces key h prov pn cfg probed ++
       match v with
       | Some _ => []
       | None => pass_traces key h pn cfg ns ps'
       end)%list
  end.

(** The traces of a lookup: those of the pass under the pipeline name, when
    there is one, and, unless that pass had a hit, those of the pass without
    it. *)
Definition lookup_traces (C : Container) (config_section : option string)
    (explicit_sections embedded_sections : list string)
    (key : string) (h : hint) : list LookupTrace :=
  let '(config_section, embedded_sections) :=
    _apply_embedded_sections_to_config_sections config_section embedded_sections in
  let outer :=
    match explicit_sections with [] => sections C | _ :: _ => explicit_sections end in
  let ns := (outer ++ embedded_sections)%list in
  if truthy_str (pipeline_name C) then
    (pass_traces key h (pipeline_name C) config_section ns (providers C) ++
     match snd (until_hit key h
                  (pass_plan (providers C) (pipeline_name C) config_section ns)) with
     | Some _ => []
     | None => pass_traces key h None config_section ns (providers C)
     end)%list
  else pass_traces key h None config_section ns (providers C).

(** What a lookup that follows [plan] comes to, [traces] being the traces it
    returns: the value of the first hit when its provider can hold the hint,
    [ValueNotSecretException] when it cannot, and [None] without a hit. *)
Definition plan_outcome (key : string) (h : hint) (traces : list LookupTrace)
    (plan : list (ConfigProvider * list string))
  : outcome (option value * list LookupTrace) :=
  match first_hit key h plan with
  | Some (prov, _, v, ns_key) =>
      if can_hold h prov
      then Ok (Some v, traces)
      else Raise (ValueNotSecretException (name prov) ns_key)
  | None => Ok (None, traces)
  end.

(** The traces of a lookup end at the value: a value comes with the trace of
    the probe that found it, after traces that found nothing. *)
Definition ends_at (key : string) (h : hint) (ps : list ConfigProvider)
    (v : option value) (traces : list LookupTrace) : Prop :=
  match v with
  | None => Forall (fun t => trace_value t = None) traces
  | Some x =>
      exists pre prov full_ns ns_key,
        traces = (pre ++ [mkLookupTrace (name prov) full_ns ns_key (Some x)])%list /\
        Forall (fun t => trace_value t = None) pre /\
        In prov ps /\
        get_value prov key h full_ns = (Some x, ns_key)
  end.

(** The sections a lookup may send to a provider: the pipeline name, the
    explicit sections (or the injected ones when none are explicit), the
    embedded sections that are not hidden, and the config section. *)
Definition may_probe (C : Container) (config_section : option string)
    (explicit_sections embedded_sections : list string) (s : string) : Prop :=
  pipeline_name C = Some s \/
  In s (match explicit_sections with [] => sections C | _ :: _ => explicit_sections end) \/
  (In s embedded_sections /\ startswith_underscore s = false) \/
  config_section = Some s.

(** *** The lifecycle of an instance, field by field *)

(** A computation that removes no configuration instance from the heap. *)
Definition keeps {A} (l : loc) (m : M A) : Prop :=
  forall st r st', m st = (r, st') -> is_Some (heap st !! l) -> is_Some (heap st' !! l).

Section Fields.

Variable classes : class_name -> configspec.
Variable C : Container.
Variable deserialize_value : string -> value -> inner_hint -> exn + value.










End Fields.

(** The [host] of [DbConfiguration] with a provider that holds nothing. *)
Definition silent_container : Container :=
  mkContainer [silent_provider "env"] (silent_provider "context") None [].

Definition host_missing : exn :=
  ConfigFieldMissingException "DbConfiguration"
    [("host", [mkLookupTrace "env" ["db"] "host" None])].




End Resolve.

(** ** Schema-contract engine

    [Schema.resolve_contract_settings_for_table] and
    [Schema.apply_schema_contract] are exercised by
    [tests/common/schema/test_contract_mode_functions.py]; the class itself
    is not part of the sources at hand. *)

Module Contract.

Inductive TSchemaEvolutionMode := evolve | discard_row | discard_value | freeze.

#[export] Instance TSchemaEvolutionMode_eq_dec : EqDecision TSchemaEvolutionMode.
Proof. solve_decision. Defined.

(** The contract mode triple. *)
Record TSchemaContractModes := mkModes {
  tables : TSchemaEvolutionMode;
  columns : TSchemaEvolutionMode;
  data_type : TSchemaEvolutionMode
}.

Definition DEFAULT_SCHEMA_CONTRACT_MODE : TSchemaContractModes :=
  mkModes evolve evolve evolve.

(** Contract mode serialization: an atom, or a mapping with optional keys
    [tables], [columns], [data_type]. *)
Inductive TSchemaContractSettings :=
| SettingsAtom (mode : TSchemaEvolutionMode)
| SettingsMapping (tables columns data_type : option TSchemaEvolutionMode).

Record TColumnSchema := mkColumn {
  column_name : string;
  column_data_type : option string;
  variant : bool
}.

(** Python dictionaries keep insertion order; the engine walks them in
    that order, so rows and column maps are association lists. *)
Inductive TDataValue := DStr (s : string) | DInt (z : Z).

Definition TDataItem : Type := list (string * TDataValue).
Definition TTableSchemaColumns : Type := list (string * TColumnSchema).

Record TTableSchema := mkTable {
  table_name : string;
  parent : option string;
  table_columns : TTableSchemaColumns;
  schema_contract : option TSchemaContractSettings
}.

Record Schema := mkSchema {
  schema_name : string;
  schema_tables : list (string * TTableSchema);
  settings_schema_contract : option TSchemaContractSettings
}.

Fixpoint assoc {A} (key : string) (l : list (string * A)) : option A :=
  match l with
  | [] => None
  | (k, a) :: l' => if String.eqb k key then Some a else assoc key l'
  end.

Definition has_key {A} (key : string) (l : list (string * A)) : bool :=
  existsb (fun kv => String.eqb (fst kv) key) l.

(** Modelled from the spec: a column is complete iff it has a concrete data
    type. *)
Definition is_complete_column (c : TColumnSchema) : bool :=
  match column_data_type c with Some _ => true | None => false end.

(** *** Mode resolution *)

(** Modelled from the spec: [Schema.resolve_contract_settings_for_table] is
    not in the sources at hand. One override laid over a triple: an atom
    sets all three slots, a mapping sets the slots it names. *)
Definition overlay (base : TSchemaContractModes)
    (settings : option TSchemaContractSettings) : TSchemaContractModes :=
  match settings with
  | None => base
  | Some (SettingsAtom m) => mkModes m m m
  | Some (SettingsMapping t c d) =>
      mkModes (default (tables base) t) (default (columns base) c)
              (default (data_type base) d)
  end.

Definition table_override (s : Schema) (name : string)
  : option TSchemaContractSettings :=
  t ← assoc name (schema_tables s); schema_contract t.

(** Modelled from the spec: [Schema.resolve_contract_settings_for_table] is
    not in the sources at hand. Start from the schema-wide default, overlay
    the schema's own override, then the parent table's override (if any),
    then the table's override. *)
Definition resolve_contract_settings_for_table (s : Schema)
    (parent_table : option string) (table : string) : TSchemaContractModes :=
  let modes := overlay DEFAULT_SCHEMA_CONTRACT_MODE (settings_schema_contract s) in
  let modes :=
    match parent_table with
    | Some p => overlay modes (table_override s p)
    | None => modes
    end in
  overlay modes (table_override s table).

(** The reading in which a partial mapping is first completed to a triple,
    its missing slots set to [evolve], and then laid over as a whole. *)
Definition complete_settings (settings : TSchemaContractSettings)
  : TSchemaContractModes :=
  match settings with
  | SettingsAtom m => mkModes m m m
  | SettingsMapping t c d =>
      mkModes (default evolve t) (default evolve c) (default evolve d)
  end.

Inductive TContractSlot := SlotTables | SlotColumns | SlotDataType.

Definition mode_slot (slot : TContractSlot) (modes : TSchemaContractModes)
  : TSchemaEvolutionMode :=
  match slot with
  | SlotTables => tables modes
  | SlotColumns => columns modes
  | SlotDataType => data_type modes
  end.

(** What an override says about one slot, if anything. *)
Definition setting_slot (slot : TContractSlot) (settings : TSchemaContractSettings)
  : option TSchemaEvolutionMode :=
  match settings with
  | SettingsAtom m => Some m
  | SettingsMapping t c d =>
      match slot with
      | SlotTables => t
      | SlotColumns => c
      | SlotDataType => d
      end
  end.

(** The first layer, innermost first, that sets the slot; [evolve] when
    none does. *)
Fixpoint first_set (slot : TContractSlot)
    (layers : list (option TSchemaContractSettings)) : TSchemaEvolutionMode :=
  match layers with
  | [] => evolve
  | layer :: rest =>
      match layer ≫= setting_slot slot with
      | Some m => m
      | None => first_set slot rest
      end
  end.

(** *** Applying a contract *)
Inductive TChangeKind := NewTable | NewVariant | NewColumn.

Inductive contract_exn :=
| SchemaFrozenException (table : string) (column : option string)
                        (slot : TContractSlot) (change : TChangeKind).

Inductive contract_result :=
| Returns (data : option TDataItem) (delta : option TTableSchema)
| Raises (e : contract_exn).

(** [evolve < discard_value < discard_row < freeze]. *)
Definition strictness (m : TSchemaEvolutionMode) : nat :=
  match m with
  | evolve => 0
  | discard_value => 1
  | discard_row => 2
  | freeze => 3
  end.

(** Modelled from the spec: a column of the delta is new when the existing
    table has no complete column of that name. *)
Definition is_new_column (existing : TTableSchema) (name : string) : bool :=
  match assoc name (table_columns existing) with
  | Some c => negb (is_complete_column c)
  | None => true
  end.

(** Modelled from the spec: the mode that governs one column of the delta,
    with the slot and the change kind it comes from: a variant answers to the [data_type] slot and,
    being a new column too, to the [columns] slot, the stricter of the two
    winning; any other new column answers to the [columns] slot; a column
    that is already complete is no change. *)
Definition column_verdict (modes : TSchemaContractModes)
    (existing : TTableSchema) (name : string) (c : TColumnSchema)
  : TSchemaEvolutionMode * TContractSlot * TChangeKind :=
  if variant c then
    if Nat.ltb (strictness (data_type modes)) (strictness (columns modes))
    then (columns modes, SlotColumns, NewColumn)
    else (data_type modes, SlotDataType, NewVariant)
  else if is_new_column existing name then (columns modes, SlotColumns, NewColumn)
  else (evolve, SlotColumns, NewColumn).

Definition verdict_mode (modes : TSchemaContractModes) (existing : TTableSchema)
    (kc : string * TColumnSchema) : TSchemaEvolutionMode :=
  fst (fst (column_verdict modes existing (fst kc) (snd kc))).

Definition is_mode (m : TSchemaEvolutionMode) (modes : TSchemaContractModes)
    (existing : TTableSchema) (kc : string * TColumnSchema) : bool :=
  bool_decide (verdict_mode modes existing kc = m).

Definition set_columns (t : TTableSchema) (cols : TTableSchemaColumns) : TTableSchema :=
  mkTable (table_name t) (parent t) cols (schema_contract t).

(** Modelled from the spec: the columns of a delta that answer to the
    [columns] slot: the new columns, and the variants, a variant being a new
    column too. *)
Definition answers_to_columns (existing : TTableSchema)
    (kc : string * TColumnSchema) : bool :=
  variant (snd kc) || is_new_column existing (fst kc).

(** Modelled from the spec: [Schema.apply_schema_contract] is not in the
    sources at hand. The change kinds are taken in priority order: with no
    existing table the change is a new table and the [tables] slot alone
    decides; otherwise every column of the delta gets its verdict and the
    strictest outcome wins: [freeze] raises, else [discard_row] drops the
    row, else the [discard_value] columns are stripped from data and delta. *)
Definition apply_schema_contract (modes : TSchemaContractModes)
    (name : string) (data : TDataItem) (delta : TTableSchema)
    (existing_table : option TTableSchema) : contract_result :=
  match existing_table with
  | None =>
      match tables modes with
      | evolve => Returns (Some data) (Some delta)
      | discard_row | discard_value => Returns None None
      | freeze => Raises (SchemaFrozenException name None SlotTables NewTable)
      end
  | Some existing =>
      match List.find (is_mode freeze modes existing) (table_columns delta) with
      | Some (k, c) =>
          let '(_, slot, change) := column_verdict modes existing k c in
          Raises (SchemaFrozenException name (Some k) slot change)
      | None =>
          if existsb (is_mode discard_row modes existing) (table_columns delta)
          then Returns None None
          else
            let stripped :=
              List.filter (is_mode discard_value modes existing) (table_columns delta) in
            Returns
              (Some (List.filter (fun kv => negb (has_key (fst kv) stripped)) data))
              (Some (set_columns delta
                       (List.filter
                          (fun kc => negb (is_mode discard_value modes existing kc))
                          (table_columns delta))))
      end
  end.

(** Modelled from the spec: the method as the test module calls it, on a
    schema and with a flag that says whether the table exists. *)
Definition schema_apply_schema_contract (s : Schema) (modes : TSchemaContractModes)
    (name : string) (data : TDataItem) (delta : TTableSchema) (table_exists : bool)
  : contract_result :=
  apply_schema_contract modes name data delta
    (if table_exists then assoc name (schema_tables s) else None).

(** The four outcomes of the outcome matrix. A stripped pair keeps a
    proper part of the delta's columns and a part of the row. *)
Definition passes_through (data : TDataItem) (delta : TTableSchema)
    (r : contract_result) : Prop :=
  r = Returns (Some data) (Some delta).

Definition discards_row (r : contract_result) : Prop := r = Returns None None.

Definition strips (data : TDataItem) (delta : TTableSchema)
    (r : contract_result) : Prop :=
  exists data' delta',
    r = Returns (Some data') (Some delta') /\
    length (table_columns delta') < length (table_columns delta) /\
    (forall kc, In kc (table_columns delta') -> In kc (table_columns delta)) /\
    (forall kv, In kv data' -> In kv data).

Definition raises_frozen (r : contract_result) : Prop :=
  exists table column slot change,
    r = Raises (SchemaFrozenException table column slot change).

Definition exactly_one_of (P Q R S : Prop) : Prop :=
  (P /\ ~ Q /\ ~ R /\ ~ S) \/ (~ P /\ Q /\ ~ R /\ ~ S) \/
  (~ P /\ ~ Q /\ R /\ ~ S) \/ (~ P /\ ~ Q /\ ~ R /\ S).

(** The schema of [get_schema] in the test module, and its rows and deltas. *)
Definition test_columns : TTableSchemaColumns :=
  [("column_1", mkColumn "column_1" (Some "string") false);
   ("column_2", mkColumn "column_2" (Some "number") false)].

Definition test_incomplete_columns : TTableSchemaColumns :=
  [("incomplete_column_1", mkColumn "incomplete_column_1" None false);
   ("incomplete_column_2", mkColumn "incomplete_column_2" None false)].

Definition get_schema : Schema :=
  mkSchema "event"
    [("tables", mkTable "tables" None test_columns None);
     ("child_table", mkTable "child_table" (Some "tables") test_columns None);
     ("incomplete_table", mkTable "incomplete_table" None test_incomplete_columns None);
     ("mixed_table",
      mkTable "mixed_table" None (test_incomplete_columns ++ test_columns)%list None)]
    None.

Definition set_table_contract (s : Schema) (name : string)
    (settings : TSchemaContractSettings) : Schema :=
  mkSchema (schema_name s)
    (List.map (fun kt =>
       if String.eqb (fst kt) name
       then (fst kt, mkTable (table_name (snd kt)) (parent (snd kt))
                       (table_columns (snd kt)) (Some settings))
       else kt) (schema_tables s))
    (settings_schema_contract s).

Definition set_schema_contract (s : Schema) (settings : TSchemaContractSettings)
  : Schema :=
  mkSchema (schema_name s) (schema_tables s) (Some settings).

(** The [mixed settings] case of [test_resolve_contract_settings]. *)
Definition mixed_settings_schema : Schema :=
  set_table_contract (set_schema_contract get_schema (SettingsAtom freeze)) "tables"
    (SettingsMapping (Some evolve) (Some discard_value) None).

Definition test_data : TDataItem :=
  [("column_1", DStr "some string"); ("column_2", DInt 123)].

Definition test_variant_update : TTableSchema :=
  mkTable "tables" None
    [("column_2_variant", mkColumn "column_2_variant" (Some "number") true)] None.

Definition test_existing_table : TTableSchema :=
  mkTable "tables" None test_columns None.

Definition test_data_with_new_row : TDataItem :=
  (test_data ++ [("new_column", DStr "some string")])%list.

Definition test_table_update : TTableSchema :=
  mkTable "tables" None
    [("new_column", mkColumn "new_column" (Some "string") false)] None.

Definition test_data_with_variant : TDataItem :=
  (test_data ++ [("column_2_variant", DInt 345345)])%list.

Definition base_settings : list TSchemaContractModes :=
  [mkModes evolve evolve evolve; mkModes discard_row discard_row discard_row;
   mkModes discard_value discard_value discard_value; mkModes freeze freeze freeze].

Definition with_tables (base : TSchemaContractModes) (m : TSchemaEvolutionMode) :=
  mkModes m (columns base) (data_type base).

Definition with_columns (base : TSchemaContractModes) (m : TSchemaEvolutionMode) :=
  mkModes (tables base) m (data_type base).

Definition with_data_type (base : TSchemaContractModes) (m : TSchemaEvolutionMode) :=
  mkModes (tables base) (columns base) m.

Definition test_new_table : TTableSchema :=
  mkTable "new_table" None test_columns None.

Definition test_data_with_incomplete : TDataItem :=
  (test_data ++ [("incomplete_column_1", DStr "some other string")])%list.

Definition test_mixed_update : TTableSchema :=
  mkTable "mixed_table" None
    [("incomplete_column_1", mkColumn "incomplete_column_1" (Some "string") false)] None.

Definition is_frozen (r : contract_result) : bool :=
  match r with Raises _ => true | Returns _ _ => false end.

End Contract.

(** ** Extraction: [experiments/pipeline/extract.py] *)

Module Extract.

Definition TDataItem := string.

(** A directory listing: file name to the items written to the file. *)
Abbreviation folder := (gmap string (list TDataItem)).

Inductive storage_op :=
| OpCreateFolder (path : string)
| OpAtomicRename (from_folder from_file to_folder to_file : string)
| OpLinkHard (from_folder from_file to_folder to_file : string)
| OpDeleteFolder (path : string).

(** Modelled from the spec: [FileStorage] is not among the sources. The
    storage under the volume root is the folders that exist, each with its
    files, and the operations performed so far. A path is kept as its folder
    and its file name, which is what [os.path.join folder file] denotes; the
    operations below follow the file-system calls their names stand for. *)
Record storage := mkStorage {
  folders : gmap string folder;
  ops : list storage_op
}.

Inductive storage_error :=
| FileNotFoundError (folder file : string)
| FileExistsError (path : string).

Inductive result (A : Type) :=
| Ok (a : A)
| Err (e : storage_error).
Arguments Ok {A} a.
Arguments Err {A} e.

Definition bind {A B} (r : result A) (f : A -> result B) : result B :=
  match r with
  | Ok a => f a
  | Err e => Err e
  end.

Definition EXTRACT_FOLDER : string := "extract".

(** Modelled from the spec: [NormalizeStorage.EXTRACTED_FOLDER], the
    normalize-input folder. *)
Definition EXTRACTED_FOLDER : string := "extracted".

Definition path_join (a b : string) : string := a ++ "/" ++ b.

Definition _get_extract_path (extract_id : string) : string :=
  path_join EXTRACT_FOLDER extract_id.

(** Modelled from the spec: [FileStorage.create_folder]. *)
Definition create_folder (st : storage) (path : string) (exists_ok : bool)
  : result storage :=
  match folders st !! path with
  | Some _ =>
      if exists_ok then Ok (mkStorage (folders st) (ops st ++ [OpCreateFolder path])%list)
      else Err (FileExistsError path)
  | None =>
      Ok (mkStorage (<[path := ∅]> (folders st)) (ops st ++ [OpCreateFolder path])%list)
  end.

(** Modelled from the spec: [FileStorage.list_folder_files] with
    [to_root=False], the names of the files in the folder. *)
Definition list_folder_files (st : storage) (path : string) : result (list string) :=
  match folders st !! path with
  | Some dir => Ok (map_to_list dir).*1
  | None => Err (FileNotFoundError path EmptyString)
  end.

(** Modelled from the spec: [FileStorage.atomic_rename], an [os.rename]:
    the file leaves its folder and appears in the target folder under the
    new name in one step. *)
Definition atomic_rename (st : storage) (from_folder from_file to_folder to_file : string)
  : result storage :=
  match folders st !! from_folder with
  | None => Err (FileNotFoundError from_folder from_file)
  | Some src =>
      match src !! from_file with
      | None => Err (FileNotFoundError from_folder from_file)
      | Some content =>
          let fs := <[from_folder := delete from_file src]> (folders st) in
          match fs !! to_folder with
          | None => Err (FileNotFoundError to_folder to_file)
          | Some dst =>
              Ok (mkStorage (<[to_folder := <[to_file := content]> dst]> fs)
                    (ops st ++ [OpAtomicRename from_folder from_file to_folder to_file])%list)
          end
      end
  end.

(** Modelled from the spec: [FileStorage.link_hard], an [os.link]: the
    target folder gets a second name for the same file. *)
Definition link_hard (st : storage) (from_folder from_file to_folder to_file : string)
  : result storage :=
  match folders st !! from_folder with
  | None => Err (FileNotFoundError from_folder from_file)
  | Some src =>
      match src !! from_file with
      | None => Err (FileNotFoundError from_folder from_file)
      | Some content =>
          match folders st !! to_folder with
          | None => Err (FileNotFoundError to_folder to_file)
          | Some dst =>
              match dst !! to_file with
              | Some _ => Err (FileExistsError (path_join to_folder to_file))
              | None =>
                  Ok (mkStorage (<[to_folder := <[to_file := content]> dst]> (folders st))
                        (ops st ++ [OpLinkHard from_folder from_file to_folder to_file])%list)
              end
          end
      end
  end.

(** Modelled from the spec: [FileStorage.delete_folder] with
    [recursively=True]. *)
Definition delete_folder (st : storage) (path : string) : result storage :=
  match folders st !! path with
  | None => Err (FileNotFoundError path EmptyString)
  | Some _ =>
      Ok (mkStorage (delete path (folders st)) (ops st ++ [OpDeleteFolder path])%list)
  end.

(** *** [ExtractorStorage] *)

Definition initialize_storage (st : storage) : result storage :=
  create_folder st EXTRACT_FOLDER true.

(** [uniq_id()] is passed in as [extract_id]. *)
Definition create_extract_id (st : storage) (extract_id : string)
  : result (string * storage) :=
  bind (create_folder st (_get_extract_path extract_id) false)
       (fun st' => Ok (extract_id, st')).

(** The body of the [for file in ...] loop of [commit_extract_files]. *)
Fixpoint commit_files (st : storage) (extract_path : string) (with_delete : bool)
    (files : list string) : result storage :=
  match files with
  | [] => Ok st
  | file :: rest =>
      bind (if with_delete
            then atomic_rename st extract_path file EXTRACTED_FOLDER file
            else
              (* create hardlink which will act as a copy *)
              link_hard st extract_path file EXTRACTED_FOLDER file)
           (fun st' => commit_files st' extract_path with_delete rest)
  end.

Definition commit_extract_files (st : storage) (extract_id : string)
    (with_delete : bool) : result storage :=
  let extract_path := _get_extract_path extract_id in
  bind (list_folder_files st extract_path) (fun files =>
  bind (commit_files st extract_path with_delete files) (fun st' =>
  if with_delete then delete_folder st' extract_path else Ok st')).

(** *** Writers *)

Inductive TDirectDataItem :=
| Item (item : TDataItem)
| Items (items : list TDataItem).

Definition items_of (d : TDirectDataItem) : list TDataItem :=
  match d with
  | Item i => [i]
  | Items l => l
  end.

Definition writer_key : Type := string * string * string.

Record item_storage := mkItemStorage {
  files : storage;
  writers : list (writer_key * list TDataItem)
}.

Definition writer_key_eqb (a b : writer_key) : bool :=
  let '(a1, a2, a3) := a in
  let '(b1, b2, b3) := b in
  String.eqb a1 b1 && String.eqb a2 b2 && String.eqb a3 b3.

Fixpoint append_to_writer (ws : list (writer_key * list TDataItem))
    (key : writer_key) (items : list TDataItem)
  : list (writer_key * list TDataItem) :=
  match ws with
  | [] => [(key, items)]
  | (k, buffered) :: rest =>
      if writer_key_eqb k key then (k, (buffered ++ items)%list) :: rest
      else (k, buffered) :: append_to_writer rest key items
  end.

(** Modelled from the spec: [DataItemStorage.write_data_item] is not among
    the sources; the item is appended to the writer keyed by the extract,
    the schema name and the normalized table name. *)
Definition write_data_item (st : item_storage) (load_id schema_name table_name : string)
    (item : TDirectDataItem) : item_storage :=
  mkItemStorage (files st)
    (append_to_writer (writers st) (load_id, schema_name, table_name) (items_of item)).

Definition build_extracted_file_stem (schema_name table_name file_id : string) : string :=
  schema_name ++ "." ++ table_name ++ "." ++ file_id.

Definition write_file (st : storage) (path file : string) (content : list TDataItem)
  : result storage :=
  match folders st !! path with
  | None => Err (FileNotFoundError path file)
  | Some dir => Ok (mkStorage (<[path := <[file := content]> dir]> (folders st)) (ops st))
  end.

Section WithWriters.

(** The file id a writer draws for its file. *)
Variable writer_id : string -> string -> string.

Fixpoint flush_writers (st : storage) (load_id : string)
    (ws : list (writer_key * list TDataItem))
  : result (storage * list (writer_key * list TDataItem)) :=
  match ws with
  | [] => Ok (st, [])
  | ((lid, schema_name, table_name), buffered) :: rest =>
      if String.eqb lid load_id then
        bind (write_file st (_get_extract_path load_id)
                (build_extracted_file_stem schema_name table_name
                   (writer_id schema_name table_name))
                buffered)
             (fun st' => flush_writers st' load_id rest)
      else
        bind (flush_writers st load_id rest)
             (fun '(st', ws') => Ok (st', ((lid, schema_name, table_name), buffered) :: ws'))
  end.

(** Modelled from the spec: [DataItemStorage.close_writers] is not among
    the sources; every writer of the extract rolls into a file
    [stem(schema, table, writer_id)] under the staging directory. *)
Definition close_writers (st : item_storage) (extract_id : string)
  : result item_storage :=
  bind (flush_writers (files st) extract_id (writers st))
       (fun '(fs, ws) => Ok (mkItemStorage fs ws)).

(** The staging folder after the writers of [load_id] are flushed into it. *)
Definition written_by (load_id : string) (ws : list (writer_key * list TDataItem))
    (dir : folder) : folder :=
  fold_left
    (fun (dir : folder) (w : writer_key * list TDataItem) =>
       let '((lid, schema_name, table_name), buffered) := w in
       if String.eqb lid load_id
       then <[build_extracted_file_stem schema_name table_name
                (writer_id schema_name table_name) := buffered]> dir
       else dir)
    ws dir.

(** *** [extract] *)

Variable TPartialTableSchema : Type.

(** [utils.merge_tables], which merges the second table into the first. *)
Variable merge_tables : TPartialTableSchema -> TPartialTableSchema -> TPartialTableSchema.

Record DltResource := mkResource {
  resource_name : string;
  _table_name_hint_fun : option (TDataItem -> string);
  _table_has_other_dynamic_hints : bool;
  table_schema : TDataItem -> TPartialTableSchema
}.

(** A source: its schema, and the items its pipes yield through
    [PipeIterator], each with the resource of its pipe. *)
Record DltSource := mkSource {
  source_schema_name : string;
  normalize_table_name : string -> string;
  pipe_items : list (DltResource * TDirectDataItem)
}.

Abbreviation TSchemaUpdate := (gmap string (list TPartialTableSchema)).

Definition _write_item (source : DltSource) (extract_id : string)
    (st : item_storage) (table_name : string) (item : TDirectDataItem) : item_storage :=
  write_data_item st extract_id (source_schema_name source)
    (normalize_table_name source table_name) item.

Definition _write_dynamic_table (source : DltSource) (extract_id : string)
    (hint_fun : TDataItem -> string) (resource : DltResource)
    (acc : TSchemaUpdate * item_storage) (item : TDataItem)
  : TSchemaUpdate * item_storage :=
  let '(dynamic_tables, st) := acc in
  let table_name := hint_fun item in
  let dynamic_tables :=
    match dynamic_tables !! table_name with
    | None => <[table_name := [table_schema resource item]]> dynamic_tables
    | Some existing_table =>
        (* quick check if deep table merge is required *)
        if _table_has_other_dynamic_hints resource then
          match existing_table with
          | t :: ts =>
              <[table_name := merge_tables t (table_schema resource item) :: ts]>
                dynamic_tables
          | [] => dynamic_tables
          end
        else dynamic_tables
    end in
  (dynamic_tables, _write_item source extract_id st table_name (Item item)).

Definition extract_item (source : DltSource) (extract_id : string)
    (acc : TSchemaUpdate * item_storage) (pipe_item : DltResource * TDirectDataItem)
  : TSchemaUpdate * item_storage :=
  let '(resource, item) := pipe_item in
  match _table_name_hint_fun resource with
  | Some hint_fun =>
      match item with
      | Items l =>
          fold_left (_write_dynamic_table source extract_id hint_fun resource) l acc
      | Item i => _write_dynamic_table source extract_id hint_fun resource acc i
      end
  | None =>
      (* write item belonging to table with static name *)
      (fst acc, _write_item source extract_id (snd acc) (resource_name resource) item)
  end.

Definition extract (source : DltSource) (st : item_storage) (uniq_id : string)
  : result (TSchemaUpdate * item_storage) :=
  bind (create_extract_id (files st) uniq_id) (fun '(extract_id, fs) =>
  let '(dynamic_tables, st) :=
    fold_left (extract_item source extract_id) (pipe_items source)
              (∅, mkItemStorage fs (writers st)) in
  (* flush all buffered writers *)
  bind (close_writers st extract_id) (fun st =>
  bind (commit_extract_files (files st) extract_id true) (fun fs =>
  Ok (dynamic_tables, mkItemStorage fs (writers st))))).

End WithWriters.

(** The rename that commits one staged file. *)
Definition rename_op (extract_path file : string) : storage_op :=
  OpAtomicRename extract_path file EXTRACTED_FOLDER file.

(** Scenario: three items of the static-name resource [orders]. *)
Definition orders_source : DltSource unit :=
  mkSource unit "shop" (fun name => name)
    [(mkResource unit "orders" None false (fun _ => tt), Item "o1");
     (mkResource unit "orders" None false (fun _ => tt), Items ["o2"; "o3"])].

Definition initial_storage : item_storage :=
  mkItemStorage
    (mkStorage (<[EXTRACT_FOLDER := ∅]> (<[EXTRACTED_FOLDER := ∅]> ∅)) []) [].

(** The hard link that copies one staged file. *)
Definition link_op (extract_path file : string) : storage_op :=
  OpLinkHard extract_path file EXTRACTED_FOLDER file.

(** *** The loop of [extract], item by item *)

Section Loop.

Variable TPartialTableSchema : Type.
Variable merge_tables : TPartialTableSchema -> TPartialTableSchema -> TPartialTableSchema.

(** The items of the resources with a table-name hint, one by one in the
    order the pipes yield them, each with its resource and the table name
    the hint gives it. *)
Definition dynamic_rows (source : DltSource TPartialTableSchema)
  : list (DltResource TPartialTableSchema * string * TDataItem) :=
  List.flat_map
    (fun pipe_item : DltResource TPartialTableSchema * TDirectDataItem =>
       match _table_name_hint_fun _ (fst pipe_item) with
       | Some hint_fun =>
           List.map (fun i => (fst pipe_item, hint_fun i, i)) (items_of (snd pipe_item))
       | None => []
       end)
    (pipe_items _ source).

Definition named (name : string)
    (row : DltResource TPartialTableSchema * string * TDataItem) : bool :=
  String.eqb (snd (fst row)) name.

(** What a later item of the same table name does to the partial table. *)
Definition merge_row (t : TPartialTableSchema)
    (row : DltResource TPartialTableSchema * string * TDataItem) : TPartialTableSchema :=
  if _table_has_other_dynamic_hints _ (fst (fst row))
  then merge_tables t (table_schema _ (fst (fst row)) (snd row))
  else t.

(** The entry of the schema update for the rows of one table name. *)
Definition table_of (rows : list (DltResource TPartialTableSchema * string * TDataItem))
  : option (list TPartialTableSchema) :=
  match rows with
  | [] => None
  | first :: later =>
      Some [fold_left merge_row later (table_schema _ (fst (fst first)) (snd first))]
  end.

(** What [_write_dynamic_table] does to [dynamic_tables]. *)
Definition table_step (tables : gmap string (list TPartialTableSchema))
    (row : DltResource TPartialTableSchema * string * TDataItem)
  : gmap string (list TPartialTableSchema) :=
  match tables !! snd (fst row) with
  | None => <[snd (fst row) := [table_schema _ (fst (fst row)) (snd row)]]> tables
  | Some existing_table =>
      if _table_has_other_dynamic_hints _ (fst (fst row)) then
        match existing_table with
        | t :: ts =>
            <[snd (fst row) :=
                merge_tables t (table_schema _ (fst (fst row)) (snd row)) :: ts]> tables
        | [] => tables
        end
      else tables
  end.

(** The writes of the loop, in order: the table name each is sent under and
    the items it carries. An item of a static resource goes out as it came,
    a list in one write; the items of a dynamic resource go out one by
    one. *)
Definition routed (source : DltSource TPartialTableSchema)
  : list (string * list TDataItem) :=
  List.flat_map
    (fun pipe_item : DltResource TPartialTableSchema * TDirectDataItem =>
       match _table_name_hint_fun _ (fst pipe_item) with
       | Some hint_fun => List.map (fun i => (hint_fun i, [i])) (items_of (snd pipe_item))
       | None => [(resource_name _ (fst pipe_item), items_of (snd pipe_item))]
       end)
    (pipe_items _ source).

(** The items buffered by the writer of a key. *)
Definition buffer_of (key : writer_key) (ws : list (writer_key * list TDataItem))
  : list TDataItem :=
  match List.find (fun w => writer_key_eqb (fst w) key) ws with
  | Some w => snd w
  | None => []
  end.

(** The items written under table names that normalize to [table]. *)
Definition sent_to (source : DltSource TPartialTableSchema) (table : string)
    (writes : list (string * list TDataItem)) : list TDataItem :=
  List.concat
    (List.map snd
       (List.filter
          (fun w => String.eqb (normalize_table_name _ source (fst w)) table) writes)).

End Loop.

Arguments dynamic_rows {TPartialTableSchema} source.
Arguments named {TPartialTableSchema} name row.
Arguments merge_row {TPartialTableSchema} merge_tables t row.
Arguments table_of {TPartialTableSchema} merge_tables rows.
Arguments table_step {TPartialTableSchema} merge_tables tables row.
Arguments routed {TPartialTableSchema} source.
Arguments sent_to {TPartialTableSchema} source table writes.

(** Two dynamic resources: [events] names its table by the item, [audit]
    sends everything to [login]. *)
Definition events_source : DltSource string :=
  mkSource string "shop" (fun name => name)
    [(mkResource string "events" (Some (fun i => i)) false (fun i => "t:" ++ i),
      Items ["login"; "logout"; "login"]);
     (mkResource string "audit" (Some (fun _ => "login")) true (fun i => "a:" ++ i),
      Item "x")].

End Extract.

(** ** GCP credentials:
       [dlt/common/configuration/specs/gcp_client_credentials.py] *)

Module Gcp.

(** A [google.oauth2.service_account.Credentials] object, as far as the
    parser reads it. *)
Record ServiceAccountCredentials := mkServiceAccountCredentials {
  native_project_id : string;
  service_account_email : string
}.

(** A [google.oauth2.credentials.Credentials] object, as far as the parser
    reads it; the attributes other than [client_id] and [client_secret] may
    be [None]. *)
Record GoogleOAuth2Credentials := mkGoogleOAuth2Credentials {
  quota_project_id : option string;
  native_client_id : string;
  native_client_secret : string;
  native_refresh_token : option string;
  native_scopes : option (list string);
  native_token : option string
}.

(** The objects a credentials field or a native value can hold. Numbers
    stand for the timeouts, which are whole seconds. *)
Inductive pyobj :=
| PNone
| PStr (s : string)
| PNum (z : Z)
| PList (items : list pyobj)
| PDict (items : list (string * pyobj))
| PNative (c : ServiceAccountCredentials)
| POAuthNative (c : GoogleOAuth2Credentials).

Inductive exn :=
| InvalidGoogleNativeCredentialsType
| InvalidGoogleServicesJson
| InvalidGoogleOauth2Json
| TypeError (msg : string).

Inductive result (A : Type) :=
| Ok (a : A)
| Raise (e : exn).
Arguments Ok {A} a.
Arguments Raise {A} e.

Definition bind {A B} (r : result A) (f : A -> result B) : result B :=
  match r with
  | Ok a => f a
  | Raise e => Raise e
  end.

Inductive gcp_class :=
| GcpCredentialsBase
| GcpClientCredentials
| GcpOAuthCredentials.

(** The resolvable fields with their class-level defaults, in declaration
    order along the inheritance chain. *)
Definition base_fields : list (string * pyobj) :=
  [("token_uri", PStr "https://oauth2.googleapis.com/token");
   ("auth_uri", PStr "https://accounts.google.com/o/oauth2/auth");
   ("project_id", PNone);
   ("location", PStr "US");
   ("http_timeout", PNum 15);
   ("file_upload_timeout", PNum (30 * 60));
   ("retry_deadline", PNum 60)].

(** Modelled from the spec: [OAuth2Credentials] is not among the sources;
    its fields are the attributes that [GcpOAuthCredentials] reads and
    assigns, none with a default. *)
Definition oauth2_fields : list (string * pyobj) :=
  [("client_id", PNone); ("client_secret", PNone); ("refresh_token", PNone);
   ("scopes", PNone); ("token", PNone)].

Definition class_fields (cls : gcp_class) : list (string * pyobj) :=
  match cls with
  | GcpCredentialsBase => base_fields
  | GcpClientCredentials =>
      (base_fields ++
       [("private_key", PNone); ("client_email", PNone);
        ("type", PStr "service_account")])%list
  | GcpOAuthCredentials =>
      (oauth2_fields ++ base_fields ++ [("client_type", PStr "installed")])%list
  end.

(** An instance: its class, the values of its fields, and the resolved
    flag. *)
Record credentials := mkCredentials {
  credentials_class : gcp_class;
  fields : list (string * pyobj);
  __is_resolved__ : bool
}.

Definition new (cls : gcp_class) : credentials :=
  mkCredentials cls (class_fields cls) false.

(** *** The mapping interface of [BaseConfiguration] *)


Fixpoint set_field (fs : list (string * pyobj)) (key : string) (v : pyobj)
  : list (string * pyobj) :=
  match fs with
  | [] => []
  | (k, old) :: rest =>
      if String.eqb k key then (k, v) :: rest else (k, old) :: set_field rest key v
  end.

(** Modelled from the spec: [BaseConfiguration.update] is not among the
    sources; it assigns the fields that [info] names and skips the keys that
    are no fields. *)
Definition update (self : credentials) (info : list (string * pyobj)) : credentials :=
  mkCredentials (credentials_class self)
    (fold_left (fun fs kv => set_field fs (fst kv) (snd kv)) info (fields self))
    (__is_resolved__ self).

Definition is_none (o : pyobj) : bool :=
  match o with PNone => true | _ => false end.

(** Modelled from the spec: the hints of [OAuth2Credentials] are not among
    the sources. Every field of [GcpCredentialsBase] and of
    [GcpClientCredentials] is required; of the OAuth fields, [scopes] and
    [token] are the ones [GcpOAuthCredentials.auth] fills in after the
    resolution, and are taken to be optional. *)
Definition is_required (cls : gcp_class) (key : string) : bool :=
  match cls with
  | GcpOAuthCredentials => negb (String.eqb key "scopes" || String.eqb key "token")
  | _ => true
  end.

(** Modelled from the spec: [BaseConfiguration.is_partial] is not among the
    sources; a configuration is partial if any required field is unset. *)
Definition is_partial (self : credentials) : bool :=
  existsb (fun kv => is_required (credentials_class self) (fst kv) && is_none (snd kv))
          (fields self).

Section WithJson.

(** [dlt.common.json]: [dumps] fails on an object that is not JSON
    serializable, [loads] on a string that is not JSON. *)
Variable json_dumps : pyobj -> option string.
Variable json_loads : string -> option pyobj.

(** [GcpCredentialsBase.parse_native_representation] *)
Definition base_parse_native_representation (self : credentials)
    (native_value : pyobj) : result credentials :=
  match native_value with
  | PStr _ => Ok self
  | _ => Raise InvalidGoogleNativeCredentialsType
  end.






(** [GcpCredentialsBase._from_info_dict] *)
Definition _from_info_dict (self : credentials) (info : pyobj) : result credentials :=
  match info with
  | PDict items =>
      let self := update self items in
      Ok (mkCredentials (credentials_class self) (fields self) (negb (is_partial self)))
  | _ => Raise (TypeError "not a mapping")
  end.

(** [GcpClientCredentials.parse_native_representation] *)
Definition client_parse_native_representation (self : credentials)
    (native_value : pyobj) : result credentials :=
  bind
    (match native_value with
     | PNative native =>
         (* extract credentials; keep native credentials in private key *)
         Ok (PDict [("project_id", PStr (native_project_id native));
                    ("client_email", PStr (service_account_email native));
                    ("private_key", PNative native)])
     | _ =>
         (* check if type is str *)
         bind (base_parse_native_representation self native_value) (fun _ =>
         match native_value with
         | PStr s =>
             match json_loads s with
             | Some service_dict => Ok service_dict
             | None => Raise InvalidGoogleServicesJson
             end
         | _ => Raise InvalidGoogleServicesJson
         end)
     end)
    (_from_info_dict self).

(** [len(o)]; [None], numbers and the native objects have no length. *)
Definition len (o : pyobj) : option nat :=
  match o with
  | PStr s => Some (String.length s)
  | PList items => Some (List.length items)
  | PDict items => Some (List.length items)
  | _ => None
  end.

Definition of_optional (o : option string) : pyobj :=
  match o with
  | Some s => PStr s
  | None => PNone
  end.

(** [GcpOAuthCredentials.parse_native_representation]; whatever the [try]
    block raises (a string that is no JSON, a value without [len()] or
    without [values()]) becomes [InvalidGoogleOauth2Json]. *)
Definition oauth_parse_native_representation (self : credentials)
    (native_value : pyobj) : result credentials :=
  bind
    (match native_value with
     | POAuthNative native =>
         (* extract credentials, project id may not be present *)
         Ok (PDict [("project_id", PStr (default EmptyString (quota_project_id native)));
                    ("client_id", PStr (native_client_id native));
                    ("client_secret", PStr (native_client_secret native));
                    ("refresh_token", of_optional (native_refresh_token native));
                    ("scopes", match native_scopes native with
                               | Some scopes => PList (List.map PStr scopes)
                               | None => PNone
                               end);
                    ("token", of_optional (native_token native))])
     | _ =>
         (* check if type is str *)
         bind (base_parse_native_representation self native_value) (fun _ =>
         match native_value with
         | PStr s =>
             match json_loads s with
             | Some oauth_dict =>
                 match len oauth_dict with
                 | Some 1 =>
                     (* if there's single element in the dict, this is probably
                        installed or web etc. (app type) *)
                     match oauth_dict with
                     | PDict [(_, inner)] => Ok inner
                     | _ => Raise InvalidGoogleOauth2Json
                     end
                 | Some _ => Ok oauth_dict
                 | None => Raise InvalidGoogleOauth2Json
                 end
             | None => Raise InvalidGoogleOauth2Json
             end
         | _ => Raise InvalidGoogleOauth2Json
         end)
     end)
    (_from_info_dict self).

Definition parse_native_representation (self : credentials) (native_value : pyobj)
  : result credentials :=
  match credentials_class self with
  | GcpCredentialsBase => base_parse_native_representation self native_value
  | GcpClientCredentials => client_parse_native_representation self native_value
  | GcpOAuthCredentials => oauth_parse_native_representation self native_value
  end.

End WithJson.

(** An instance is well formed when it has the fields of its class, and
    fully resolved when it is marked resolved and no required field is
    unset. *)
Definition well_formed (self : credentials) : Prop :=
  List.map fst (fields self) = List.map fst (class_fields (credentials_class self)).


(** *** A reference JSON codec for flat objects

    Strings (with the quote, the backslash and the newline escaped),
    integers, [null] and lists of these, in one object. *)

Definition quote : ascii := "034"%char.
Definition backslash : ascii := "\"%char.
Definition newline : ascii := "010"%char.

Fixpoint escape (s : string) : string :=
  match s with
  | EmptyString => EmptyString
  | String c s' =>
      if Ascii.eqb c quote then String backslash (String quote (escape s'))
      else if Ascii.eqb c backslash then String backslash (String backslash (escape s'))
      else if Ascii.eqb c newline then String backslash (String "n"%char (escape s'))
      else String c (escape s')
  end.

Definition dump_string (s : string) : string :=
  String quote (escape s ++ String quote EmptyString).

Definition dump_scalar (o : pyobj) : option string :=
  match o with
  | PNone => Some "null"
  | PStr s => Some (dump_string s)
  | PNum z => Some (NilZero.string_of_int (Z.to_int z))
  | PList _ | PDict _ | PNative _ | POAuthNative _ => None
  end.

Fixpoint dump_elements (items : list pyobj) : option string :=
  match items with
  | [] => Some EmptyString
  | v :: rest =>
      match dump_scalar v, dump_elements rest with
      | Some sv, Some srest =>
          Some (sv ++ match rest with [] => EmptyString | _ :: _ => ", " ++ srest end)
      | _, _ => None
      end
  end.

Definition dump_value (o : pyobj) : option string :=
  match o with
  | PList items =>
      match dump_elements items with
      | Some s => Some ("[" ++ s ++ "]")
      | None => None
      end
  | _ => dump_scalar o
  end.

Fixpoint dump_members (items : list (string * pyobj)) : option string :=
  match items with
  | [] => Some EmptyString
  | (k, v) :: rest =>
      match dump_value v, dump_members rest with
      | Some sv, Some srest =>
          Some (dump_string k ++ ": " ++ sv ++
                match rest with [] => EmptyString | _ :: _ => ", " ++ srest end)
      | _, _ => None
      end
  end.

Definition reference_dumps (o : pyobj) : option string :=
  match o with
  | PDict items =>
      match dump_members items with
      | Some s => Some ("{" ++ s ++ "}")
      | None => None
      end
  | _ => dump_value o
  end.

Definition reference_dumps_text (items : list (string * pyobj)) : string :=
  default EmptyString (reference_dumps (PDict items)).

(** Reads a string literal after its opening quote. *)
Fixpoint read_string (s : string) : option (string * string) :=
  match s with
  | EmptyString => None
  | String c s' =>
      if Ascii.eqb c quote then Some (EmptyString, s')
      else if Ascii.eqb c backslash then
        match s' with
        | String e s'' =>
            let c' := if Ascii.eqb e "n"%char then newline else e in
            match read_string s'' with
            | Some (body, rest) => Some (String c' body, rest)
            | None => None
            end
        | EmptyString => None
        end
      else
        match read_string s' with
        | Some (body, rest) => Some (String c body, rest)
        | None => None
        end
  end.

Definition is_number_char (c : ascii) : bool :=
  Ascii.eqb c "-"%char || (Nat.leb 48 (nat_of_ascii c) && Nat.leb (nat_of_ascii c) 57).

Fixpoint read_number_chars (s : string) : string * string :=
  match s with
  | String c s' =>
      if is_number_char c
      then let '(digits, rest) := read_number_chars s' in (String c digits, rest)
      else (EmptyString, s)
  | EmptyString => (EmptyString, EmptyString)
  end.

Fixpoint skip_spaces (s : string) : string :=
  match s with
  | String c s' => if Ascii.eqb c " "%char then skip_spaces s' else s
  | EmptyString => EmptyString
  end.

Definition read_scalar (s : string) : option (pyobj * string) :=
  match s with
  | String c s' =>
      if Ascii.eqb c quote then
        match read_string s' with
        | Some (body, rest) => Some (PStr body, rest)
        | None => None
        end
      else if String.prefix "null" s
      then Some (PNone, String.substring 4 (String.length s - 4) s)
      else
        let '(digits, rest) := read_number_chars s in
        match NilZero.int_of_string digits with
        | Some i => Some (PNum (Z.of_int i), rest)
        | None => None
        end
  | EmptyString => None
  end.

(** The elements of a list, after its opening bracket, and what follows
    the list. *)
Fixpoint read_elements (fuel : nat) (s : string) (acc : list pyobj)
  : option (list pyobj * string) :=
  match fuel with
  | O => None
  | S fuel' =>
      match read_scalar (skip_spaces s) with
      | None => None
      | Some (v, s1) =>
          match skip_spaces s1 with
          | String "," s2 => read_elements fuel' s2 (acc ++ [v])%list
          | String "]" s2 => Some ((acc ++ [v])%list, s2)
          | _ => None
          end
      end
  end.

Definition read_value (s : string) : option (pyobj * string) :=
  match s with
  | String "[" s1 =>
      match skip_spaces s1 with
      | String "]" s2 => Some (PList [], s2)
      | _ =>
          match read_elements (String.length s) s1 [] with
          | Some (items, rest) => Some (PList items, rest)
          | None => None
          end
      end
  | _ => read_scalar s
  end.

(** The members of an object, after its opening brace. *)
Fixpoint read_members (fuel : nat) (s : string) (acc : list (string * pyobj))
  : option (list (string * pyobj)) :=
  match fuel with
  | O => None
  | S fuel' =>
      match skip_spaces s with
      | String c s1 =>
          if negb (Ascii.eqb c quote) then None
          else
            match read_string s1 with
            | None => None
            | Some (key, s2) =>
                match skip_spaces s2 with
                | String ":" s3 =>
                    match read_value (skip_spaces s3) with
                    | None => None
                    | Some (v, s4) =>
                        match skip_spaces s4 with
                        | String "," s5 => read_members fuel' s5 (acc ++ [(key, v)])%list
                        | String "}" s5 =>
                            match skip_spaces s5 with
                            | EmptyString => Some (acc ++ [(key, v)])%list
                            | String _ _ => None
                            end
                        | _ => None
                        end
                    end
                | _ => None
                end
            end
      | EmptyString => None
      end
  end.

Definition reference_loads (s : string) : option pyobj :=
  match skip_spaces s with
  | String "{" s1 =>
      match skip_spaces s1 with
      | String "}" s2 =>
          match skip_spaces s2 with
          | EmptyString => Some (PDict [])
          | String _ _ => None
          end
      | _ => PDict <$> read_members (String.length s) s1 []
      end
  | s' =>
      match read_value s' with
      | Some (v, rest) =>
          match skip_spaces rest with
          | EmptyString => Some v
          | String _ _ => None
          end
      | None => None
      end
  end.





Definition native_service_account : ServiceAccountCredentials :=
  mkServiceAccountCredentials "chat-analytics"
    "loader@chat-analytics.iam.gserviceaccount.com".

Definition value_of {A} (r : result A) (d : A) : A :=
  match r with
  | Ok a => a
  | Raise _ => d
  end.


Definition credentials_from_native : credentials :=
  value_of (client_parse_native_representation reference_loads
              (new GcpClientCredentials) (PNative native_service_account))
           (new GcpClientCredentials).



(** *** [GcpClientCredentials.on_resolved] *)

(** [self.<key>] of a field *)
Definition getattr (self : credentials) (key : string) : pyobj :=
  match List.find (fun kv => String.eqb (fst kv) key) (fields self) with
  | Some kv => snd kv
  | None => PNone
  end.

(** [self.<key> = v] of a field *)
Definition setattr (self : credentials) (key : string) (v : pyobj) : credentials :=
  mkCredentials (credentials_class self) (set_field (fields self) key v)
                (__is_resolved__ self).

(** The truth value of an object; a native credentials object defines
    neither [__bool__] nor [__len__]. *)
Definition truthy (o : pyobj) : bool :=
  match o with
  | PNone => false
  | PStr s => negb (String.eqb s EmptyString)
  | PNum z => negb (Z.eqb z 0)
  | PList items => match items with [] => false | _ :: _ => true end
  | PDict items => match items with [] => false | _ :: _ => true end
  | PNative _ | POAuthNative _ => true
  end.

Definition is_newline_string (o : pyobj) : bool :=
  match o with
  | PStr s => String.eqb s (String newline EmptyString)
  | _ => false
  end.

(** [s[-1]] of a string that is not empty *)
Fixpoint last_char (s : string) : option ascii :=
  match s with
  | EmptyString => None
  | String c rest =>
      match rest with
      | EmptyString => Some c
      | String _ _ => last_char rest
      end
  end.

Inductive subscript_error :=
| NotSubscriptable   (* TypeError: the object is not subscriptable *)
| KeyError           (* a mapping without the key [-1] *)
| CannotConcatenate. (* TypeError: a list and a string do not add up *)

Definition on_resolved (self : credentials) : credentials + subscript_error :=
  let private_key := getattr self "private_key" in
  if truthy private_key then
    match private_key with
    | PStr s =>
        if match last_char s with
           | Some c => negb (Ascii.eqb c newline)   (* [s[-1] != newline] *)
           | None => true
           end
        then
          (* must end with new line, otherwise won't be parsed by Crypto *)
          inl (setattr self "private_key" (PStr (s ++ String newline EmptyString)))
        else inl self
    | PList items =>
        (* the last element is compared with the newline *)
        if negb (is_newline_string (List.last items PNone))
        then inr CannotConcatenate
        else inl self
    | PDict _ => inr KeyError
    | _ => inr NotSubscriptable
    end
  else inl self.

End Gcp.

(** ** Synapse SQL client: [dlt/destinations/synapse/sql_client.py] *)

Module Synapse.

(** The [pyodbc] exception classes, and any other [Exception]. *)
Inductive exception_class :=
| PyodbcError              (* pyodbc.Error *)
| InterfaceError           (* pyodbc.InterfaceError(Error) *)
| DatabaseError            (* pyodbc.DatabaseError(Error) *)
| DataError                (* the subclasses of DatabaseError *)
| OperationalError
| IntegrityError
| InternalError
| ProgrammingError
| NotSupportedError
| OtherException.          (* not a pyodbc exception *)

Inductive pyobj :=
| PStr (s : string)
| PInt (z : Z)
| PNone.

Record exception := mkException {
  ex_class : exception_class;
  args : list pyobj
}.

Definition isinstance_ProgrammingError (ex : exception) : bool :=
  match ex_class ex with ProgrammingError => true | _ => false end.

Definition isinstance_OperationalError (ex : exception) : bool :=
  match ex_class ex with OperationalError => true | _ => false end.

Definition isinstance_Error (ex : exception) : bool :=
  match ex_class ex with OtherException => false | _ => true end.

Inductive python_error :=
| IndexError     (* tuple index out of range *)
| TypeError.     (* argument of type ... is not iterable *)

Inductive result (A : Type) :=
| Return (a : A)
| Raise (e : python_error).
Arguments Return {A} a.
Arguments Raise {A} e.

Definition bind {A B} (r : result A) (f : A -> result B) : result B :=
  match r with
  | Return a => f a
  | Raise e => Raise e
  end.

(** [ex.args[i]] *)
Definition arg (ex : exception) (i : nat) : result pyobj :=
  match nth_error (args ex) i with
  | Some o => Return o
  | None => Raise IndexError
  end.

(** [o == s] for a string literal [s] *)
Definition eq_str (o : pyobj) (s : string) : bool :=
  match o with
  | PStr t => String.eqb t s
  | _ => false
  end.

Fixpoint is_prefix (p s : string) : bool :=
  match p, s with
  | EmptyString, _ => true
  | String a p', String b s' => Ascii.eqb a b && is_prefix p' s'
  | String _ _, EmptyString => false
  end.

Fixpoint is_substring (sub s : string) : bool :=
  is_prefix sub s ||
  match s with
  | EmptyString => false
  | String _ s' => is_substring sub s'
  end.

(** [sub in o] for a string literal [sub] *)
Definition contains (sub : string) (o : pyobj) : result bool :=
  match o with
  | PStr s => Return (is_substring sub s)
  | _ => Raise TypeError
  end.

Inductive database_exception :=
| DatabaseUndefinedRelation (ex : exception)
| DatabaseTransientException (ex : exception)
| DatabaseTerminalException (ex : exception).

Definition _make_database_exception (ex : exception) : result database_exception :=
  if isinstance_ProgrammingError ex then
    bind (arg ex 0) (fun a0 =>
    if eq_str a0 "42S02" then Return (DatabaseUndefinedRelation ex)
    else
      bind (arg ex 1) (fun a1 =>
      if eq_str a1 "HY000" then Return (DatabaseTransientException ex)
      else if eq_str a0 "42000" then
        bind (contains "(15151)" a1) (fun found =>
        if found then Return (DatabaseUndefinedRelation ex)
        else Return (DatabaseTransientException ex))
      else Return (DatabaseTerminalException ex)))
  else if isinstance_OperationalError ex then
    Return (DatabaseTransientException ex)
  else if isinstance_Error ex then
    bind (arg ex 0) (fun a0 =>
    if eq_str a0 "07002"  (* incorrect number of arguments supplied *)
    then Return (DatabaseTransientException ex)
    else Return (DatabaseTerminalException ex))
  else Return (DatabaseTerminalException ex).

Definition classifies (ex : exception) (r : result database_exception) : Prop :=
  r = Return (DatabaseUndefinedRelation ex) \/
  r = Return (DatabaseTransientException ex) \/
  r = Return (DatabaseTerminalException ex).

(** [is_dbapi_exception] *)
Definition is_dbapi_exception (ex : exception) : bool := isinstance_Error ex.

(** *** [is_valid_json] and [set_input_sizes] *)

(** [s.startswith(c)] and [s.endswith(c)] for a one-character literal *)
Definition startswith_char (c : ascii) (s : string) : bool :=
  match s with
  | String a _ => Ascii.eqb a c
  | EmptyString => false
  end.

Fixpoint endswith_char (c : ascii) (s : string) : bool :=
  match s with
  | EmptyString => false
  | String a rest =>
      match rest with
      | EmptyString => Ascii.eqb a c
      | String _ _ => endswith_char c rest
      end
  end.

(** The query parameters: strings, tuples, and values that are neither. *)
Inductive sqlarg :=
| AStr (s : string)
| AInt (z : Z)
| ANone
| ATuple (items : list sqlarg).

Definition isinstance_str (a : sqlarg) : bool :=
  match a with AStr _ => true | _ => false end.

Inductive sql_type := SQL_WVARCHAR.   (* pyodbc.SQL_WVARCHAR *)

Definition input_size : Type := option (sql_type * Z * Z).

(** What [json.loads] raises beyond [json.JSONDecodeError]:
    [RecursionError] on input nested too deep, [ValueError] on an integer
    literal over the digit limit. *)
Inductive json_error := RecursionError | json_ValueError.

Inductive loads_outcome :=
| Loaded                        (* [json.loads(s)] returns *)
| JSONDecodeError               (* it raises [json.JSONDecodeError] *)
| LoadsRaises (e : json_error). (* it raises another exception *)

Section WithJsonLoads.

(** [json.loads], as far as [is_valid_json] looks at it. *)
Variable json_loads : string -> loads_outcome.

(** [is_valid_json]: only [json.JSONDecodeError] is caught. *)
Definition is_valid_json (s : string) : bool + json_error :=
  if negb (startswith_char "{" s && endswith_char "}" s) &&
     negb (startswith_char "[" s && endswith_char "]" s)
  then inl false
  else
    match json_loads s with
    | Loaded => inl true
    | JSONDecodeError => inl false
    | LoadsRaises e => inr e
    end.

(** The [for index, arg in enumerate(args)] loop of [set_input_sizes]. *)
Fixpoint input_sizes_loop (args : list sqlarg) (input_sizes : list input_size)
  : list input_size + json_error :=
  match args with
  | [] => inl input_sizes
  | arg :: rest =>
      match arg with
      | AStr s =>
          match is_valid_json s with
          | inl true =>
              (* input size for JSON columns *)
              input_sizes_loop rest (input_sizes ++ [Some (SQL_WVARCHAR, 0%Z, 0%Z)])%list
          | inl false =>
              (* input size for ntext columns *)
              input_sizes_loop rest (input_sizes ++ [Some (SQL_WVARCHAR, 0%Z, 0%Z)])%list
          | inr e => inr e
          end
      | _ =>
          (* default handling for non-string types *)
          input_sizes_loop rest (input_sizes ++ [None])%list
      end
  end.

Definition set_input_sizes (args : list sqlarg)
  : (list input_size * list sqlarg) + json_error :=
  let args :=
    match args with
    | [ATuple items] => items    (* len(args) == 1 and isinstance(args[0], tuple) *)
    | _ => args
    end in
  match input_sizes_loop args [] with
  | inl input_sizes => inl (input_sizes, args)
  | inr e => inr e
  end.

End WithJsonLoads.

(** The size [set_input_sizes] gives one parameter. *)
Definition size_of (a : sqlarg) : input_size :=
  if isinstance_str a then Some (SQL_WVARCHAR, 0%Z, 0%Z) else None.

(** The parameters of a call: a single tuple stands for its items. *)
Definition parameters (args : list sqlarg) : list sqlarg :=
  match args with
  | [ATuple items] => items
  | _ => args
  end.

(** *** [handle_datetimeoffset] *)

Local Open Scope Z_scope.

Inductive dto_error :=
| struct_error    (* struct.error: unpack requires a buffer of 20 bytes *)
| dto_ValueError. (* ValueError of [datetime] and [timezone] *)

Definition u8 (b : Byte.byte) : Z := Z.of_N (Byte.to_N b).

(** little-endian fields of [struct]: [h] is a signed 16-bit integer, [I] an
    unsigned 32-bit one *)
Definition unpack_h (b0 b1 : Byte.byte) : Z :=
  let u := u8 b0 + 256 * u8 b1 in
  if u <? 32768 then u else u - 65536.

Definition unpack_I (b0 b1 b2 b3 : Byte.byte) : Z :=
  u8 b0 + 256 * u8 b1 + 65536 * u8 b2 + 16777216 * u8 b3.

(** [struct.unpack("<6hI2h", dto_value)] *)
Definition struct_unpack_6hI2h (dto_value : list Byte.byte)
  : option (Z * Z * Z * Z * Z * Z * Z * Z * Z) :=
  match dto_value with
  | [y0; y1; mo0; mo1; d0; d1; h0; h1; mi0; mi1; s0; s1;
     f0; f1; f2; f3; th0; th1; tm0; tm1] =>
      Some (unpack_h y0 y1, unpack_h mo0 mo1, unpack_h d0 d1,
            unpack_h h0 h1, unpack_h mi0 mi1, unpack_h s0 s1,
            unpack_I f0 f1 f2 f3, unpack_h th0 th1, unpack_h tm0 tm1)
  | _ => None
  end.

(** [timedelta(hours=, minutes=)], in seconds *)
Definition timedelta (hours minutes : Z) : Z := 3600 * hours + 60 * minutes.

(** [timezone(offset)] accepts the offsets strictly between -24h and 24h *)
Definition timezone (offset : Z) : option Z :=
  if (-86400 <? offset) && (offset <? 86400) then Some offset else None.

Record datetime := mkDatetime {
  year : Z; month : Z; day : Z;
  hour : Z; minute : Z; second : Z; microsecond : Z;
  utcoffset : Z      (* of the fixed-offset tzinfo, in seconds *)
}.

Definition is_leap (y : Z) : bool :=
  (y mod 4 =? 0) && (negb (y mod 100 =? 0) || (y mod 400 =? 0)).

Definition days_in_month (y m : Z) : Z :=
  if m =? 2 then (if is_leap y then 29 else 28)
  else if (m =? 4) || (m =? 6) || (m =? 9) || (m =? 11) then 30
  else 31.

(** the range checks of the [datetime] constructor *)
Definition new_datetime (y mo d h mi s us tz : Z) : option datetime :=
  if (1 <=? y) && (y <=? 9999) &&
     (1 <=? mo) && (mo <=? 12) &&
     (1 <=? d) && (d <=? days_in_month y mo) &&
     (0 <=? h) && (h <=? 23) &&
     (0 <=? mi) && (mi <=? 59) &&
     (0 <=? s) && (s <=? 59) &&
     (0 <=? us) && (us <=? 999999)
  then Some (mkDatetime y mo d h mi s us tz)
  else None.

Definition handle_datetimeoffset (dto_value : list Byte.byte)
  : datetime + dto_error :=
  match struct_unpack_6hI2h dto_value with
  | None => inr struct_error
  | Some (t0, t1, t2, t3, t4, t5, t6, t7, t8) =>
      match timezone (timedelta t7 t8) with
      | None => inr dto_ValueError
      | Some tz =>
          match new_datetime t0 t1 t2 t3 t4 t5 (t6 / 1000) tz with
          | Some dt => inl dt
          | None => inr dto_ValueError
          end
      end
  end.

(** The layout SQL Server sends for a [datetimeoffset], the inverse of
    [struct_unpack_6hI2h]: [struct.pack("<6hI2h", ...)]. *)
Definition byte_of_Z (z : Z) : Byte.byte :=
  match Byte.of_N (Z.to_N (z mod 256)) with
  | Some b => b
  | None => Byte.x00
  end.

Definition pack_h (z : Z) : list Byte.byte :=
  [byte_of_Z z; byte_of_Z (z / 256)].

Definition pack_I (z : Z) : list Byte.byte :=
  [byte_of_Z z; byte_of_Z (z / 256); byte_of_Z (z / 65536); byte_of_Z (z / 16777216)].

Definition struct_pack_6hI2h (t : Z * Z * Z * Z * Z * Z * Z * Z * Z) : list Byte.byte :=
  let '(t0, t1, t2, t3, t4, t5, t6, t7, t8) := t in
  (pack_h t0 ++ pack_h t1 ++ pack_h t2 ++ pack_h t3 ++ pack_h t4 ++ pack_h t5 ++
   pack_I t6 ++ pack_h t7 ++ pack_h t8)%list.

End Synapse.

(** ** Properties of the extraction commit *)

Module ExtractTheory.
Import Extract.

Lemma extract_path_not_extracted extract_id :
  _get_extract_path extract_id <> EXTRACTED_FOLDER.
Proof. unfold _get_extract_path, path_join, EXTRACT_FOLDER, EXTRACTED_FOLDER. discriminate. Qed.

(** The renaming loop: every listed file leaves the staging folder and
    arrives in the normalize-input folder, one rename each. *)
Lemma commit_files_rename (fl : list string) : forall st ep (w e : folder),
  ep <> EXTRACTED_FOLDER ->
  NoDup fl ->
  folders st !! ep = Some w ->
  folders st !! EXTRACTED_FOLDER = Some e ->
  (forall f, f ∈ fl -> is_Some (w !! f)) ->
  exists st' (w' e' : folder),
    commit_files st ep true fl = Ok st' /\
    ops st' = (ops st ++ List.map (rename_op ep) fl)%list /\
    folders st' !! ep = Some w' /\
    folders st' !! EXTRACTED_FOLDER = Some e' /\
    (forall f, w' !! f = if decide (f ∈ fl) then None else w !! f) /\
    (forall f, e' !! f = if decide (f ∈ fl) then w !! f else e !! f) /\
    (forall d, d <> ep -> d <> EXTRACTED_FOLDER -> folders st' !! d = folders st !! d).
Proof.
  induction fl as [|file rest IH]; intros st ep w e Hne Hnd Hw He Hall.
  - exists st, w, e. simpl. rewrite app_nil_r.
    repeat split; try done; intros f; rewrite decide_False; try done;
      apply not_elem_of_nil.
  - apply NoDup_cons in Hnd as [Hnotin Hnd].
    destruct (Hall file) as [content Hc]; [apply elem_of_cons; by left|].
    cbn [commit_files]. unfold atomic_rename. rewrite Hw, Hc.
    rewrite lookup_insert_ne by done. rewrite He. cbn [bind].
    set (st1 := mkStorage _ _).
    destruct (IH st1 ep (delete file w) (<[file := content]> e)) as
      (st' & w' & e' & Hrun & Hops & Hw' & He' & Hwl & Hel & Hother); try done.
    { subst st1. simpl. rewrite lookup_insert_ne by done. by rewrite lookup_insert_eq. }
    { subst st1. simpl. by rewrite lookup_insert_eq. }
    { intros f Hf. rewrite lookup_delete_ne by (intros <-; done).
      apply Hall. apply elem_of_cons. by right. }
    exists st', w', e'. split; [done|]. split.
    { rewrite Hops. subst st1. simpl. by rewrite <- app_assoc. }
    split; [done|]. split; [done|]. split; [|split].
    + intros f. rewrite Hwl.
      destruct (decide (f ∈ rest)) as [Hin|Hnin].
      * rewrite decide_True; [done|]. by apply elem_of_cons; right.
      * destruct (decide (f = file)) as [->|Hneq].
        -- rewrite decide_True by (apply elem_of_cons; by left).
           by rewrite lookup_delete_eq.
        -- rewrite decide_False.
           ++ by rewrite lookup_delete_ne.
           ++ intros [?|?]%elem_of_cons; done.
    + intros f. rewrite Hel.
      destruct (decide (f ∈ rest)) as [Hin|Hnin].
      * rewrite decide_True by (apply elem_of_cons; by right).
        rewrite lookup_delete_ne; [done|]. intros <-. done.
      * destruct (decide (f = file)) as [->|Hneq].
        -- rewrite decide_True by (apply elem_of_cons; by left).
           by rewrite lookup_insert_eq.
        -- rewrite decide_False.
           ++ by rewrite lookup_insert_ne.
           ++ intros [?|?]%elem_of_cons; done.
    + intros d Hd1 Hd2. rewrite Hother by done. subst st1. simpl.
      by rewrite !lookup_insert_ne.
Qed.

(** The commit of an extract with deletion enabled. *)
Lemma commit_extract_files_moves st extract_id (written normalize_input : folder) :
  folders st !! _get_extract_path extract_id = Some written ->
  folders st !! EXTRACTED_FOLDER = Some normalize_input ->
  exists st' (moved : list string) (arrived : folder),
    commit_extract_files st extract_id true = Ok st' /\
    (* one atomic rename per file, then the staging folder is removed *)
    ops st' = (ops st ++ List.map (rename_op (_get_extract_path extract_id)) moved
                     ++ [OpDeleteFolder (_get_extract_path extract_id)])%list /\
    NoDup moved /\
    (* the file names moved are the file names written *)
    list_to_set moved = dom written /\
    (* each written file is in the normalize-input folder *)
    folders st' !! EXTRACTED_FOLDER = Some arrived /\
    (forall f, arrived !! f = match written !! f with
                              | Some content => Some content
                              | None => normalize_input !! f
                              end) /\
    (* the staging directory no longer exists *)
    folders st' !! _get_extract_path extract_id = None.
Proof.
  intros Hw He. unfold commit_extract_files, list_folder_files. rewrite Hw. cbn [bind].
  set (ep := _get_extract_path extract_id) in *.
  set (fl := (map_to_list written).*1).
  assert (Hnd : NoDup fl) by apply NoDup_fst_map_to_list.
  assert (Hin : forall f, f ∈ fl <-> is_Some (written !! f)).
  { intros f. subst fl. rewrite list_elem_of_fmap. split.
    - intros [[k c] [-> Hkc]]. apply elem_of_map_to_list in Hkc. eauto.
    - intros [c Hc]. exists (f, c). split; [done|]. by apply elem_of_map_to_list. }
  assert (Hne : ep <> EXTRACTED_FOLDER) by apply extract_path_not_extracted.
  assert (Hall : forall f, f ∈ fl -> is_Some (written !! f)) by (intros f; apply Hin).
  destruct (commit_files_rename fl st ep written normalize_input Hne Hnd Hw He Hall) as
    (st1 & w' & e' & Hrun & Hops & Hw' & He' & Hwl & Hel & Hother).
  rewrite Hrun. cbn [bind]. unfold delete_folder. rewrite Hw'.
  eexists _, fl, e'. split; [reflexivity|]. cbn [ops folders].
  split; [by rewrite Hops, <- app_assoc|].
  split; [done|]. split; [|split; [|split]].
  - apply set_eq. intros f. rewrite elem_of_list_to_set, elem_of_dom. apply Hin.
  - rewrite lookup_delete_ne; [done|]. apply extract_path_not_extracted.
  - intros f. rewrite Hel. destruct (decide (f ∈ fl)) as [Hf|Hf].
    + apply Hin in Hf as [c Hc]. by rewrite Hc.
    + destruct (written !! f) as [c|] eqn:Hc; [|done].
      exfalso. apply Hf, Hin. eauto.
  - apply lookup_delete_eq.
Qed.

Section ExtractRun.

Variable writer_id : string -> string -> string.
Variable TPartialTableSchema : Type.
Variable merge_tables : TPartialTableSchema -> TPartialTableSchema -> TPartialTableSchema.

Lemma flush_writers_written load_id ws : forall st (dir : folder),
  folders st !! _get_extract_path load_id = Some dir ->
  exists st' ws',
    flush_writers writer_id st load_id ws = Ok (st', ws') /\
    folders st' = <[_get_extract_path load_id := written_by writer_id load_id ws dir]>
                    (folders st) /\
    ops st' = ops st.
Proof.
  induction ws as [|[[[lid sn] tn] buffered] ws IH]; intros st dir Hdir.
  - exists st, []. simpl. repeat split. by rewrite insert_id.
  - cbn [flush_writers written_by fold_left].
    destruct (String.eqb lid load_id).
    + unfold write_file. rewrite Hdir. cbn [bind].
      set (st1 := mkStorage _ _).
      destruct (IH st1 (<[build_extracted_file_stem sn tn (writer_id sn tn) := buffered]> dir))
        as (st' & ws' & Hrun & Hf & Hops).
      { subst st1. simpl. by rewrite lookup_insert_eq. }
      exists st', ws'. split; [done|]. split; [|done].
      rewrite Hf. subst st1. simpl. by rewrite insert_insert_eq.
    + destruct (IH st dir Hdir) as (st' & ws' & Hrun & Hf & Hops).
      rewrite Hrun. cbn [bind]. eauto.
Qed.

Lemma _write_dynamic_table_files source extract_id hint_fun
    (resource : DltResource TPartialTableSchema) l : forall acc,
  files (snd (fold_left
                (_write_dynamic_table TPartialTableSchema merge_tables source
                   extract_id hint_fun resource) l acc))
  = files (snd acc).
Proof.
  induction l as [|i l IH]; intros [tables st]; [done|].
  cbn [fold_left]. rewrite IH. reflexivity.
Qed.

Lemma extract_items_files source extract_id items : forall acc,
  files (snd (fold_left (extract_item TPartialTableSchema merge_tables source extract_id)
                items acc))
  = files (snd acc).
Proof.
  induction items as [|[resource item] items IH]; intros [tables st]; [done|].
  cbn [fold_left]. rewrite IH. unfold extract_item.
  destruct (_table_name_hint_fun _ resource) as [hint_fun|]; [|done].
  destruct item as [i|l].
  - reflexivity.
  - apply _write_dynamic_table_files.
Qed.

(** C7: [extract] on a fresh extract id, with the normalize-input folder in
    place, returns; every file its writers flushed into
    [extract/<extract_id>] is moved into the normalize-input folder by one
    atomic rename, the file names moved are the file names written, the
    files arrive with their content, and the staging directory no longer
    exists. *)
Theorem extract_commit_moves_all source st uniq_id (normalize_input : folder) :
  folders (files st) !! _get_extract_path uniq_id = None ->
  folders (files st) !! EXTRACTED_FOLDER = Some normalize_input ->
  let staging := _get_extract_path uniq_id in
  let staged :=
    fold_left (extract_item TPartialTableSchema merge_tables source uniq_id)
      (pipe_items _ source)
      (∅, mkItemStorage
            (mkStorage (<[staging := ∅]> (folders (files st)))
                       (ops (files st) ++ [OpCreateFolder staging])%list)
            (writers st)) in
  let written := written_by writer_id uniq_id (writers (snd staged)) ∅ in
  exists st' (moved : list string) (arrived : folder),
    extract writer_id TPartialTableSchema merge_tables source st uniq_id
      = Ok (fst staged, st') /\
    ops (files st') =
      (ops (files st) ++ [OpCreateFolder staging]
         ++ List.map (rename_op staging) moved ++ [OpDeleteFolder staging])%list /\
    NoDup moved /\
    list_to_set moved = dom written /\
    folders (files st') !! EXTRACTED_FOLDER = Some arrived /\
    (forall f, arrived !! f = match written !! f with
                              | Some content => Some content
                              | None => normalize_input !! f
                              end) /\
    folders (files st') !! staging = None.
Proof.
  intros Hfresh Hnorm staging staged written. subst staging.
  unfold extract, create_extract_id, create_folder.
  rewrite Hfresh. cbn [bind].
  fold staged.
  assert (Hfiles : files (snd staged) =
            mkStorage (<[_get_extract_path uniq_id := ∅]> (folders (files st)))
              (ops (files st) ++ [OpCreateFolder (_get_extract_path uniq_id)])%list).
  { subst staged. by rewrite extract_items_files. }
  destruct staged as [dynamic_tables st1] eqn:Hstaged. cbn [fst snd] in *.
  unfold close_writers.
  destruct (flush_writers_written uniq_id (writers st1) (files st1) ∅)
    as (fs2 & ws2 & Hflush & Hfolders & Hops).
  { rewrite Hfiles. simpl. by rewrite lookup_insert_eq. }
  rewrite Hflush. cbn [bind files writers].
  destruct (commit_extract_files_moves fs2 uniq_id written normalize_input)
    as (fs3 & moved & arrived & Hcommit & Hops3 & Hnd & Hset & Harr & Hcontent & Hgone).
  { rewrite Hfolders. by rewrite lookup_insert_eq. }
  { rewrite Hfolders, Hfiles. simpl.
    rewrite !lookup_insert_ne by apply extract_path_not_extracted. done. }
  rewrite Hcommit. cbn [bind].
  eexists _, moved, arrived. split; [reflexivity|]. cbn [files].
  split; [|done].
  rewrite Hops3, Hops, Hfiles. simpl. by rewrite <- !app_assoc.
Qed.

End ExtractRun.

(** Three items of the static-name resource [orders] end up in one file of
    the normalize-input folder. *)
Lemma extract_commit_moves_all_witness :
  exists st',
    extract (fun _ _ => "w1") unit (fun t _ => t) orders_source initial_storage "id1"
      = Ok (∅, st') /\
    ops (files st') =
      [OpCreateFolder "extract/id1";
       OpAtomicRename "extract/id1" "shop.orders.w1" "extracted" "shop.orders.w1";
       OpDeleteFolder "extract/id1"] /\
    (folders (files st') !! EXTRACTED_FOLDER) ≫= (fun dir => dir !! "shop.orders.w1")
      = Some ["o1"; "o2"; "o3"] /\
    folders (files st') !! "extract/id1" = None.
Proof.
  destruct (extract_commit_moves_all (fun _ _ => "w1") unit (fun t _ => t)
              orders_source initial_storage "id1" ∅)
    as (st' & moved & arrived & Hrun & Hops & Hnd & Hset & Harr & Hcontent & Hgone).
  - vm_compute. reflexivity.
  - vm_compute. reflexivity.
  - exists st'. split; [exact Hrun|].
    vm_compute in Hrun. injection Hrun as <-.
    repeat split; vm_compute; reflexivity.
Defined.

(** *** Commits side by side, and commits that keep the staged files *)

Lemma _get_extract_path_inj a b : _get_extract_path a = _get_extract_path b -> a = b.
Proof.
  unfold _get_extract_path, path_join, EXTRACT_FOLDER. cbn.
  intros H. injection H as H. exact H.
Qed.

(** X20: the commit of one extract leaves the staging directory of every
    other extract as it is, with its files, staged or not yet flushed: two
    extracts with different ids never touch each other's files. *)
Theorem commit_leaves_other_extracts (st : storage) (extract_id other_id : string)
    (written normalize_input : folder) :
  folders st !! _get_extract_path extract_id = Some written ->
  folders st !! EXTRACTED_FOLDER = Some normalize_input ->
  other_id <> extract_id ->
  exists st',
    commit_extract_files st extract_id true = Ok st' /\
    folders st' !! _get_extract_path other_id = folders st !! _get_extract_path other_id.
Proof.
  intros Hw He Hother. unfold commit_extract_files, list_folder_files.
  rewrite Hw. cbn [bind].
  set (ep := _get_extract_path extract_id) in *.
  set (fl := (map_to_list written).*1).
  assert (Hall : forall f, f ∈ fl -> is_Some (written !! f)).
  { intros f. subst fl. rewrite list_elem_of_fmap.
    intros [[k c] [-> Hkc]]. apply elem_of_map_to_list in Hkc. eauto. }
  destruct (commit_files_rename fl st ep written normalize_input
              (extract_path_not_extracted extract_id)
              (NoDup_fst_map_to_list written) Hw He Hall) as
    (st1 & w' & e' & Hrun & _ & Hw' & _ & _ & _ & Hrest).
  rewrite Hrun. cbn [bind]. unfold delete_folder. rewrite Hw'.
  eexists. split; [reflexivity|]. cbn [folders].
  assert (Hne : _get_extract_path other_id <> ep).
  { intros Heq. apply Hother. by apply _get_extract_path_inj. }
  rewrite lookup_delete_ne by done.
  apply Hrest; [done|apply extract_path_not_extracted].
Qed.

Lemma commit_leaves_other_extracts_witness :
  let st := mkStorage (<["extract/id1" := {["shop.orders.w1" := ["o1"]]}]>
                         (<["extract/id2" := {["shop.users.w2" := ["u1"]]}]>
                            (<[EXTRACTED_FOLDER := ∅]> ∅))) [] in
  exists st',
    commit_extract_files st "id1" true = Ok st' /\
    folders st' !! _get_extract_path "id2" = folders st !! _get_extract_path "id2".
Proof.
  intros st.
  apply (commit_leaves_other_extracts st "id1" "id2"
           {["shop.orders.w1" := ["o1"]]} ∅);
    [vm_compute; reflexivity | vm_compute; reflexivity | discriminate].
Defined.

Lemma commit_files_link (fl : list string) : forall st ep (w e : folder),
  ep <> EXTRACTED_FOLDER ->
  NoDup fl ->
  folders st !! ep = Some w ->
  folders st !! EXTRACTED_FOLDER = Some e ->
  (forall f, f ∈ fl -> is_Some (w !! f)) ->
  (forall f, f ∈ fl -> e !! f = None) ->
  exists st' (e' : folder),
    commit_files st ep false fl = Ok st' /\
    ops st' = (ops st ++ List.map (link_op ep) fl)%list /\
    folders st' !! EXTRACTED_FOLDER = Some e' /\
    (forall f, e' !! f = if decide (f ∈ fl) then w !! f else e !! f) /\
    (forall d, d <> EXTRACTED_FOLDER -> folders st' !! d = folders st !! d).
Proof.
  induction fl as [|file rest IH]; intros st ep w e Hne Hnd Hw He Hall Hfree.
  - exists st, e. simpl. rewrite app_nil_r.
    repeat split; try done; intros f; rewrite decide_False; try done;
      apply not_elem_of_nil.
  - apply NoDup_cons in Hnd as [Hnotin Hnd].
    destruct (Hall file) as [content Hc]; [apply elem_of_cons; by left|].
    cbn [commit_files]. unfold link_hard. rewrite Hw, Hc, He.
    rewrite (Hfree file) by (apply elem_of_cons; by left). cbn [bind].
    set (st1 := mkStorage _ _).
    destruct (IH st1 ep w (<[file := content]> e)) as
      (st' & e' & Hrun & Hops & He' & Hel & Hother); try done.
    { subst st1. simpl. by rewrite lookup_insert_ne. }
    { subst st1. simpl. by rewrite lookup_insert_eq. }
    { intros f Hf. apply Hall. apply elem_of_cons. by right. }
    { intros f Hf. rewrite lookup_insert_ne by (intros <-; done).
      apply Hfree. apply elem_of_cons. by right. }
    exists st', e'. split; [done|]. split.
    { rewrite Hops. subst st1. simpl. by rewrite <- app_assoc. }
    split; [done|]. split.
    + intros f. rewrite Hel.
      destruct (decide (f ∈ rest)) as [Hin|Hnin].
      * rewrite decide_True; [done|]. by apply elem_of_cons; right.
      * destruct (decide (f = file)) as [->|Hneq].
        -- rewrite decide_True by (apply elem_of_cons; by left).
           by rewrite lookup_insert_eq.
        -- rewrite decide_False.
           ++ by rewrite lookup_insert_ne.
           ++ intros [?|?]%elem_of_cons; done.
    + intros d Hd. rewrite Hother by done. subst st1. simpl.
      by rewrite lookup_insert_ne.
Qed.

(** X21: [commit_extract_files] with [with_delete=False] copies instead of
    moving: when no staged file name is taken in the normalize-input folder,
    every staged file gets one hard link there, under its own name and with
    its content; the staging directory and its files stay as they are, no
    folder is deleted, and no other folder changes. *)
Theorem commit_by_hard_links (st : storage) (extract_id : string)
    (written normalize_input : folder) :
  folders st !! _get_extract_path extract_id = Some written ->
  folders st !! EXTRACTED_FOLDER = Some normalize_input ->
  (forall f, is_Some (written !! f) -> normalize_input !! f = None) ->
  exists st' (linked : list string) (arrived : folder),
    commit_extract_files st extract_id false = Ok st' /\
    ops st' = (ops st ++ List.map (link_op (_get_extract_path extract_id)) linked)%list /\
    NoDup linked /\
    list_to_set linked = dom written /\
    folders st' !! EXTRACTED_FOLDER = Some arrived /\
    (forall f, arrived !! f = match written !! f with
                              | Some content => Some content
                              | None => normalize_input !! f
                              end) /\
    (forall d, d <> EXTRACTED_FOLDER -> folders st' !! d = folders st !! d).
Proof.
  intros Hw He Hfree. unfold commit_extract_files, list_folder_files.
  rewrite Hw. cbn [bind].
  set (ep := _get_extract_path extract_id) in *.
  set (fl := (map_to_list written).*1).
  assert (Hnd : NoDup fl) by apply NoDup_fst_map_to_list.
  assert (Hin : forall f, f ∈ fl <-> is_Some (written !! f)).
  { intros f. subst fl. rewrite list_elem_of_fmap. split.
    - intros [[k c] [-> Hkc]]. apply elem_of_map_to_list in Hkc. eauto.
    - intros [c Hc]. exists (f, c). split; [done|]. by apply elem_of_map_to_list. }
  assert (Hall : forall f, f ∈ fl -> is_Some (written !! f)) by (intros f; apply Hin).
  assert (Hfree' : forall f, f ∈ fl -> normalize_input !! f = None).
  { intros f Hf. apply Hfree. by apply Hin. }
  destruct (commit_files_link fl st ep written normalize_input
              (extract_path_not_extracted extract_id) Hnd Hw He Hall Hfree') as
    (st1 & e' & Hrun & Hops & He' & Hel & Hother).
  rewrite Hrun. cbn [bind].
  exists st1, fl, e'. split; [done|]. split; [done|]. split; [done|].
  split; [|split; [done|split; [|done]]].
  - apply set_eq. intros f. rewrite elem_of_list_to_set, elem_of_dom. apply Hin.
  - intros f. rewrite Hel. destruct (decide (f ∈ fl)) as [Hf|Hf].
    + apply Hin in Hf as [c Hc]. by rewrite Hc.
    + destruct (written !! f) as [c|] eqn:Hc; [|done].
      exfalso. apply Hf, Hin. eauto.
Qed.

Lemma commit_by_hard_links_witness :
  let st := mkStorage (<["extract/id1" := {["shop.orders.w1" := ["o1"]]}]>
                         (<[EXTRACTED_FOLDER := ∅]> ∅)) [] in
  exists st' (linked : list string) (arrived : folder),
    commit_extract_files st "id1" false = Ok st' /\
    ops st' = (ops st ++ List.map (link_op (_get_extract_path "id1")) linked)%list /\
    NoDup linked /\
    list_to_set linked = dom ({["shop.orders.w1" := ["o1"]]} : folder) /\
    folders st' !! EXTRACTED_FOLDER = Some arrived /\
    (forall f, arrived !! f =
               match ({["shop.orders.w1" := ["o1"]]} : folder) !! f with
               | Some content => Some content
               | None => (∅ : folder) !! f
               end) /\
    (forall d, d <> EXTRACTED_FOLDER -> folders st' !! d = folders st !! d).
Proof.
  intros st.
  apply (commit_by_hard_links st "id1" {["shop.orders.w1" := ["o1"]]} ∅);
    [vm_compute; reflexivity | vm_compute; reflexivity | intros f _; apply lookup_empty].
Defined.

(** *** The loop of [extract]: tables and writers *)

Section ExtractLoop.

Variable writer_id : string -> string -> string.
Variable TPartialTableSchema : Type.
Variable merge_tables : TPartialTableSchema -> TPartialTableSchema -> TPartialTableSchema.

Lemma _write_dynamic_table_tables source extract_id hint_fun resource l : forall acc,
  fst (fold_left (_write_dynamic_table TPartialTableSchema merge_tables source extract_id
                    hint_fun resource) l acc)
  = fold_left (table_step merge_tables) (List.map (fun i => (resource, hint_fun i, i)) l) (fst acc).
Proof.
  induction l as [|i l IH]; intros [tables st]; [reflexivity|].
  cbn [fold_left List.map]. rewrite IH. reflexivity.
Qed.

Lemma extract_items_tables source extract_id items : forall acc,
  fst (fold_left (extract_item TPartialTableSchema merge_tables source extract_id)
         items acc)
  = fold_left (table_step merge_tables)
      (List.flat_map
         (fun pipe_item : DltResource TPartialTableSchema * TDirectDataItem =>
            match _table_name_hint_fun _ (fst pipe_item) with
            | Some hint_fun =>
                List.map (fun i => (fst pipe_item, hint_fun i, i))
                  (items_of (snd pipe_item))
            | None => []
            end) items)
      (fst acc).
Proof.
  induction items as [|[resource item] items IH]; intros [tables st]; [reflexivity|].
  cbn [fold_left List.flat_map fst snd]. rewrite IH, fold_left_app. f_equal.
  unfold extract_item.
  destruct (_table_name_hint_fun _ resource) as [hint_fun|]; [|reflexivity].
  destruct item as [i|l]; [reflexivity|].
  apply _write_dynamic_table_tables.
Qed.

(** The schema update [extract] returns is the one its loop built. *)
Lemma extract_tables source st uniq_id tables st' :
  extract writer_id TPartialTableSchema merge_tables source st uniq_id
    = Ok (tables, st') ->
  tables = fold_left (table_step merge_tables) (dynamic_rows source) ∅.
Proof.
  unfold extract.
  destruct (create_extract_id (files st) uniq_id) as [[extract_id fs]|]; [|discriminate].
  cbn [bind].
  pose proof (extract_items_tables source extract_id (pipe_items _ source)
                (∅, mkItemStorage fs (writers st))) as Htables.
  destruct (fold_left _ (pipe_items _ source) _) as [dynamic_tables st1].
  cbn [fst] in Htables.
  destruct (close_writers writer_id st1 extract_id) as [st2|]; [|discriminate].
  cbn [bind].
  destruct (commit_extract_files (files st2) extract_id true); [|discriminate].
  cbn [bind]. intros [= <- _]. exact Htables.
Qed.

Lemma table_step_fold rows : forall (tables : gmap string (list TPartialTableSchema)) name,
  (tables !! name = None ->
   fold_left (table_step merge_tables) rows tables !! name = table_of merge_tables (List.filter (named name) rows)) /\
  (forall t, tables !! name = Some [t] ->
   fold_left (table_step merge_tables) rows tables !! name =
     Some [fold_left (merge_row merge_tables) (List.filter (named name) rows) t]).
Proof.
  induction rows as [|row rows IH]; intros tables name.
  - split; [done|]. intros t Ht. done.
  - cbn [fold_left List.filter].
    destruct (named name row) eqn:Hnamed; unfold named in Hnamed;
      [apply String.eqb_eq in Hnamed as Heq|apply String.eqb_neq in Hnamed as Hne].
    + split.
      * intros Hnone. cbn [table_of].
        apply (proj2 (IH (table_step merge_tables tables row) name)).
        unfold table_step. rewrite Heq, Hnone. apply lookup_insert_eq.
      * intros t Ht. cbn [fold_left].
        apply (proj2 (IH (table_step merge_tables tables row) name)).
        unfold table_step, merge_row. rewrite Heq, Ht.
        destruct (_table_has_other_dynamic_hints _ (fst (fst row))); [|done].
        apply lookup_insert_eq.
    + assert (Hsame : table_step merge_tables tables row !! name = tables !! name).
      { unfold table_step.
        destruct (tables !! snd (fst row)) as [[|t ts]|];
          try destruct (_table_has_other_dynamic_hints _ (fst (fst row)));
          try done; by rewrite lookup_insert_ne. }
      split.
      * intros Hnone. apply (proj1 (IH (table_step merge_tables tables row) name)).
        by rewrite Hsame.
      * intros t Ht. apply (proj2 (IH (table_step merge_tables tables row) name)).
        by rewrite Hsame.
Qed.

(** X22: the schema update [extract] returns has an entry exactly for the
    table names that the name hints give to the items of the dynamic
    resources. The entry holds one partial table: the table schema of the
    first item of that name, into which the table schemas of the later items
    of that name are merged in emission order when their resource has other
    dynamic hints, and which is left as it is when it has none. *)
Theorem extract_dynamic_tables (source : DltSource TPartialTableSchema)
    (st : item_storage) (uniq_id : string)
    (tables : gmap string (list TPartialTableSchema)) (st' : item_storage) :
  extract writer_id TPartialTableSchema merge_tables source st uniq_id
    = Ok (tables, st') ->
  forall name,
    tables !! name = table_of merge_tables (List.filter (named name) (dynamic_rows source)).
Proof.
  intros Hrun name. apply extract_tables in Hrun as ->.
  apply (proj1 (table_step_fold (dynamic_rows source) ∅ name)).
  apply lookup_empty.
Qed.

(** X23: a source whose resources all have a static table name yields an
    empty schema update. *)
Theorem static_resources_give_no_tables (source : DltSource TPartialTableSchema)
    (st : item_storage) (uniq_id : string)
    (tables : gmap string (list TPartialTableSchema)) (st' : item_storage) :
  Forall (fun pipe_item : DltResource TPartialTableSchema * TDirectDataItem =>
            _table_name_hint_fun _ (fst pipe_item) = None) (pipe_items _ source) ->
  extract writer_id TPartialTableSchema merge_tables source st uniq_id
    = Ok (tables, st') ->
  tables = ∅.
Proof.
  intros Hstatic Hrun. apply extract_tables in Hrun as ->.
  assert (Hrows : dynamic_rows source = []).
  { unfold dynamic_rows. induction Hstatic as [|pipe_item items Hnone _ IH];
      [reflexivity|].
    cbn [List.flat_map]. by rewrite Hnone, IH. }
  by rewrite Hrows.
Qed.

(** **** Writers *)

Lemma writer_key_eqb_eq a b : writer_key_eqb a b = true <-> a = b.
Proof.
  destruct a as [[a1 a2] a3], b as [[b1 b2] b3]. cbn.
  rewrite !andb_true_iff, !String.eqb_eq. split.
  - intros [[-> ->] ->]. reflexivity.
  - intros [= -> -> ->]. done.
Qed.

Lemma buffer_of_append key key' items : forall ws,
  buffer_of key (append_to_writer ws key' items) =
    if writer_key_eqb key' key then (buffer_of key ws ++ items)%list
    else buffer_of key ws.
Proof.
  induction ws as [|[k buffered] ws IH]; unfold buffer_of in *;
    cbn [append_to_writer List.find fst snd].
  - destruct (writer_key_eqb key' key); reflexivity.
  - destruct (writer_key_eqb k key') eqn:Hk; cbn [List.find fst snd].
    + apply writer_key_eqb_eq in Hk as ->.
      destruct (writer_key_eqb key' key); reflexivity.
    + destruct (writer_key_eqb k key) eqn:Hkey; [|exact IH].
      apply writer_key_eqb_eq in Hkey as ->.
      destruct (writer_key_eqb key' key) eqn:E; [|reflexivity].
      apply writer_key_eqb_eq in E as ->.
      assert (writer_key_eqb key key = true) by (by apply writer_key_eqb_eq).
      congruence.
Qed.

Lemma writer_key_eqb_table (extract_id schema_name a b : string) :
  writer_key_eqb (extract_id, schema_name, a) (extract_id, schema_name, b)
  = String.eqb a b.
Proof. cbn. by rewrite !String.eqb_refl. Qed.

Lemma _write_dynamic_table_writers source extract_id hint_fun resource table l :
  forall acc,
  buffer_of (extract_id, source_schema_name _ source, table)
    (writers (snd (fold_left
                     (_write_dynamic_table TPartialTableSchema merge_tables source
                        extract_id hint_fun resource) l acc)))
  = (buffer_of (extract_id, source_schema_name _ source, table) (writers (snd acc)) ++
     sent_to source table (List.map (fun i => (hint_fun i, [i])) l))%list.
Proof.
  induction l as [|i l IH]; intros [tables st].
  - cbn. by rewrite app_nil_r.
  - cbn [fold_left List.map]. rewrite IH.
    unfold sent_to. cbn [List.filter fst snd _write_dynamic_table _write_item
      write_data_item writers items_of].
    rewrite buffer_of_append, writer_key_eqb_table.
    destruct (String.eqb (normalize_table_name _ source (hint_fun i)) table);
      cbn [List.map List.concat snd]; [|reflexivity].
    by rewrite <- app_assoc.
Qed.

(** X24: in the loop of [extract], the writer of a table receives, in the
    order the pipes yield them, exactly the items written under a name that
    normalizes to that table: the items of a static resource under the
    resource name, each item of a dynamic resource under the name its hint
    gives it. Items of different resources that normalize to the same table
    share one writer, and the order of emission is kept. *)
Theorem items_reach_their_writer (source : DltSource TPartialTableSchema)
    (extract_id : string) (table : string)
    (tables : gmap string (list TPartialTableSchema)) (st : item_storage) :
  buffer_of (extract_id, source_schema_name _ source, table)
    (writers (snd (fold_left
                     (extract_item TPartialTableSchema merge_tables source extract_id)
                     (pipe_items _ source) (tables, st))))
  = (buffer_of (extract_id, source_schema_name _ source, table) (writers st) ++
     sent_to source table (routed source))%list.
Proof.
  unfold routed. generalize (pipe_items _ source). intros items.
  revert tables st. induction items as [|[resource item] items IH]; intros tables st.
  - cbn. by rewrite app_nil_r.
  - cbn [fold_left List.flat_map fst snd].
    destruct (extract_item TPartialTableSchema merge_tables source extract_id
                (tables, st) (resource, item)) as [tables1 st1] eqn:Hstep.
    rewrite IH. unfold sent_to at 2.
    rewrite List.filter_app, List.map_app, List.concat_app, app_assoc.
    f_equal. fold (sent_to source table
      (match _table_name_hint_fun _ resource with
       | Some hint_fun => List.map (fun i => (hint_fun i, [i])) (items_of item)
       | None => [(resource_name _ resource, items_of item)]
       end)).
    assert (Hst1 : st1 = snd (extract_item TPartialTableSchema merge_tables source
                                extract_id (tables, st) (resource, item)))
      by (by rewrite Hstep).
    rewrite Hst1. clear Hstep Hst1. unfold extract_item.
    destruct (_table_name_hint_fun _ resource) as [hint_fun|].
    + destruct item as [i|l].
      * apply (_write_dynamic_table_writers source extract_id hint_fun resource table
                 [i] (tables, st)).
      * apply (_write_dynamic_table_writers source extract_id hint_fun resource table
                 l (tables, st)).
    + cbn [fst snd _write_item write_data_item writers].
      rewrite buffer_of_append, writer_key_eqb_table.
      unfold sent_to. cbn [List.filter fst].
      destruct (String.eqb (normalize_table_name _ source (resource_name _ resource)) table);
        cbn [List.map List.concat snd]; by rewrite ?app_nil_r.
Qed.

End ExtractLoop.

Lemma extract_dynamic_tables_witness :
  exists tables st',
    extract (fun _ t => t) string (fun a b => a ++ "+" ++ b) events_source
      initial_storage "id1" = Ok (tables, st') /\
    tables !! "login" = Some ["t:login+a:x"] /\
    tables !! "logout" = Some ["t:logout"] /\
    tables !! "orders" = None.
Proof.
  destruct (extract (fun _ t => t) string (fun a b => a ++ "+" ++ b) events_source
              initial_storage "id1") as [[tables st']|e] eqn:Hrun;
    [|vm_compute in Hrun; discriminate].
  exists tables, st'. split; [reflexivity|].
  pose proof (extract_dynamic_tables (fun _ t => t) string (fun a b => a ++ "+" ++ b)
                events_source initial_storage "id1" tables st' Hrun) as Htables.
  rewrite !Htables. repeat split.
Defined.

Lemma static_resources_give_no_tables_witness :
  match extract (fun _ _ => "w1") unit (fun t _ => t) orders_source initial_storage "id1"
  with
  | Ok (tables, _) => tables = ∅
  | Err _ => False
  end.
Proof.
  destruct (extract (fun _ _ => "w1") unit (fun t _ => t) orders_source initial_storage
              "id1") as [[tables st']|e] eqn:Hrun.
  - apply (static_resources_give_no_tables (fun _ _ => "w1") unit (fun t _ => t)
             orders_source initial_storage "id1" tables st');
      [repeat constructor | exact Hrun].
  - vm_compute in Hrun. discriminate.
Defined.

End ExtractTheory.

(** ** Properties of the contract engine *)

Module ContractTheory.
Import Contract.

Lemma set_columns_id delta : set_columns delta (table_columns delta) = delta.
Proof. by destruct delta. Qed.

Lemma filter_all {A} (f : A -> bool) (l : list A) :
  (forall x, In x l -> f x = true) -> List.filter f l = l.
Proof.
  induction l as [|a l IH]; intros H; simpl; [done|].
  rewrite (H a) by (by left). f_equal. apply IH. intros x Hx. apply H. by right.
Qed.

Lemma filter_none {A} (f : A -> bool) (l : list A) :
  (forall x, In x l -> f x = false) -> List.filter f l = [].
Proof.
  induction l as [|a l IH]; intros H; simpl; [done|].
  rewrite (H a) by (by left). apply IH. intros x Hx. apply H. by right.
Qed.

Lemma filter_length_lt {A} (f : A -> bool) (l : list A) (x : A) :
  In x l -> f x = false -> length (List.filter f l) < length l.
Proof.
  induction l as [|a l IH]; intros Hin Hf; simpl in *; [done|].
  pose proof (List.filter_length_le f l) as Hle.
  destruct Hin as [->|Hin].
  - rewrite Hf. lia.
  - specialize (IH Hin Hf). destruct (f a); simpl; lia.
Qed.

Lemma has_key_In {A} (k : string) (a : A) (l : list (string * A)) :
  In (k, a) l -> has_key k l = true.
Proof.
  intros Hin. unfold has_key. apply existsb_exists.
  exists (k, a). split; [done|]. simpl. apply String.eqb_refl.
Qed.

Lemma has_key_filter_false {A B} (k : string) (stripped : list (string * B))
    (data : list (string * A)) :
  has_key k stripped = true ->
  has_key k (List.filter (fun kv => negb (has_key (fst kv) stripped)) data) = false.
Proof.
  intros Hk. unfold has_key at 1.
  apply not_true_is_false. intros Hex.
  apply existsb_exists in Hex as [[k' a] [Hin Heq]].
  apply filter_In in Hin as [_ Hneg]. simpl in *.
  apply String.eqb_eq in Heq as ->. rewrite Hk in Hneg. discriminate.
Qed.

(** The verdict on a column is at least as strict as every slot that
    applies to it. *)
Lemma verdict_columns_slot modes existing k c :
  is_new_column existing k = true \/ variant c = true ->
  strictness (columns modes) <= strictness (verdict_mode modes existing (k, c)).
Proof.
  unfold verdict_mode, column_verdict. simpl.
  intros [Hnew|Hvar].
  - destruct (variant c); [|rewrite Hnew; simpl; lia].
    destruct (Nat.ltb_spec (strictness (data_type modes)) (strictness (columns modes)));
      simpl; lia.
  - rewrite Hvar.
    destruct (Nat.ltb_spec (strictness (data_type modes)) (strictness (columns modes)));
      simpl; lia.
Qed.

Lemma verdict_data_type_slot modes existing k c :
  variant c = true ->
  strictness (data_type modes) <= strictness (verdict_mode modes existing (k, c)).
Proof.
  unfold verdict_mode, column_verdict. simpl. intros ->.
  destruct (Nat.ltb_spec (strictness (data_type modes)) (strictness (columns modes)));
    simpl; lia.
Qed.

Lemma strictness_evolve m : strictness m = 0 -> m = evolve.
Proof. by destruct m. Qed.

(** On an existing table the engine returns a pair only when no column is
    frozen or row-discarding; the pair is then the input with the
    [discard_value] columns filtered out. *)
Lemma apply_existing_returns modes name data delta existing data' delta' :
  apply_schema_contract modes name data delta (Some existing)
    = Returns (Some data') (Some delta') ->
  (forall kc, In kc (table_columns delta) ->
     verdict_mode modes existing kc = evolve \/
     verdict_mode modes existing kc = discard_value) /\
  data' = List.filter
            (fun kv => negb (has_key (fst kv)
               (List.filter (is_mode discard_value modes existing) (table_columns delta))))
            data /\
  delta' = set_columns delta
             (List.filter (fun kc => negb (is_mode discard_value modes existing kc))
                          (table_columns delta)).
Proof.
  unfold apply_schema_contract.
  destruct (List.find _ _) as [[k c]|] eqn:Hfind.
  { destruct (column_verdict modes existing k c) as [[? ?] ?]. discriminate. }
  destruct (existsb _ _) eqn:Hex; [discriminate|].
  intros [= <- <-]. split; [|done].
  intros kc Hin.
  pose proof (find_none _ _ Hfind kc Hin) as Hf.
  assert (is_mode discard_row modes existing kc = false) as Hr.
  { apply not_true_is_false. intros Ht.
    assert (existsb (is_mode discard_row modes existing) (table_columns delta) = true).
    { apply existsb_exists. eauto. }
    congruence. }
  unfold is_mode in *.
  apply bool_decide_eq_false in Hf, Hr.
  destruct (verdict_mode modes existing kc); auto; contradiction.
Qed.

(** A column the contract forbids is in no returned pair. *)
Lemma forbidden_column_removed modes name data delta existing k c data' delta' :
  In (k, c) (table_columns delta) ->
  verdict_mode modes existing (k, c) <> evolve ->
  apply_schema_contract modes name data delta (Some existing)
    = Returns (Some data') (Some delta') ->
  ~ In (k, c) (table_columns delta') /\ has_key k data' = false.
Proof.
  intros Hin Hne Hret.
  apply apply_existing_returns in Hret as (Hall & -> & ->).
  destruct (Hall _ Hin) as [He|Hd]; [contradiction|].
  assert (is_mode discard_value modes existing (k, c) = true) as Hm.
  { unfold is_mode. by apply bool_decide_eq_true. }
  split.
  - simpl. intros Hin'. apply filter_In in Hin' as [_ Hneg].
    rewrite Hm in Hneg. discriminate.
  - apply has_key_filter_false. apply (has_key_In k c).
    apply filter_In. by split.
Qed.

Lemma not_strips_passed data delta :
  ~ strips data delta (Returns (Some data) (Some delta)).
Proof. intros (d & t & [= <- <-] & Hlt & _). lia. Qed.

Lemma one_outcome modes name data delta existing_table :
  let r := apply_schema_contract modes name data delta existing_table in
  exactly_one_of (passes_through data delta r) (discards_row r)
                 (strips data delta r) (raises_frozen r).
Proof.
  intros r. subst r. unfold exactly_one_of, passes_through, discards_row, raises_frozen.
  destruct existing_table as [existing|]; cbn [apply_schema_contract].
  - destruct (List.find _ _) as [[k c]|] eqn:Hfind.
    { destruct (column_verdict modes existing k c) as [[m slot] change].
      right; right; right. repeat split; try discriminate.
      - intros (d & t & [=] & _).
      - eauto. }
    destruct (existsb (is_mode discard_row modes existing) _) eqn:Hrow.
    { right; left. repeat split; try discriminate.
      - intros (d & t & [=] & _).
      - intros (? & ? & ? & ? & [=]). }
    destruct (existsb (is_mode discard_value modes existing) (table_columns delta))
      eqn:Hval.
    + right; right; left.
      apply existsb_exists in Hval as [kc [Hin Hm]].
      assert (Hlt : length (List.filter
                  (fun kc => negb (is_mode discard_value modes existing kc))
                  (table_columns delta)) < length (table_columns delta)).
      { apply (filter_length_lt _ _ kc Hin). by rewrite Hm. }
      repeat split; try discriminate.
      * intros [= _ Hd]. rewrite <- Hd in Hlt at 2. simpl in Hlt. lia.
      * eexists _, _. split; [reflexivity|]. simpl. split; [done|].
        split; intros x Hx; by apply filter_In in Hx as [? _].
      * intros (? & ? & ? & ? & [=]).
    + left.
      assert (Hnone : forall kc, In kc (table_columns delta) ->
                is_mode discard_value modes existing kc = false).
      { intros kc Hin. apply not_true_is_false. intros Ht.
        assert (existsb (is_mode discard_value modes existing) (table_columns delta) = true)
          by (apply existsb_exists; eauto).
        congruence. }
      assert (Hpass :
        Returns
          (Some (List.filter (fun kv => negb (has_key (fst kv)
                   (List.filter (is_mode discard_value modes existing)
                                (table_columns delta)))) data))
          (Some (set_columns delta
                   (List.filter (fun kc => negb (is_mode discard_value modes existing kc))
                                (table_columns delta))))
        = Returns (Some data) (Some delta)).
      { rewrite (filter_all (fun kc => negb (is_mode discard_value modes existing kc))).
        2:{ intros kc Hin. by rewrite Hnone. }
        rewrite set_columns_id.
        assert (List.filter (is_mode discard_value modes existing) (table_columns delta) = [])
          as ->.
        { by apply filter_none. }
        rewrite filter_all; [done|]. done. }
      rewrite Hpass. repeat split; try discriminate.
      * apply not_strips_passed.
      * intros (? & ? & ? & ? & [=]).
  - destruct (tables modes).
    + left. repeat split; try discriminate.
      * apply not_strips_passed.
      * intros (? & ? & ? & ? & [=]).
    + right; left. repeat split; try discriminate.
      * intros (d & t & [=] & _).
      * intros (? & ? & ? & ? & [=]).
    + right; left. repeat split; try discriminate.
      * intros (d & t & [=] & _).
      * intros (? & ? & ? & ? & [=]).
    + right; right; right. repeat split; try discriminate.
      * intros (d & t & [=] & _).
      * eauto.
Qed.

(** C1: for every contract-mode triple and every input,
    [apply_schema_contract] has exactly one of the four outcomes
    (unchanged pair, [(None, None)], stripped pair, [SchemaFrozen]); and no
    change passes that an applicable slot forbids: a new table passes only
    under [tables = evolve], and on an existing table a new column (or a
    variant) of the delta is in no returned pair unless [columns] is
    [evolve], nor a variant unless [data_type] is [evolve] too. *)
Theorem contract_engine_total modes name data delta existing_table :
  let r := apply_schema_contract modes name data delta existing_table in
  exactly_one_of (passes_through data delta r) (discards_row r)
                 (strips data delta r) (raises_frozen r) /\
  (existing_table = None -> tables modes <> evolve ->
   forall data' delta', r <> Returns (Some data') (Some delta')) /\
  (forall existing k c data' delta',
     existing_table = Some existing ->
     In (k, c) (table_columns delta) ->
     is_new_column existing k = true \/ variant c = true ->
     columns modes <> evolve ->
     r = Returns (Some data') (Some delta') ->
     ~ In (k, c) (table_columns delta') /\ has_key k data' = false) /\
  (forall existing k c data' delta',
     existing_table = Some existing ->
     In (k, c) (table_columns delta) ->
     variant c = true ->
     data_type modes <> evolve ->
     r = Returns (Some data') (Some delta') ->
     ~ In (k, c) (table_columns delta') /\ has_key k data' = false).
Proof.
  intros r. split; [apply one_outcome|]. subst r.
  split; [|split].
  - intros -> Hne data' delta'. simpl. destruct (tables modes); congruence.
  - intros existing k c data' delta' -> Hin Happ Hne Hret.
    eapply forbidden_column_removed; eauto.
    intros He. apply Hne, strictness_evolve.
    pose proof (verdict_columns_slot modes existing k c Happ) as Hle.
    rewrite He in Hle. simpl in Hle. lia.
  - intros existing k c data' delta' -> Hin Hvar Hne Hret.
    eapply forbidden_column_removed; eauto.
    intros He. apply Hne, strictness_evolve.
    pose proof (verdict_data_type_slot modes existing k c Hvar) as Hle.
    rewrite He in Hle. simpl in Hle. lia.
Qed.

Lemma contract_engine_total_witness :
  apply_schema_contract (mkModes freeze discard_value freeze) "tables"
    test_data_with_new_row test_table_update (Some test_existing_table)
    = Returns (Some test_data) (Some (set_columns test_table_update [])) /\
  ~ In ("new_column", mkColumn "new_column" (Some "string") false)
       (table_columns (set_columns test_table_update [])) /\
  has_key "new_column" test_data = false.
Proof.
  split; [reflexivity|].
  apply (proj1 (proj2 (proj2
           (contract_engine_total (mkModes freeze discard_value freeze) "tables"
              test_data_with_new_row test_table_update (Some test_existing_table))))
           test_existing_table "new_column"
           (mkColumn "new_column" (Some "string") false)
           test_data (set_columns test_table_update [])).
  - reflexivity.
  - simpl. auto.
  - left. reflexivity.
  - discriminate.
  - reflexivity.
Defined.

(** C5: on a new table (no existing table) the [tables] slot decides alone:
    [evolve] returns the input pair unchanged, [discard_row] and
    [discard_value] both return [(None, None)], never a trimmed pair, and
    [freeze] raises [SchemaFrozen]; the other two slots do not matter. *)
Theorem new_table_outcomes cols dt name data delta :
  apply_schema_contract (mkModes evolve cols dt) name data delta None
    = Returns (Some data) (Some delta) /\
  apply_schema_contract (mkModes discard_row cols dt) name data delta None
    = Returns None None /\
  apply_schema_contract (mkModes discard_value cols dt) name data delta None
    = Returns None None /\
  apply_schema_contract (mkModes freeze cols dt) name data delta None
    = Raises (SchemaFrozenException name None SlotTables NewTable).
Proof. repeat split. Qed.

(** Under [data_type = evolve] the verdict on a column is the [columns]
    mode when the column is new or a variant, and [evolve] otherwise. *)
Lemma verdict_under_evolve tbl cols existing kc :
  verdict_mode (mkModes tbl cols evolve) existing kc =
    if answers_to_columns existing kc then cols else evolve.
Proof.
  destruct kc as [k c]. unfold verdict_mode, column_verdict, answers_to_columns.
  cbn [fst snd columns data_type strictness].
  destruct (variant c); cbn [orb]; [by destruct cols|].
  by destruct (is_new_column existing k).
Qed.

Lemma is_mode_under_evolve tbl cols existing kc :
  cols <> evolve ->
  is_mode cols (mkModes tbl cols evolve) existing kc = answers_to_columns existing kc.
Proof.
  intros Hne. unfold is_mode. rewrite verdict_under_evolve.
  destruct (answers_to_columns existing kc).
  - by apply bool_decide_eq_true.
  - apply bool_decide_eq_false. congruence.
Qed.

Lemma is_mode_other_under_evolve m tbl cols existing kc :
  m <> evolve -> m <> cols ->
  is_mode m (mkModes tbl cols evolve) existing kc = false.
Proof.
  intros Hne Hne'. unfold is_mode. rewrite verdict_under_evolve.
  apply bool_decide_eq_false. destruct (answers_to_columns existing kc); congruence.
Qed.

Lemma find_ext {A} (f g : A -> bool) (l : list A) :
  (forall x, f x = g x) -> List.find f l = List.find g l.
Proof.
  intros Hfg. induction l as [|a l IH]; [reflexivity|].
  cbn [List.find]. by rewrite Hfg, IH.
Qed.

Lemma find_never {A} (l : list A) : List.find (fun _ => false) l = None.
Proof. induction l as [|a l IH]; [reflexivity|exact IH]. Qed.

Lemma existsb_false {A} (f : A -> bool) (l : list A) :
  (forall x, f x = false) -> existsb f l = false.
Proof.
  intros Hf. induction l as [|a l IH]; [reflexivity|].
  cbn [existsb]. by rewrite Hf, IH.
Qed.

(** C6: a variant column of the delta on an existing table answers to the
    [columns] slot also when [data_type] is [evolve]. With
    [columns = freeze] the engine raises [SchemaFrozen] on the columns slot,
    for the first column of the delta that is new or a variant; with
    [columns = discard_row] it returns [(None, None)]; with
    [columns = discard_value] it returns the row and the delta without the
    columns that are new or variants, and with every other entry as it was:
    the variant column is stripped from data and delta, and nothing else
    is. *)
Theorem variant_respects_columns_slot tbl name data delta existing k c :
  In (k, c) (table_columns delta) ->
  variant c = true ->
  (exists k' c',
     List.find (answers_to_columns existing) (table_columns delta) = Some (k', c') /\
     apply_schema_contract (mkModes tbl freeze evolve) name data delta (Some existing)
       = Raises (SchemaFrozenException name (Some k') SlotColumns NewColumn)) /\
  apply_schema_contract (mkModes tbl discard_row evolve) name data delta (Some existing)
    = Returns None None /\
  (let stripped := List.filter (answers_to_columns existing) (table_columns delta) in
   let data' := List.filter (fun kv => negb (has_key (fst kv) stripped)) data in
   let delta' :=
     set_columns delta
       (List.filter (fun kc => negb (answers_to_columns existing kc))
                    (table_columns delta)) in
   apply_schema_contract (mkModes tbl discard_value evolve) name data delta (Some existing)
     = Returns (Some data') (Some delta') /\
   ~ In (k, c) (table_columns delta') /\ has_key k data' = false /\
   (forall kv, In kv data -> has_key (fst kv) stripped = false -> In kv data') /\
   (forall kc, In kc (table_columns delta) ->
      answers_to_columns existing kc = false -> In kc (table_columns delta'))).
Proof.
  intros Hin Hvar.
  assert (Hkc : answers_to_columns existing (k, c) = true).
  { unfold answers_to_columns. cbn [fst snd]. by rewrite Hvar. }
  split; [|split].
  - unfold apply_schema_contract.
    rewrite (find_ext (is_mode freeze (mkModes tbl freeze evolve) existing)
               (answers_to_columns existing))
      by (intros kc; by apply is_mode_under_evolve).
    destruct (List.find (answers_to_columns existing) (table_columns delta))
      as [[k' c']|] eqn:Hfind.
    + exists k', c'. split; [reflexivity|].
      apply find_some in Hfind as [_ Hm].
      unfold column_verdict, answers_to_columns in *. cbn [fst snd] in Hm.
      cbn [columns data_type strictness].
      destruct (variant c'); cbn [orb] in Hm; [reflexivity|].
      by rewrite Hm.
    + pose proof (find_none _ _ Hfind _ Hin) as Hm. congruence.
  - unfold apply_schema_contract.
    rewrite (find_ext (is_mode freeze (mkModes tbl discard_row evolve) existing)
               (fun _ => false))
      by (intros kc; by apply is_mode_other_under_evolve).
    rewrite find_never.
    assert (existsb (is_mode discard_row (mkModes tbl discard_row evolve) existing)
              (table_columns delta) = true) as ->; [|reflexivity].
    apply existsb_exists. exists (k, c). split; [exact Hin|].
    by rewrite is_mode_under_evolve.
  - cbv zeta. split; [|split; [|split; [|split]]].
    + unfold apply_schema_contract.
      rewrite (find_ext (is_mode freeze (mkModes tbl discard_value evolve) existing)
                 (fun _ => false))
        by (intros kc; by apply is_mode_other_under_evolve).
      rewrite find_never.
      rewrite existsb_false by (intros kc; by apply is_mode_other_under_evolve).
      rewrite (List.filter_ext (is_mode discard_value (mkModes tbl discard_value evolve)
                                  existing)
                 (answers_to_columns existing))
        by (intros kc; by apply is_mode_under_evolve).
      rewrite (List.filter_ext
                 (fun kc => negb (is_mode discard_value (mkModes tbl discard_value evolve)
                                    existing kc))
                 (fun kc => negb (answers_to_columns existing kc)))
        by (intros kc; by rewrite is_mode_under_evolve).
      reflexivity.
    + cbn [set_columns table_columns]. intros Hin'.
      apply filter_In in Hin' as [_ Hneg]. by rewrite Hkc in Hneg.
    + apply has_key_filter_false. apply (has_key_In k c).
      apply filter_In. by split.
    + intros kv Hkv Hfree. apply filter_In. split; [exact Hkv|]. by rewrite Hfree.
    + intros kc Hkc' Hfree. cbn [set_columns table_columns].
      apply filter_In. split; [exact Hkc'|]. by rewrite Hfree.
Qed.

(** The variant cases of [test_check_adding_new_variant]. *)
Lemma variant_respects_columns_slot_witness :
  apply_schema_contract (mkModes evolve freeze evolve) "tables"
    test_data_with_variant test_variant_update (Some test_existing_table)
  = Raises (SchemaFrozenException "tables" (Some "column_2_variant")
              SlotColumns NewColumn) /\
  apply_schema_contract (mkModes evolve discard_row evolve) "tables"
    test_data_with_variant test_variant_update (Some test_existing_table)
  = Returns None None /\
  apply_schema_contract (mkModes evolve discard_value evolve) "tables"
    test_data_with_variant test_variant_update (Some test_existing_table)
  = Returns (Some test_data) (Some (set_columns test_variant_update [])).
Proof.
  destruct (variant_respects_columns_slot evolve "tables" test_data_with_variant
              test_variant_update test_existing_table "column_2_variant"
              (mkColumn "column_2_variant" (Some "number") true))
    as ((k' & c' & Hfind & Hfreeze) & Hrow & Hvalue & _).
  - simpl. auto.
  - reflexivity.
  - split; [|split].
    + rewrite Hfreeze. vm_compute in Hfind. by injection Hfind as <- _.
    + exact Hrow.
    + exact Hvalue.
Defined.

(** *** The assertions of the test module hold of the model *)

Example test_check_adding_table :
  let apply modes :=
    schema_apply_schema_contract get_schema modes "new_table" test_data
      test_new_table false in
  Forall (fun base =>
    apply (with_tables base evolve) = Returns (Some test_data) (Some test_new_table) /\
    apply (with_tables base discard_row) = Returns None None /\
    apply (with_tables base discard_value) = Returns None None /\
    is_frozen (apply (with_tables base freeze)) = true)
    base_settings.
Proof. repeat constructor. Qed.

Example test_check_adding_new_columns :
  let apply modes :=
    schema_apply_schema_contract get_schema modes "tables" test_data_with_new_row
      test_table_update true in
  let apply_mixed modes :=
    schema_apply_schema_contract get_schema modes "mixed_table"
      test_data_with_incomplete test_mixed_update true in
  Forall (fun base =>
    apply (with_columns base evolve)
      = Returns (Some test_data_with_new_row) (Some test_table_update) /\
    apply (with_columns base discard_row) = Returns None None /\
    apply (with_columns base discard_value)
      = Returns (Some test_data) (Some (set_columns test_table_update [])) /\
    is_frozen (apply (with_columns base freeze)) = true /\
    (* incomplete columns should be treated like new columns *)
    apply_mixed (with_columns base evolve)
      = Returns (Some test_data_with_incomplete) (Some test_mixed_update) /\
    apply_mixed (with_columns base discard_row) = Returns None None /\
    apply_mixed (with_columns base discard_value)
      = Returns (Some test_data) (Some (set_columns test_mixed_update [])) /\
    is_frozen (apply_mixed (with_columns base freeze)) = true)
    base_settings.
Proof. repeat constructor. Qed.

Example test_check_adding_new_variant :
  let default := DEFAULT_SCHEMA_CONTRACT_MODE in
  let apply modes :=
    schema_apply_schema_contract get_schema modes "tables" test_data_with_variant
      test_variant_update true in
  apply (with_data_type default evolve)
    = Returns (Some test_data_with_variant) (Some test_variant_update) /\
  apply (with_data_type default discard_row) = Returns None None /\
  apply (with_data_type default discard_value)
    = Returns (Some test_data) (Some (set_columns test_variant_update [])) /\
  apply (with_data_type default freeze)
    = Raises (SchemaFrozenException "tables" (Some "column_2_variant")
                SlotDataType NewVariant) /\
  (* check interaction with new columns settings, variants are new columns *)
  is_frozen (apply (mkModes evolve freeze evolve)) = true /\
  apply (mkModes evolve discard_row evolve) = Returns None None /\
  apply (mkModes evolve discard_value evolve)
    = Returns (Some test_data) (Some (set_columns test_variant_update [])).
Proof. repeat split. Qed.

Example test_resolve_contract_settings :
  let frozen := mkModes freeze freeze freeze in
  let single := SettingsMapping (Some freeze) (Some discard_value) None in
  let single_modes := mkModes freeze discard_value evolve in
  (* defaults *)
  resolve_contract_settings_for_table get_schema None "tables"
    = DEFAULT_SCHEMA_CONTRACT_MODE /\
  resolve_contract_settings_for_table get_schema (Some "tables") "child_table"
    = DEFAULT_SCHEMA_CONTRACT_MODE /\
  (* table specific full setting *)
  (let s := set_table_contract get_schema "tables" (SettingsAtom freeze) in
   resolve_contract_settings_for_table s None "tables" = frozen /\
   resolve_contract_settings_for_table s (Some "tables") "child_table" = frozen) /\
  (* table specific single setting *)
  (let s := set_table_contract get_schema "tables" single in
   resolve_contract_settings_for_table s None "tables" = single_modes /\
   resolve_contract_settings_for_table s (Some "tables") "child_table" = single_modes) /\
  (* schema specific full setting *)
  (let s := set_schema_contract get_schema (SettingsAtom freeze) in
   resolve_contract_settings_for_table s None "tables" = frozen /\
   resolve_contract_settings_for_table s (Some "tables") "child_table" = frozen) /\
  (* schema specific single setting *)
  (let s := set_schema_contract get_schema single in
   resolve_contract_settings_for_table s None "tables" = single_modes /\
   resolve_contract_settings_for_table s (Some "tables") "child_table" = single_modes) /\
  (* mixed settings *)
  resolve_contract_settings_for_table mixed_settings_schema None "tables"
    = mkModes evolve discard_value freeze /\
  resolve_contract_settings_for_table mixed_settings_schema (Some "tables") "child_table"
    = mkModes evolve discard_value freeze.
Proof. repeat split. Qed.

(** *** Mode resolution *)

Lemma overlay_slot slot base settings :
  mode_slot slot (overlay base settings) =
    match settings ≫= setting_slot slot with
    | Some m => m
    | None => mode_slot slot base
    end.
Proof.
  destruct settings as [[m|t c d]|]; destruct slot; reflexivity.
Qed.

(** C4, as stated, fails in its clause on partial mappings: in the mixed
    settings of the test (schema-level atom [freeze], table mapping
    [{tables: evolve, columns: discard_value}]) the slot the mapping does not
    name, [data_type], resolves to [freeze], not to [evolve]; completing the
    mapping with [evolve] first would give a different triple. *)
Lemma partial_mapping_counterexample :
  let table_settings := SettingsMapping (Some evolve) (Some discard_value) None in
  table_override mixed_settings_schema "tables" = Some table_settings /\
  setting_slot SlotDataType table_settings = None /\
  data_type (resolve_contract_settings_for_table mixed_settings_schema None "tables")
    = freeze /\
  data_type (resolve_contract_settings_for_table mixed_settings_schema None "tables")
    <> evolve /\
  resolve_contract_settings_for_table mixed_settings_schema None "tables"
    <> complete_settings table_settings.
Proof. repeat split; discriminate. Qed.

(** C4 (amended): [resolve_contract_settings_for_table] starts from
    [evolve/evolve/evolve] and overlays the schema-level override, then the
    parent table's override (if any), then the table's own: every slot takes
    the value of the innermost layer that sets it and is [evolve] when none
    does. An atom sets all three slots; a partial mapping leaves the slots
    it does not name at the value of the layers below. The mixed settings
    resolve to [{tables: evolve, columns: discard_value, data_type: freeze}],
    and a child table without an override of its own resolves to what its
    parent resolves to. *)
Theorem resolve_contract_settings_layers s parent_table table :
  (forall slot,
     mode_slot slot (resolve_contract_settings_for_table s parent_table table) =
     first_set slot [table_override s table;
                     parent_table ≫= table_override s;
                     settings_schema_contract s]) /\
  (forall m, table_override s table = Some (SettingsAtom m) ->
     resolve_contract_settings_for_table s parent_table table = mkModes m m m) /\
  (forall p, parent_table = Some p -> table_override s table = None ->
     resolve_contract_settings_for_table s parent_table table =
     resolve_contract_settings_for_table s None p) /\
  resolve_contract_settings_for_table mixed_settings_schema None "tables"
    = mkModes evolve discard_value freeze /\
  resolve_contract_settings_for_table mixed_settings_schema (Some "tables") "child_table"
    = mkModes evolve discard_value freeze.
Proof.
  split; [|split; [|split; [|split]]].
  - intros slot. unfold resolve_contract_settings_for_table. cbn [first_set].
    rewrite overlay_slot.
    destruct (table_override s table ≫= setting_slot slot); [done|].
    destruct parent_table as [p|]; cbn [mbind option_bind].
    + rewrite !overlay_slot.
      destruct (table_override s p ≫= setting_slot slot); [done|].
      destruct (settings_schema_contract s ≫= setting_slot slot); [done|].
      by destruct slot.
    + rewrite overlay_slot.
      destruct (settings_schema_contract s ≫= setting_slot slot); [done|].
      by destruct slot.
  - intros m Hm. unfold resolve_contract_settings_for_table. by rewrite Hm.
  - intros p -> Hnone. unfold resolve_contract_settings_for_table. by rewrite Hnone.
  - reflexivity.
  - reflexivity.
Qed.

(** The [table specific full setting] case of the test: an atom on
    [tables] reaches [child_table] through the parent. *)
Lemma resolve_contract_settings_layers_witness :
  let s := set_table_contract get_schema "tables" (SettingsAtom freeze) in
  resolve_contract_settings_for_table s None "tables" = mkModes freeze freeze freeze /\
  resolve_contract_settings_for_table s (Some "tables") "child_table"
    = mkModes freeze freeze freeze.
Proof.
  intros s.
  pose proof (resolve_contract_settings_layers s None "tables") as (_ & Hatom & _).
  pose proof (resolve_contract_settings_layers s (Some "tables") "child_table")
    as (_ & _ & Hchild & _).
  split.
  - apply Hatom. reflexivity.
  - rewrite (Hchild "tables") by reflexivity. apply Hatom. reflexivity.
Defined.

End ContractTheory.

(** ** Properties of the resolver *)

Module ResolveTheory.
Import Resolve.

Lemma length_removelast_pred (ns : list string) :
  length (removelast ns) = pred (length ns).
Proof.
  induction ns as [|a [|b ns] IH]; simpl in *; auto.
Qed.

Lemma peel_nil : peel [] = [[]].
Proof. reflexivity. Qed.

Lemma peel_cons (ns : list string) :
  ns <> [] -> peel ns = ns :: peel (removelast ns).
Proof.
  intros Hne. unfold peel. rewrite length_removelast_pred.
  destruct ns as [|a ns]; [congruence|]. reflexivity.
Qed.

Lemma add_events_nil st : add_events st [] = st.
Proof. destruct st. unfold add_events. simpl. by rewrite app_nil_r. Qed.

Lemma add_events_app st evs evs' :
  add_events (add_events st evs) evs' = add_events st (evs ++ evs').
Proof. unfold add_events. simpl. by rewrite <- app_assoc. Qed.

Lemma full_ns_wrap (prov : ConfigProvider) pn cfg (ns : list string) :
  (if (truthy_str pn || truthy_str cfg) && supports_sections prov
   then ((if truthy_str pn then [default EmptyString pn] else [])
         ++ ns ++
         (if truthy_str cfg then [default EmptyString cfg] else []))%list
   else ns) = full_ns_of prov pn cfg ns.
Proof.
  unfold full_ns_of, wrap, opt_section.
  destruct (supports_sections prov), (truthy_str pn), (truthy_str cfg);
    simpl; try reflexivity.
  by rewrite app_nil_r.
Qed.

(** One iteration of the [while] loop. *)
Lemma section_loop_eq fuel prov key h pn cfg ns traces st :
  section_loop fuel prov key h pn cfg ns traces st =
    let full_ns := full_ns_of prov pn cfg ns in
    let traces' :=
      if can_hold h prov
      then (traces ++ [trace_of key h (prov, full_ns)])%list else traces in
    let st' := add_events st [event_of key (prov, full_ns)] in
    match fst (get_value prov key h full_ns) with
    | Some v =>
        if can_hold h prov then (Ok (Some v, traces'), st')
        else (Raise (ValueNotSecretException (name prov)
                       (snd (get_value prov key h full_ns))), st')
    | None =>
        if Nat.eqb (length ns) 0 then (Ok (None, traces'), st')
        else match fuel with
             | O => (OutOfFuel, st')
             | S fuel' =>
                 section_loop fuel' prov key h pn cfg (removelast ns)
                   (if copies prov pn cfg then traces'
                    else List.map (with_sections (removelast ns)) traces') st'
             end
    end.
Proof.
  unfold can_hold, copies.
  destruct fuel; cbn [section_loop]; rewrite full_ns_wrap;
    unfold mbind, M_bind, call_get_value, trace_of, event_of, add_events;
    cbn [fst snd name];
    destruct (get_value prov key h (full_ns_of prov pn cfg ns)) as [[v|] k];
    cbn [fst snd];
    destruct (negb (supports_secrets prov) && is_secret_hint h);
    cbn [negb andb]; try reflexivity;
    destruct (Nat.eqb (length ns) 0); reflexivity.
Qed.

(** Where the provider is passed [ns] itself, that is what it is probed
    with. *)
Lemma full_ns_of_shared prov pn cfg ns :
  copies prov pn cfg = false -> full_ns_of prov pn cfg ns = ns.
Proof.
  unfold copies, full_ns_of, wrap, opt_section.
  destruct (supports_sections prov); [|reflexivity].
  destruct (truthy_str pn), (truthy_str cfg); try discriminate.
  intros _. cbn [app]. apply app_nil_r.
Qed.

Lemma with_sections_twice ns ns' t :
  with_sections ns (with_sections ns' t) = with_sections ns t.
Proof. reflexivity. Qed.

Lemma with_sections_own t : with_sections (trace_sections t) t = t.
Proof. by destruct t. Qed.

Lemma map_with_sections_twice ns ns' ts :
  List.map (with_sections ns) (List.map (with_sections ns') ts) =
  List.map (with_sections ns) ts.
Proof. rewrite List.map_map. apply List.map_ext. intros t. reflexivity. Qed.

Lemma map_with_sections_own ns ts :
  Forall (fun t => trace_sections t = ns) ts ->
  List.map (with_sections ns) ts = ts.
Proof.
  induction 1 as [|t ts Ht _ IH]; [reflexivity|].
  cbn [List.map]. rewrite IH. f_equal. rewrite <- Ht. apply with_sections_own.
Qed.

(** The [while] loop executes the plan [wrap pn cfg] over [peel ns] up to
    the first hit; [length ns] iterations are enough. *)
Lemma section_loop_plan fuel prov key h pn cfg ns traces st :
  supports_sections prov = true ->
  can_hold h prov = true ->
  copies prov pn cfg = true ->
  length ns <= fuel ->
  section_loop fuel prov key h pn cfg ns traces st =
    (Ok (snd (until_hit key h (provider_plan pn cfg ns prov)),
         (traces ++ List.map (trace_of key h)
                      (fst (until_hit key h (provider_plan pn cfg ns prov))))%list),
     add_events st (List.map (event_of key)
                      (fst (until_hit key h (provider_plan pn cfg ns prov))))).
Proof.
  intros Hsec Hhold Hcopy. revert ns traces st.
  induction fuel as [|fuel IH]; intros ns traces st Hlen;
    rewrite section_loop_eq; unfold full_ns_of; rewrite Hsec, Hhold, ?Hcopy; cbv zeta.
  - destruct ns; [|simpl in Hlen; lia].
    unfold provider_plan. rewrite peel_nil. cbn [List.map until_hit length Nat.eqb].
    destruct (fst (get_value prov key h (wrap pn cfg []))); reflexivity.
  - destruct (decide (ns = [])) as [->|Hne].
    + unfold provider_plan. rewrite peel_nil. cbn [List.map until_hit length Nat.eqb].
      destruct (fst (get_value prov key h (wrap pn cfg []))); reflexivity.
    + unfold provider_plan. rewrite (peel_cons ns Hne).
      cbn [List.map until_hit].
      destruct (fst (get_value prov key h (wrap pn cfg ns))) eqn:E; [reflexivity|].
      assert (Nat.eqb (length ns) 0 = false) as ->.
      { apply Nat.eqb_neq. destruct ns; [congruence|simpl; lia]. }
      rewrite IH by (rewrite length_removelast_pred; lia).
      unfold provider_plan.
      destruct (until_hit key h
                  (List.map (λ pre, (prov, wrap pn cfg pre)) (peel (removelast ns))))
        as [probed v'].
      cbn [fst snd List.map]. rewrite add_events_app, <- app_assoc. reflexivity.
Qed.

(** The same walk for a secret hint on a provider that cannot hold secrets:
    the first hit raises, and no trace is recorded. *)
Lemma section_loop_secret fuel prov key h pn cfg ns st :
  supports_sections prov = true ->
  can_hold h prov = false ->
  length ns <= fuel ->
  section_loop fuel prov key h pn cfg ns [] st =
    (match until_hit key h (provider_plan pn cfg ns prov) with
     | (probed, Some v) =>
         Raise (ValueNotSecretException (name prov)
                  (List.last (List.map (trace_key ∘ trace_of key h) probed) EmptyString))
     | (_, None) => Ok (None, [])
     end,
     add_events st (List.map (event_of key)
                      (fst (until_hit key h (provider_plan pn cfg ns prov))))).
Proof.
  intros Hsec Hhold. revert ns st.
  induction fuel as [|fuel IH]; intros ns st Hlen;
    rewrite section_loop_eq; unfold full_ns_of; rewrite Hsec, Hhold; cbv beta iota zeta.
  - destruct ns; [|simpl in Hlen; lia].
    unfold provider_plan. rewrite peel_nil. cbn [List.map until_hit length Nat.eqb].
    destruct (fst (get_value prov key h (wrap pn cfg []))); reflexivity.
  - destruct (decide (ns = [])) as [->|Hne].
    + unfold provider_plan. rewrite peel_nil. cbn [List.map until_hit length Nat.eqb].
      destruct (fst (get_value prov key h (wrap pn cfg []))); reflexivity.
    + unfold provider_plan. rewrite (peel_cons ns Hne).
      cbn [List.map until_hit].
      destruct (fst (get_value prov key h (wrap pn cfg ns))) eqn:E; [reflexivity|].
      assert (Nat.eqb (length ns) 0 = false) as ->.
      { apply Nat.eqb_neq. destruct ns; [congruence|simpl; lia]. }
      assert ((if copies prov pn cfg then [] else []) = @nil LookupTrace) as ->
        by (by destruct (copies prov pn cfg)).
      rewrite IH by (rewrite length_removelast_pred; lia).
      unfold provider_plan.
      destruct (until_hit key h
                  (List.map (λ pre, (prov, wrap pn cfg pre)) (peel (removelast ns))))
        as [probed [v'|]] eqn:EU.
      * cbn [fst snd List.map]. rewrite add_events_app. f_equal. f_equal. f_equal.
        destruct probed as [|pr probed]; [|reflexivity].
        exfalso. clear -EU.
        destruct (peel (removelast ns)) as [|x l]; simpl in EU; [congruence|].
        destruct (fst (get_value prov key h (wrap pn cfg x))); [congruence|].
        destruct (until_hit key h _); congruence.
      * cbn [fst snd List.map]. rewrite add_events_app. reflexivity.
Qed.

Lemma until_hit_app key h plan plan' :
  until_hit key h (plan ++ plan') =
    match until_hit key h plan with
    | (probed, Some v) => (probed, Some v)
    | (probed, None) =>
        ((probed ++ fst (until_hit key h plan'))%list, snd (until_hit key h plan'))
    end.
Proof.
  induction plan as [|[prov full_ns] plan IH]; simpl.
  - by destruct (until_hit key h plan').
  - destruct (fst (get_value prov key h full_ns)); [reflexivity|].
    rewrite IH. destruct (until_hit key h plan) as [probed [v|]]; reflexivity.
Qed.

Lemma resolve_single_provider_value_plan prov key h pn cfg es ems st :
  walkable h prov ->
  truthy_str cfg = true ->
  resolve_single_provider_value prov key h pn cfg es ems st =
    (Ok (snd (until_hit key h (provider_plan pn cfg (es ++ ems) prov)),
         List.map (trace_of key h)
           (fst (until_hit key h (provider_plan pn cfg (es ++ ems) prov)))),
     add_events st (List.map (event_of key)
                      (fst (until_hit key h (provider_plan pn cfg (es ++ ems) prov))))).
Proof.
  intros [Hsec Hhold] Hcfg. unfold resolve_single_provider_value. rewrite Hsec.
  rewrite section_loop_plan; [reflexivity|done|done| |done].
  unfold copies. by rewrite Hcfg, Hsec, orb_true_r.
Qed.

Lemma for_providers_plan ps key h pn cfg es ems traces st :
  Forall (walkable h) ps ->
  truthy_str cfg = true ->
  for_providers ps key h pn cfg es ems traces st =
    (Ok (snd (until_hit key h (probe_plan ps pn cfg (es ++ ems))),
         (traces ++ List.map (trace_of key h)
                      (fst (until_hit key h (probe_plan ps pn cfg (es ++ ems)))))%list),
     add_events st (List.map (event_of key)
                      (fst (until_hit key h (probe_plan ps pn cfg (es ++ ems)))))).
Proof.
  intros Hall Hcfg. revert traces st.
  induction Hall as [|prov ps Hprov Hall IH]; intros traces st.
  - simpl. unfold mret, M_ret. by rewrite app_nil_r, add_events_nil.
  - cbn [for_providers probe_plan List.flat_map].
    unfold mbind, M_bind. rewrite resolve_single_provider_value_plan by done.
    rewrite until_hit_app.
    destruct (until_hit key h (provider_plan pn cfg (es ++ ems) prov))
      as [probed [v|]]; cbn [fst snd].
    + reflexivity.
    + cbn [bool_decide]. rewrite bool_decide_eq_false_2 by (intros H; by apply H).
      fold (probe_plan ps pn cfg (es ++ ems)).
      rewrite IH, add_events_app, !List.map_app, <- app_assoc. reflexivity.
Qed.

Lemma _resolve_single_value_plan C key h cfg es ems st :
  providers C <> [] ->
  Forall (walkable h) (providers C) ->
  truthy_str (fst (_apply_embedded_sections_to_config_sections cfg ems)) = true ->
  _resolve_single_value C key h InnerAny cfg es ems st =
    (Ok (snd (until_hit key h (resolution_plan C cfg es ems)),
         List.map (trace_of key h) (fst (until_hit key h (resolution_plan C cfg es ems)))),
     add_events st (List.map (event_of key)
                      (fst (until_hit key h (resolution_plan C cfg es ems))))).
Proof.
  intros Hne Hall Hcfg.
  unfold _resolve_single_value, resolution_plan. cbn [is_context_inner_hint
    is_base_configuration_inner_hint].
  destruct (_apply_embedded_sections_to_config_sections cfg ems) as [cfg' ems'].
  cbn [fst] in Hcfg.
  set (outer := match es with [] => sections C | _ :: _ => es end).
  assert (Hlook : forall pn traces st0,
    look_sections (providers C) key h pn cfg' outer ems' traces st0 =
    for_providers (providers C) key h pn cfg' outer ems' traces st0).
  { intros. unfold look_sections. destruct (providers C); [congruence|reflexivity]. }
  unfold mbind, M_bind.
  destruct (truthy_str (pipeline_name C)).
  - rewrite Hlook, for_providers_plan by done. rewrite until_hit_app.
    destruct (until_hit key h (probe_plan (providers C) (pipeline_name C) cfg' (outer ++ ems')))
      as [probed [v|]]; cbn [fst snd app].
    + reflexivity.
    + rewrite bool_decide_eq_true_2 by done.
      rewrite Hlook, for_providers_plan by done.
      rewrite add_events_app, !List.map_app. reflexivity.
  - unfold mret, M_ret. rewrite bool_decide_eq_true_2 by done.
    rewrite Hlook, for_providers_plan by done. reflexivity.
Qed.

(** *** The order of the probes, whatever the providers can hold *)

Lemma section_loop_events fuel prov key h pn cfg : forall ns traces st,
  supports_sections prov = true ->
  length ns <= fuel ->
  let probed := until_hit key h (provider_plan pn cfg ns prov) in
  let run := section_loop fuel prov key h pn cfg ns traces st in
  snd run = add_events st (List.map (event_of key) (fst probed)) /\
  (snd probed = None -> exists tr, fst run = Ok (None, tr)) /\
  (snd probed <> None -> hit_outcome (fst run)).
Proof.
  assert (Hlast : forall fuel0 traces st,
    supports_sections prov = true ->
    let probed := until_hit key h (provider_plan pn cfg [] prov) in
    let run := section_loop fuel0 prov key h pn cfg [] traces st in
    snd run = add_events st (List.map (event_of key) (fst probed)) /\
    (snd probed = None -> exists tr, fst run = Ok (None, tr)) /\
    (snd probed <> None -> hit_outcome (fst run))).
  { intros fuel0 traces st Hsec. cbv zeta. rewrite section_loop_eq.
    unfold full_ns_of. rewrite Hsec. cbv zeta.
    unfold provider_plan. rewrite peel_nil. cbn [List.map until_hit length Nat.eqb].
    destruct (fst (get_value prov key h (wrap pn cfg []))) as [v|]; cbn [fst snd].
    - destruct (can_hold h prov); cbn [fst snd];
        (split; [done|]); (split; [done|]); intros _; [left|right]; eauto.
    - split; [done|]. split; [eauto|done]. }
  induction fuel as [|fuel IH]; intros ns traces st Hsec Hlen.
  - destruct ns; [|simpl in Hlen; lia]. by apply Hlast.
  - destruct (decide (ns = [])) as [->|Hne]; [by apply Hlast|].
    cbv zeta. rewrite section_loop_eq. unfold full_ns_of. rewrite Hsec. cbv zeta.
    unfold provider_plan. rewrite (peel_cons ns Hne). cbn [List.map until_hit].
    destruct (fst (get_value prov key h (wrap pn cfg ns))) as [v|] eqn:E; cbn [fst snd].
    + destruct (can_hold h prov); cbn [fst snd];
        (split; [done|]); (split; [done|]); intros _; [left|right]; eauto.
    + assert (Nat.eqb (length ns) 0 = false) as ->.
      { apply Nat.eqb_neq. destruct ns; [congruence|simpl; lia]. }
      match goal with
      | |- context [section_loop fuel prov key h pn cfg (removelast ns) ?tr ?s] =>
          destruct (IH (removelast ns) tr s Hsec) as (Hst & Hnone & Hhit)
      end.
      { rewrite length_removelast_pred. lia. }
      unfold provider_plan in Hst, Hnone, Hhit.
      destruct (until_hit key h
                  (List.map (λ pre, (prov, wrap pn cfg pre)) (peel (removelast ns))))
        as [probed v']. cbn [fst snd] in *.
      rewrite Hst, add_events_app. done.
Qed.

Lemma resolve_single_provider_value_events prov key h pn cfg es ems st :
  supports_sections prov = true ->
  let probed := until_hit key h (provider_plan pn cfg (es ++ ems) prov) in
  let run := resolve_single_provider_value prov key h pn cfg es ems st in
  snd run = add_events st (List.map (event_of key) (fst probed)) /\
  (snd probed = None -> exists tr, fst run = Ok (None, tr)) /\
  (snd probed <> None -> hit_outcome (fst run)).
Proof.
  intros Hsec probed run. subst probed run.
  unfold resolve_single_provider_value. rewrite Hsec.
  by apply section_loop_events.
Qed.

Lemma for_providers_events ps key h pn cfg es ems : forall traces st,
  Forall (fun prov => supports_sections prov = true) ps ->
  let probed := until_hit key h (probe_plan ps pn cfg (es ++ ems)) in
  let run := for_providers ps key h pn cfg es ems traces st in
  snd run = add_events st (List.map (event_of key) (fst probed)) /\
  (snd probed = None -> exists tr, fst run = Ok (None, tr)) /\
  (snd probed <> None -> hit_outcome (fst run)).
Proof.
  induction ps as [|prov ps IH]; intros traces st Hall.
  - cbn. rewrite add_events_nil. split; [done|]. split; [eauto|done].
  - apply Forall_cons in Hall as [Hsec Hall].
    cbn [for_providers probe_plan List.flat_map].
    fold (probe_plan ps pn cfg (es ++ ems)).
    rewrite until_hit_app.
    destruct (resolve_single_provider_value_events prov key h pn cfg es ems st Hsec)
      as (Hst & Hnone & Hhit).
    unfold mbind, M_bind.
    destruct (resolve_single_provider_value prov key h pn cfg es ems st) as [r st1].
    cbn [fst snd] in *. subst st1.
    destruct (until_hit key h (provider_plan pn cfg (es ++ ems) prov)) as [probed [v|]];
      cbn [fst snd] in *.
    + destruct Hhit as [(v' & tr & ->)|(e & ->)]; [done| |].
      * rewrite bool_decide_eq_true_2 by done. cbn [fst snd].
        split; [done|]. split; [done|]. intros _. left. eauto.
      * cbn [fst snd]. split; [done|]. split; [done|]. intros _. right. eauto.
    + destruct Hnone as [tr ->]; [done|].
      rewrite bool_decide_eq_false_2 by (intros H; by apply H).
      destruct (IH (traces ++ tr)%list
                  (add_events st (List.map (event_of key) probed)) Hall)
        as (Hst' & Hnone' & Hhit').
      rewrite Hst', add_events_app, List.map_app. done.
Qed.

(** The probes of [_resolve_single_value] for a scalar hint follow the
    resolution plan up to its first hit, also when the hit raises. *)
Lemma _resolve_single_value_events C key h cfg es ems st :
  providers C <> [] ->
  Forall (fun prov => supports_sections prov = true) (providers C) ->
  snd (_resolve_single_value C key h InnerAny cfg es ems st) =
  add_events st (List.map (event_of key)
                   (fst (until_hit key h (resolution_plan C cfg es ems)))).
Proof.
  intros Hne Hall.
  unfold _resolve_single_value, resolution_plan. cbn [is_context_inner_hint
    is_base_configuration_inner_hint].
  destruct (_apply_embedded_sections_to_config_sections cfg ems) as [cfg' ems'].
  set (outer := match es with [] => sections C | _ :: _ => es end).
  assert (Hlook : forall pn traces st0,
    look_sections (providers C) key h pn cfg' outer ems' traces st0 =
    for_providers (providers C) key h pn cfg' outer ems' traces st0).
  { intros. unfold look_sections. destruct (providers C); [congruence|reflexivity]. }
  unfold mbind, M_bind.
  destruct (truthy_str (pipeline_name C)).
  - rewrite Hlook, until_hit_app.
    destruct (for_providers_events (providers C) key h (pipeline_name C) cfg' outer ems'
                [] st Hall) as (Hst & Hnone & Hhit).
    destruct (for_providers (providers C) key h (pipeline_name C) cfg' outer ems' [] st)
      as [r st1]. cbn [fst snd] in *. subst st1.
    destruct (until_hit key h (probe_plan (providers C) (pipeline_name C) cfg' (outer ++ ems')))
      as [probed [v|]]; cbn [fst snd] in *.
    + destruct Hhit as [(v' & tr & ->)|(e & ->)]; [done| |].
      * by rewrite bool_decide_eq_false_2 by discriminate.
      * done.
    + destruct Hnone as [tr ->]; [done|].
      rewrite bool_decide_eq_true_2 by done. rewrite Hlook.
      destruct (for_providers_events (providers C) key h None cfg' outer ems' tr
                  (add_events st (List.map (event_of key) probed)) Hall) as (Hst' & _).
      rewrite Hst', add_events_app, List.map_app. done.
  - unfold mret, M_ret. rewrite bool_decide_eq_true_2 by done. rewrite Hlook.
    destruct (for_providers_events (providers C) key h None cfg' outer ems' []
                st Hall) as (Hst' & _).
    exact Hst'.
Qed.

(** C2, as stated, fails: with a provider that holds nothing, the probes
    for key [k] under pipeline [pipe], sections [s1], [s2] and config
    section [cfg] are the six prefixes of [code_section_walk]; the config
    section is never dropped and the bare [(cfg)] probe comes last, so the
    log differs from the eight-element order of the specification. *)
Lemma section_walk_counterexample :
  let C := mkContainer [silent_provider "env"] (silent_provider "context")
                       (Some "pipe") [] in
  let st := snd (_resolve_single_value C "k" AnyType InnerAny (Some "cfg")
                   ["s1"; "s2"] [] empty_store) in
  probed_sections (events st) = code_section_walk "pipe" "s1" "s2" "cfg" /\
  probed_sections (events st) <> spec_section_walk "pipe" "s1" "s2" "cfg".
Proof. split; [reflexivity | discriminate]. Qed.

(** C2 (amended): a scalar field [k] resolved via providers that support
    sections, under pipeline name [p], explicit sections [s1], [s2] and
    config section [cfg], is probed in the order (p,s1,s2,cfg), (p,s1,cfg),
    (p,cfg) on every provider in turn, then (s1,s2,cfg), (s1,cfg), (cfg) on
    every provider in turn: an outer-to-inner peel of the optional sections
    with the pipeline name in front and the config section last, followed by
    the same peel without the pipeline name. The walk stops at the first
    value that is not [None]; when the providers can hold the hint, that
    value is returned and every probe is traced. *)
Theorem section_walk_order C k h p s1 s2 cfg st :
  providers C <> [] ->
  Forall (fun prov => supports_sections prov = true) (providers C) ->
  pipeline_name C = Some p -> p <> EmptyString -> cfg <> EmptyString ->
  let plan := code_probe_plan (providers C) p s1 s2 cfg in
  let run := _resolve_single_value C k h InnerAny (Some cfg) [s1; s2] [] st in
  events (snd run) = (events st ++ List.map (event_of k) (fst (until_hit k h plan)))%list /\
  (Forall (fun prov => can_hold h prov = true) (providers C) ->
   fst run = Ok (snd (until_hit k h plan),
                 List.map (trace_of k h) (fst (until_hit k h plan)))).
Proof.
  intros Hne Hsec Hp Hpne Hcne plan run.
  assert (Hplan : resolution_plan C (Some cfg) [s1; s2] [] = plan).
  { unfold resolution_plan, plan, code_probe_plan. rewrite Hp.
    cbn [_apply_embedded_sections_to_config_sections List.filter truthy_str].
    apply String.eqb_neq in Hpne, Hcne. rewrite Hpne. cbn [negb].
    unfold probe_plan. f_equal; apply List.flat_map_ext; intros prov;
      unfold provider_plan, wrap, opt_section; cbn [truthy_str];
      rewrite ?Hpne, Hcne; reflexivity. }
  subst run. split.
  - rewrite _resolve_single_value_events by done. by rewrite Hplan.
  - intros Hhold. rewrite _resolve_single_value_plan; [by rewrite Hplan|done| |].
    + apply Forall_forall. intros prov Hin. split.
      * by apply (proj1 (Forall_forall _ _) Hsec).
      * by apply (proj1 (Forall_forall _ _) Hhold).
    + cbn [_apply_embedded_sections_to_config_sections fst truthy_str].
      apply String.eqb_neq in Hcne. by rewrite Hcne.
Qed.

Lemma section_walk_order_witness :
  probed_sections
    (events (snd (_resolve_single_value
                    (mkContainer [silent_provider "env"] (silent_provider "context")
                                 (Some "pipe") [])
                    "k" AnyType InnerAny (Some "cfg") ["s1"; "s2"] [] empty_store))) =
  code_section_walk "pipe" "s1" "s2" "cfg".
Proof.
  rewrite (proj1 (section_walk_order
                    (mkContainer [silent_provider "env"] (silent_provider "context")
                                 (Some "pipe") [])
                    "k" AnyType "pipe" "s1" "s2" "cfg" empty_store
                    ltac:(discriminate)
                    ltac:(repeat constructor)
                    eq_refl ltac:(discriminate) ltac:(discriminate))).
  reflexivity.
Defined.

(** *** The secret gate *)

Lemma section_loop_gate fuel prov key h pn cfg ns st :
  can_hold h prov = false ->
  length ns <= fuel ->
  fst (section_loop fuel prov key h pn cfg ns [] st) =
    match first_hit key h
            (List.map (fun pre => (prov, full_ns_of prov pn cfg pre)) (peel ns)) with
    | Some (_, _, _, ns_key) => Raise (ValueNotSecretException (name prov) ns_key)
    | None => Ok (None, [])
    end.
Proof.
  intros Hhold. revert ns st.
  induction fuel as [|fuel IH]; intros ns st Hlen;
    rewrite section_loop_eq; rewrite Hhold; cbv beta iota zeta.
  - destruct ns; [|simpl in Hlen; lia].
    rewrite peel_nil. cbn [List.map first_hit length Nat.eqb].
    destruct (get_value prov key h (full_ns_of prov pn cfg [])) as [[v|] k]; reflexivity.
  - destruct (decide (ns = [])) as [->|Hne].
    + rewrite peel_nil. cbn [List.map first_hit length Nat.eqb].
      destruct (get_value prov key h (full_ns_of prov pn cfg [])) as [[v|] k]; reflexivity.
    + rewrite (peel_cons ns Hne). cbn [List.map first_hit].
      destruct (get_value prov key h (full_ns_of prov pn cfg ns)) as [[v|] k];
        cbn [fst snd]; [reflexivity|].
      assert (Nat.eqb (length ns) 0 = false) as ->.
      { apply Nat.eqb_neq. destruct ns; [congruence|simpl; lia]. }
      assert ((if copies prov pn cfg then [] else []) = @nil LookupTrace) as ->
        by (by destruct (copies prov pn cfg)).
      apply IH. rewrite length_removelast_pred. lia.
Qed.

Lemma single_provider_plan_full_ns prov pn cfg ns :
  supports_sections prov = true ->
  List.map (fun pre => (prov, full_ns_of prov pn cfg pre)) (peel ns) =
  single_provider_plan prov pn cfg ns.
Proof.
  intros Hsec. unfold single_provider_plan, provider_plan, full_ns_of.
  by rewrite Hsec.
Qed.

Lemma resolve_single_provider_value_gate prov key h pn cfg es ems st :
  can_hold h prov = false ->
  fst (resolve_single_provider_value prov key h pn cfg es ems st) =
    match first_hit key h (single_provider_plan prov pn cfg (es ++ ems)) with
    | Some (_, _, _, ns_key) => Raise (ValueNotSecretException (name prov) ns_key)
    | None => Ok (None, [])
    end.
Proof.
  intros Hhold. unfold resolve_single_provider_value.
  destruct (supports_sections prov) eqn:Hsec.
  - rewrite section_loop_gate by done.
    by rewrite single_provider_plan_full_ns.
  - unfold single_provider_plan. rewrite Hsec.
    destruct (truthy_str pn); [reflexivity|].
    rewrite section_loop_gate by (simpl; done).
    rewrite peel_nil. unfold full_ns_of. by rewrite Hsec.
Qed.

(** Whatever the provider, a value that the loop returns was read from a
    provider that can hold it. *)
Lemma section_loop_value fuel prov key h pn cfg ns traces st v traces' st' :
  section_loop fuel prov key h pn cfg ns traces st = (Ok (Some v, traces'), st') ->
  can_hold h prov = true /\
  exists full_ns, fst (get_value prov key h full_ns) = Some v.
Proof.
  revert ns traces st.
  induction fuel as [|fuel IH]; intros ns traces st; rewrite section_loop_eq; cbv zeta;
    destruct (fst (get_value prov key h (full_ns_of prov pn cfg ns))) as [v0|] eqn:E.
  - destruct (can_hold h prov); [|discriminate].
    intros [= <- _ _]. eauto.
  - destruct (Nat.eqb (length ns) 0); discriminate.
  - destruct (can_hold h prov); [|discriminate].
    intros [= <- _ _]. eauto.
  - destruct (Nat.eqb (length ns) 0); [discriminate|]. apply IH.
Qed.

Lemma resolve_single_provider_value_value prov key h pn cfg es ems st v traces st' :
  resolve_single_provider_value prov key h pn cfg es ems st = (Ok (Some v, traces), st') ->
  can_hold h prov = true /\
  exists full_ns, fst (get_value prov key h full_ns) = Some v.
Proof.
  unfold resolve_single_provider_value.
  destruct (supports_sections prov).
  - apply section_loop_value.
  - destruct (truthy_str pn); [discriminate|]. apply section_loop_value.
Qed.

Lemma for_providers_value ps key h pn cfg es ems traces st v traces' st' :
  for_providers ps key h pn cfg es ems traces st = (Ok (Some v, traces'), st') ->
  exists prov full_ns,
    In prov ps /\ can_hold h prov = true /\
    fst (get_value prov key h full_ns) = Some v.
Proof.
  revert traces st.
  induction ps as [|prov ps IH]; intros traces st; cbn [for_providers].
  - discriminate.
  - unfold mbind, M_bind.
    destruct (resolve_single_provider_value prov key h pn cfg es ems st)
      as [[[[v0|] tr]| |] st0] eqn:E; try discriminate.
    + rewrite bool_decide_eq_true_2 by done. intros [= <- _ _].
      apply resolve_single_provider_value_value in E as [Hh [full_ns Hv]].
      exists prov, full_ns. repeat split; [by left|done|done].
    + rewrite bool_decide_eq_false_2 by (intros H; by apply H).
      intros H. apply IH in H as (prov' & full_ns & Hin & Hh & Hv).
      exists prov', full_ns. repeat split; [by right|done|done].
Qed.

Lemma look_sections_value ps key h pn cfg es ems traces st v traces' st' :
  look_sections ps key h pn cfg es ems traces st = (Ok (Some v, traces'), st') ->
  exists prov full_ns,
    In prov ps /\ can_hold h prov = true /\
    fst (get_value prov key h full_ns) = Some v.
Proof.
  unfold look_sections. destruct ps; [discriminate|]. apply for_providers_value.
Qed.

(** C3: for a secret-typed hint and a provider without secret support,
    [resolve_single_provider_value] raises [ValueNotSecretException] with
    the provider name and the effective key at the first probe that yields
    a value, and returns no value otherwise; and whatever the providers, a
    value that [_resolve_single_value] returns for a secret-typed scalar
    field was read from a provider that supports secrets. *)
Theorem secret_value_gate (h : hint) :
  is_secret_hint h = true ->
  (forall prov key pn cfg es ems st,
     supports_secrets prov = false ->
     fst (resolve_single_provider_value prov key h pn cfg es ems st) =
       match first_hit key h (single_provider_plan prov pn cfg (es ++ ems)) with
       | Some (_, _, _, ns_key) => Raise (ValueNotSecretException (name prov) ns_key)
       | None => Ok (None, [])
       end) /\
  (forall C key cfg es ems st v traces st',
     _resolve_single_value C key h InnerAny cfg es ems st = (Ok (Some v, traces), st') ->
     exists prov full_ns,
       In prov (providers C) /\ supports_secrets prov = true /\
       fst (get_value prov key h full_ns) = Some v).
Proof.
  intros Hsecret. split.
  - intros prov key pn cfg es ems st Hns.
    apply resolve_single_provider_value_gate.
    unfold can_hold. by rewrite Hns, Hsecret.
  - intros C key cfg es ems st v traces st'.
    unfold _resolve_single_value.
    cbn [is_context_inner_hint is_base_configuration_inner_hint].
    destruct (_apply_embedded_sections_to_config_sections cfg ems) as [cfg' ems'].
    set (outer := match es with [] => sections C | _ :: _ => es end).
    assert (Hcan : forall prov, can_hold h prov = true -> supports_secrets prov = true).
    { intros prov. unfold can_hold. rewrite Hsecret.
      destruct (supports_secrets prov); [done|discriminate]. }
    unfold mbind, M_bind.
    destruct (truthy_str (pipeline_name C)).
    + destruct (look_sections (providers C) key h (pipeline_name C) cfg' outer ems' [] st)
        as [[[[v0|] tr]| |] st0] eqn:E; try discriminate.
      * rewrite bool_decide_eq_false_2 by discriminate.
        unfold mret, M_ret. intros [= <- _ _].
        apply look_sections_value in E as (prov & full_ns & Hin & Hh & Hv).
        exists prov, full_ns. auto.
      * rewrite bool_decide_eq_true_2 by done. intros H.
        apply look_sections_value in H as (prov & full_ns & Hin & Hh & Hv).
        exists prov, full_ns. auto.
    + unfold mret, M_ret. rewrite bool_decide_eq_true_2 by done. intros H.
      apply look_sections_value in H as (prov & full_ns & Hin & Hh & Hv).
      exists prov, full_ns. auto.
Qed.

(** The secret gate on the [file] provider that holds [PASSWORD]. *)
Lemma secret_value_gate_witness :
  fst (resolve_single_provider_value file_provider "password" TSecretValue
         None None [] [] empty_store) =
  Raise (ValueNotSecretException "file" "PASSWORD").
Proof.
  rewrite (proj1 (secret_value_gate TSecretValue eq_refl)); reflexivity.
Defined.

(** *** Lookups leave the configuration instances alone *)

Lemma section_loop_heap fuel prov key h pn cfg : forall ns traces st,
  heap (snd (section_loop fuel prov key h pn cfg ns traces st)) = heap st.
Proof.
  induction fuel as [|fuel IH]; intros ns traces st; rewrite section_loop_eq; cbv zeta;
    destruct (fst (get_value prov key h (full_ns_of prov pn cfg ns)));
    destruct (can_hold h prov); destruct (Nat.eqb (length ns) 0);
    try reflexivity; by rewrite IH.
Qed.

Lemma resolve_single_provider_value_heap prov key h pn cfg es ems st :
  heap (snd (resolve_single_provider_value prov key h pn cfg es ems st)) = heap st.
Proof.
  unfold resolve_single_provider_value.
  destruct (supports_sections prov); [apply section_loop_heap|].
  destruct (truthy_str pn); [reflexivity|apply section_loop_heap].
Qed.

Lemma for_providers_heap ps key h pn cfg es ems : forall traces st,
  heap (snd (for_providers ps key h pn cfg es ems traces st)) = heap st.
Proof.
  induction ps as [|prov ps IH]; intros traces st; [reflexivity|].
  cbn [for_providers]. unfold mbind, M_bind.
  pose proof (resolve_single_provider_value_heap prov key h pn cfg es ems st) as Hh.
  destruct (resolve_single_provider_value prov key h pn cfg es ems st)
    as [[[v tr]| |] st1]; cbn [snd] in *; try done.
  destruct (bool_decide (v ≠ None)); [done|]. by rewrite IH.
Qed.

Lemma look_sections_heap ps key h pn cfg es ems traces st :
  heap (snd (look_sections ps key h pn cfg es ems traces st)) = heap st.
Proof.
  unfold look_sections. destruct ps; [reflexivity|apply for_providers_heap].
Qed.

Lemma _resolve_single_value_heap C key h inner cfg es ems st :
  heap (snd (_resolve_single_value C key h inner cfg es ems st)) = heap st.
Proof.
  unfold _resolve_single_value.
  destruct (is_context_inner_hint inner).
  { unfold mbind, M_bind, call_get_value.
    by destruct (get_value (context_provider C) key (hint_of_inner inner) []). }
  destruct (is_base_configuration_inner_hint inner); [reflexivity|].
  destruct (_apply_embedded_sections_to_config_sections cfg ems) as [cfg' ems'].
  unfold mbind, M_bind.
  destruct (truthy_str (pipeline_name C)).
  - match goal with |- context [look_sections ?ps ?k ?h ?pn ?c ?o ?e ?t st] =>
      pose proof (look_sections_heap ps k h pn c o e t st) as Hh;
      destruct (look_sections ps k h pn c o e t st) as [[[v tr]| |] st1]
    end; cbn [snd] in *; try done.
    destruct (bool_decide (v = None)); [|done].
    by rewrite look_sections_heap.
  - unfold mret, M_ret. rewrite bool_decide_eq_true_2 by done.
    apply look_sections_heap.
Qed.

(** *** Lookups return: the walk never runs out of fuel *)

Lemma section_loop_returns fuel prov key h pn cfg : forall ns traces st,
  length ns <= fuel ->
  fst (section_loop fuel prov key h pn cfg ns traces st) <> OutOfFuel.
Proof.
  induction fuel as [|fuel IH]; intros ns traces st Hlen; rewrite section_loop_eq;
    cbv zeta;
    destruct (fst (get_value prov key h (full_ns_of prov pn cfg ns)));
    destruct (can_hold h prov); try discriminate.
  - destruct ns; [discriminate|simpl in Hlen; lia].
  - destruct ns; [discriminate|simpl in Hlen; lia].
  - destruct (Nat.eqb (length ns) 0); [discriminate|].
    apply IH. rewrite length_removelast_pred. lia.
  - destruct (Nat.eqb (length ns) 0); [discriminate|].
    apply IH. rewrite length_removelast_pred. lia.
Qed.

Lemma resolve_single_provider_value_returns prov key h pn cfg es ems st :
  fst (resolve_single_provider_value prov key h pn cfg es ems st) <> OutOfFuel.
Proof.
  unfold resolve_single_provider_value.
  destruct (supports_sections prov); [by apply section_loop_returns|].
  destruct (truthy_str pn); [discriminate|by apply section_loop_returns].
Qed.

Lemma for_providers_returns ps key h pn cfg es ems : forall traces st,
  fst (for_providers ps key h pn cfg es ems traces st) <> OutOfFuel.
Proof.
  induction ps as [|prov ps IH]; intros traces st; [discriminate|].
  cbn [for_providers]. unfold mbind, M_bind.
  pose proof (resolve_single_provider_value_returns prov key h pn cfg es ems st) as Hr.
  destruct (resolve_single_provider_value prov key h pn cfg es ems st)
    as [[[v tr]| |] st1]; cbn [fst] in *; try done.
  destruct (bool_decide (v ≠ None)); [discriminate|]. apply IH.
Qed.

Lemma look_sections_returns ps key h pn cfg es ems traces st :
  fst (look_sections ps key h pn cfg es ems traces st) <> OutOfFuel.
Proof.
  unfold look_sections. destruct ps; [discriminate|apply for_providers_returns].
Qed.

Lemma _resolve_single_value_returns C key h inner cfg es ems st st' :
  _resolve_single_value C key h inner cfg es ems st <> (OutOfFuel, st').
Proof.
  intros Hrun.
  assert (Hfst : fst (_resolve_single_value C key h inner cfg es ems st) = OutOfFuel)
    by (by rewrite Hrun).
  revert Hfst. clear Hrun. unfold _resolve_single_value.
  destruct (is_context_inner_hint inner).
  { unfold mbind, M_bind, call_get_value.
    by destruct (get_value (context_provider C) key (hint_of_inner inner) []). }
  destruct (is_base_configuration_inner_hint inner); [discriminate|].
  destruct (_apply_embedded_sections_to_config_sections cfg ems) as [cfg' ems'].
  unfold mbind, M_bind.
  destruct (truthy_str (pipeline_name C)).
  - match goal with |- context [look_sections ?ps ?k ?h ?pn ?c ?o ?e ?t st] =>
      pose proof (look_sections_returns ps k h pn c o e t st) as Hr;
      destruct (look_sections ps k h pn c o e t st) as [[[v tr]| |] st1]
    end; cbn [fst] in *; try done.
    destruct (bool_decide (v = None)); [|discriminate].
    apply look_sections_returns.
  - unfold mret, M_ret. rewrite bool_decide_eq_true_2 by done.
    apply look_sections_returns.
Qed.

(** *** Resolved configurations *)

Section Resolved.

Variable classes : class_name -> configspec.
Variable C : Container.
Variable deserialize_value : string -> value -> inner_hint -> exn + value.

Lemma _resolve_configuration_resolved fuel config es ems ev ap st self :
  heap st !! config = Some self ->
  is_resolved self = true ->
  _resolve_configuration classes C deserialize_value fuel config es ems ev ap st
    = (Ok config, st).
Proof.
  intros Hself Hres.
  destruct fuel; cbn [_resolve_configuration];
    unfold mbind, M_bind, deref; rewrite Hself, Hres; reflexivity.
Qed.

(** C8: [_resolve_configuration] on a configuration whose [is_resolved()]
    is true returns the same instance and leaves the store as it was: no
    provider is probed, no hook or parser is called, no field or flag of
    any configuration changes, whatever the arguments; and so does any
    sequence of such requests. *)
Theorem resolved_configuration_is_not_resolved_again config st self :
  heap st !! config = Some self ->
  is_resolved self = true ->
  (forall fuel es ems ev ap,
     _resolve_configuration classes C deserialize_value fuel config es ems ev ap st
       = (Ok config, st)) /\
  (forall requests,
     resolve_all classes C deserialize_value config requests st
       = (List.map (fun _ => Ok config) requests, st)).
Proof.
  intros Hself Hres. split.
  - intros. by eapply _resolve_configuration_resolved.
  - induction requests as [|r rest IH]; [reflexivity|].
    cbn [resolve_all List.map].
    rewrite (_resolve_configuration_resolved _ _ _ _ _ _ _ self) by done.
    by rewrite IH.
Qed.

(** **** A request that succeeds leaves the instance resolved *)

Lemma bind_Ok {A B} (m : M A) (f : A -> M B) st b st' :
  (m ≫= f) st = (Ok b, st') ->
  exists a st1, m st = (Ok a, st1) /\ f a st1 = (Ok b, st').
Proof.
  unfold mbind, M_bind. destruct (m st) as [[a| |] st1]; try discriminate. eauto.
Qed.

Lemma try_except_Ok {A} (m : M A) (h : exn -> M A) st a st' :
  try_except m h st = (Ok a, st') ->
  m st = (Ok a, st') \/ exists e st1, m st = (Raise e, st1) /\ h e st1 = (Ok a, st').
Proof.
  unfold try_except. destruct (m st) as [[a0| |] st1]; try discriminate; eauto.
Qed.

Lemma update_Ok l f st u st' :
  update l f st = (Ok u, st') ->
  exists self, heap st !! l = Some self /\ heap st' = <[l := f self]> (heap st).
Proof.
  unfold update. destruct (heap st !! l) as [self|] eqn:Hl; [|discriminate].
  intros [= _ <-]. eauto.
Qed.

Lemma deref_Ok l st self st' :
  deref l st = (Ok self, st') -> heap st !! l = Some self /\ st' = st.
Proof.
  unfold deref. destruct (heap st !! l); [|discriminate]. by intros [= -> ->].
Qed.

(** The [on_resolved] hooks keep a resolved instance resolved. *)
Definition hooks_keep_resolved : Prop :=
  forall cls method self self',
    own_hook (classes cls) OnResolved = Some method ->
    method self = inr self' ->
    is_resolved self = true -> is_resolved self' = true.

Lemma call_methods_keep_resolved config mro : forall st u st' self,
  hooks_keep_resolved ->
  heap st !! config = Some self -> is_resolved self = true ->
  call_methods classes config OnResolved mro st = (Ok u, st') ->
  exists self', heap st' !! config = Some self' /\ is_resolved self' = true.
Proof.
  induction mro as [|c mro IH]; intros st u st' self Hkeep Hself Hres Hrun.
  - cbn in Hrun. injection Hrun as _ <-. eauto.
  - cbn [call_methods] in Hrun.
    destruct (own_hook (classes c) OnResolved) as [method|] eqn:Hm; [|by eapply IH].
    apply bind_Ok in Hrun as (? & st1 & Hemit & Hrun).
    unfold emit in Hemit. injection Hemit as _ <-.
    apply bind_Ok in Hrun as (self0 & st2 & Hderef & Hrun).
    apply deref_Ok in Hderef as [Hself0 ->]. cbn [heap] in Hself0.
    rewrite Hself in Hself0. injection Hself0 as <-.
    apply bind_Ok in Hrun as (self1 & st3 & Hlift & Hrun).
    destruct (method self) as [e|self1'] eqn:Hcall; [discriminate|].
    cbn in Hlift. injection Hlift as <- <-.
    apply bind_Ok in Hrun as (? & st4 & Hupd & Hrun).
    apply update_Ok in Hupd as (? & _ & Hheap).
    eapply (IH st4 u st' self1'); [done| |by eapply Hkeep|done].
    rewrite Hheap. apply lookup_insert_eq.
Qed.

Lemma _call_method_in_mro_keep_resolved config st u st' self :
  hooks_keep_resolved ->
  heap st !! config = Some self -> is_resolved self = true ->
  _call_method_in_mro classes config OnResolved st = (Ok u, st') ->
  exists self', heap st' !! config = Some self' /\ is_resolved self' = true.
Proof.
  intros Hkeep Hself Hres Hrun. unfold _call_method_in_mro in Hrun.
  apply bind_Ok in Hrun as (self0 & st1 & Hderef & Hrun).
  apply deref_Ok in Hderef as [_ ->]. by eapply call_methods_keep_resolved.
Qed.

(** A request that does not accept partial configurations and returns,
    returns the instance it was given, resolved. *)
Lemma _resolve_configuration_resolves fuel config es ems ev st l st' :
  hooks_keep_resolved ->
  _resolve_configuration classes C deserialize_value fuel config es ems ev false st
    = (Ok l, st') ->
  l = config /\
  exists self', heap st' !! config = Some self' /\ is_resolved self' = true.
Proof.
  intros Hkeep Hrun.
  assert (Hstep : _resolve_configuration classes C deserialize_value fuel config
                    es ems ev false st = (Ok l, st')) by exact Hrun.
  destruct fuel as [|fuel]; cbn [_resolve_configuration] in Hrun;
    apply bind_Ok in Hrun as (self & st0 & Hderef & Hrun);
    apply deref_Ok in Hderef as [Hself ->];
    destruct (is_resolved self) eqn:Hres.
  - injection Hrun as <- <-. eauto.
  - discriminate.
  - injection Hrun as <- <-. eauto.
  - clear Hstep.
    apply bind_Ok in Hrun as (? & st1 & Hupd & Hrun).
    apply bind_Ok in Hrun as (? & st2 & Htry & Hrun).
    injection Hrun as <- <-. split; [done|].
    apply try_except_Ok in Htry as [Hinner|(ex & st3 & _ & Hhandler)].
    2:{ apply bind_Ok in Hhandler as (? & ? & _ & Hraise). discriminate. }
    apply try_except_Ok in Hinner as [Hbody|(cm_ex & st3 & _ & Hhandler)].
    + (* the body ran to its last statement *)
      apply bind_Ok in Hbody as (ev' & st3 & _ & Hbody).
      apply bind_Ok in Hbody as (self3 & st4 & _ & Hbody).
      apply bind_Ok in Hbody as (? & st5 & _ & Hbody).
      apply bind_Ok in Hbody as (? & st6 & _ & Hset).
      apply update_Ok in Hset as (self6 & _ & Hheap).
      rewrite Hheap, lookup_insert_eq. eauto.
    + (* fields were missing: [on_partial] resolved the instance *)
      destruct cm_ex; try discriminate.
      apply bind_Ok in Hhandler as (? & st4 & _ & Hhandler).
      apply bind_Ok in Hhandler as (? & st5 & _ & Hhandler).
      apply bind_Ok in Hhandler as (self5 & st6 & Hderef & Hhandler).
      apply deref_Ok in Hderef as [Hself5 ->].
      destruct (is_resolved self5) eqn:Hres5; [|discriminate].
      by eapply _call_method_in_mro_keep_resolved.
Qed.

(** Idempotence: after a request that succeeded, every further request
    returns the same instance and changes nothing. *)
Lemma _resolve_configuration_idempotent fuel config es ems ev st l st' :
  hooks_keep_resolved ->
  _resolve_configuration classes C deserialize_value fuel config es ems ev false st
    = (Ok l, st') ->
  forall fuel' es' ems' ev' ap',
    _resolve_configuration classes C deserialize_value fuel' l es' ems' ev' ap' st'
      = (Ok l, st').
Proof.
  intros Hkeep Hrun.
  destruct (_resolve_configuration_resolves _ _ _ _ _ _ _ _ Hkeep Hrun)
    as (-> & self' & Hself' & Hres').
  intros. by eapply _resolve_configuration_resolved.
Qed.

(** The public entry point looks the section of the class up before it
    hands over to [_resolve_configuration]; on a resolved instance this
    lookup is all it does: no configuration instance changes, and a
    returned instance is the one passed in. *)
Lemma resolve_configuration_resolved fuel config sections ev ap st self :
  heap st !! config = Some self ->
  is_resolved self = true ->
  exists o st',
    resolve_configuration classes C deserialize_value fuel config sections ev ap st
      = (o, st') /\
    heap st' = heap st /\
    o <> OutOfFuel /\
    (forall l, o = Ok l -> l = config).
Proof.
  intros Hself Hres. unfold resolve_configuration.
  unfold mbind at 1, M_bind at 1, deref at 1. rewrite Hself.
  set (cls := classes (config_class self)).
  assert (Hfinal : forall ev' st',
            heap st' = heap st ->
            exists o st'',
              _resolve_configuration classes C deserialize_value fuel config
                sections [] ev' ap st' = (o, st'') /\
              heap st'' = heap st /\ o <> OutOfFuel /\
              (forall l, o = Ok l -> l = config)).
  { intros ev' st' Hh.
    rewrite (_resolve_configuration_resolved fuel config sections [] ev' ap st' self);
      [|by rewrite Hh|done].
    eexists _, _. split; [reflexivity|]. split; [done|]. split; [done|].
    by intros l [= <-]. }
  unfold mbind, M_bind, mret, M_ret.
  destruct (truthy_str (__section__ cls) && bool_decide (ev = None)); [|by apply Hfinal].
  pose proof (_resolve_single_value_heap C (default EmptyString (__section__ cls))
                (if is_credentials cls then TSecretValue else AnyType)
                InnerAny None sections [] st) as Hh.
  destruct (_resolve_single_value C (default EmptyString (__section__ cls))
              (if is_credentials cls then TSecretValue else AnyType)
              InnerAny None sections [] st) as [[[v tr]|e|] st1] eqn:Hrun;
    cbn [snd] in Hh.
  - destruct (isinstance_Mapping v).
    + by apply Hfinal.
    + unfold log_traces, emit. by apply Hfinal.
  - eexists _, _. split; [reflexivity|]. split; [done|]. split; [done|]. discriminate.
  - exfalso. by eapply _resolve_single_value_returns.
Qed.

End Resolved.

(** The first request resolves [host] from [env] under section [db], calls
    [on_resolved] and marks the instance resolved. *)
Example db_configuration_resolves :
  fst (_resolve_configuration db_classes db_container no_coercion 1 1%positive
         [] [] None false db_store) = Ok 1%positive /\
  (heap db_store_resolved !! 1%positive) ≫= (fun self => getattr self "host")
    = Some (VStr "h1") /\
  is_resolved <$> heap db_store_resolved !! 1%positive = Some true /\
  events db_store_resolved =
    [EvGetValue "env" "host" ["db"];
     EvLogTraces "host" [mkLookupTrace "env" ["db"] "DB__HOST" (Some (VStr "h1"))];
     EvHook "DbConfiguration" "on_resolved" 1%positive].
Proof. vm_compute. repeat split. Qed.

(** A second request, whatever its arguments, finds the instance resolved. *)
Lemma resolved_configuration_is_not_resolved_again_witness :
  _resolve_configuration db_classes db_container no_coercion 3 1%positive
    ["pipeline"] [] (Some (VStr "native")) false db_store_resolved
  = (Ok 1%positive, db_store_resolved).
Proof.
  eapply (proj1 (resolved_configuration_is_not_resolved_again db_classes db_container
                   no_coercion 1%positive db_store_resolved _ _ _)).
  Unshelve.
  - exact (mkConfig "DbConfiguration" {["host" := VStr "h1"]} true None).
  - vm_compute. reflexivity.
  - reflexivity.
Defined.

(** *** Lookups over providers of every kind *)

Lemma first_hit_app key h plan plan' :
  first_hit key h (plan ++ plan') =
    match first_hit key h plan with
    | Some x => Some x
    | None => first_hit key h plan'
    end.
Proof.
  induction plan as [|[prov full_ns] plan IH]; [reflexivity|].
  cbn [app first_hit]. destruct (get_value prov key h full_ns) as [[v|] k]; auto.
Qed.

Lemma first_hit_None key h plan :
  first_hit key h plan = None ->
  until_hit key h plan = (plan, None) /\
  Forall (fun pr => fst (get_value (fst pr) key h (snd pr)) = None) plan.
Proof.
  induction plan as [|[prov full_ns] plan IH]; [by split|].
  cbn [first_hit until_hit].
  destruct (get_value prov key h full_ns) as [[v|] k] eqn:E; [discriminate|].
  intros H. destruct (IH H) as [-> Hall]. cbn [fst]. split; [done|].
  constructor; [by cbn [fst snd]; rewrite E|done].
Qed.

(** The probes up to a hit: all but the last found nothing, and the last is
    the hit. *)
Lemma first_hit_Some key h plan prov full_ns v ns_key :
  first_hit key h plan = Some (prov, full_ns, v, ns_key) ->
  exists pre post,
    plan = (pre ++ (prov, full_ns) :: post)%list /\
    until_hit key h plan = ((pre ++ [(prov, full_ns)])%list, Some v) /\
    Forall (fun pr => fst (get_value (fst pr) key h (snd pr)) = None) pre /\
    get_value prov key h full_ns = (Some v, ns_key).
Proof.
  induction plan as [|[prov0 full_ns0] plan IH]; [discriminate|].
  cbn [first_hit until_hit].
  destruct (get_value prov0 key h full_ns0) as [[v0|] k] eqn:E; cbn [fst].
  - intros [= -> -> -> ->]. exists [], plan. by repeat split.
  - intros H. destruct (IH H) as (pre & post & -> & -> & Hall & Hv).
    exists ((prov0, full_ns0) :: pre), post. repeat split; try done.
    constructor; [by cbn [fst snd]; rewrite E|done].
Qed.

Lemma traced_app key h probed probed' :
  traced key h (probed ++ probed') = (traced key h probed ++ traced key h probed')%list.
Proof. unfold traced. by rewrite List.filter_app, List.map_app. Qed.

(** The [while] loop on one provider, whatever it supports. *)
Lemma peel_head (ns : list string) :
  peel ns = ns :: match ns with [] => [] | _ :: _ => peel (removelast ns) end.
Proof.
  destruct ns as [|a ns]; [reflexivity|]. by rewrite peel_cons.
Qed.

Lemma traced_cons key h prov full_ns probed :
  traced key h ((prov, full_ns) :: probed) =
    ((if can_hold h prov then [trace_of key h (prov, full_ns)] else [])
     ++ traced key h probed)%list.
Proof.
  unfold traced. cbn [List.filter fst]. by destruct (can_hold h prov).
Qed.

Lemma until_hit_nonempty key h plan :
  plan <> [] -> fst (until_hit key h plan) <> [].
Proof.
  destruct plan as [|[prov full_ns] plan]; [done|]. intros _. cbn [until_hit].
  destruct (fst (get_value prov key h full_ns)); [done|].
  by destruct (until_hit key h plan).
Qed.

Lemma last_cons_nonempty {A} (a : A) (l : list A) d :
  l <> [] -> List.last (a :: l) d = List.last l d.
Proof. by destruct l. Qed.

Lemma section_loop_outcome fuel prov key h pn cfg : forall ns traces st,
  length ns <= fuel ->
  (copies prov pn cfg = false -> Forall (fun t => trace_sections t = ns) traces) ->
  section_loop fuel prov key h pn cfg ns traces st =
    (let plan := List.map (fun pre => (prov, full_ns_of prov pn cfg pre)) (peel ns) in
     let probed := fst (until_hit key h plan) in
     (plan_outcome key h
        (if copies prov pn cfg then (traces ++ traced key h probed)%list
         else List.map (with_sections (List.last (List.map snd probed) []))
                       (traces ++ traced key h probed))
        plan,
      add_events st (List.map (event_of key) probed))).
Proof.
  assert (Hstop : forall ns traces,
    (copies prov pn cfg = false -> Forall (fun t => trace_sections t = ns) traces) ->
    (if copies prov pn cfg
     then (traces ++ traced key h [(prov, full_ns_of prov pn cfg ns)])%list
     else List.map (with_sections (full_ns_of prov pn cfg ns))
            (traces ++ traced key h [(prov, full_ns_of prov pn cfg ns)])) =
    (if can_hold h prov
     then (traces ++ [trace_of key h (prov, full_ns_of prov pn cfg ns)])%list
     else traces)).
  { intros ns traces Hinv. rewrite traced_cons. unfold traced. cbn [List.filter List.map].
    rewrite app_nil_r.
    destruct (copies prov pn cfg) eqn:Hcopy.
    - destruct (can_hold h prov); [reflexivity|by rewrite app_nil_r].
    - rewrite (full_ns_of_shared _ _ _ _ Hcopy).
      rewrite List.map_app, (map_with_sections_own ns traces) by (by apply Hinv).
      destruct (can_hold h prov); [|by rewrite app_nil_r].
      cbn [List.map]. unfold with_sections, trace_of. reflexivity. }
  induction fuel as [|fuel IH]; intros ns traces st Hlen Hinv;
    rewrite section_loop_eq; cbv zeta; rewrite peel_head; cbn [List.map];
    unfold plan_outcome; cbn [first_hit until_hit];
    destruct (get_value prov key h (full_ns_of prov pn cfg ns)) as [[v|] k] eqn:E;
    cbn [fst snd List.map List.last].
  - rewrite Hstop by done. by destruct (can_hold h prov).
  - destruct ns; [|simpl in Hlen; lia]. cbn [length Nat.eqb List.map first_hit until_hit].
    cbn [fst snd List.map List.last]. by rewrite Hstop by done.
  - rewrite Hstop by done. by destruct (can_hold h prov).
  - destruct (decide (ns = [])) as [->|Hne].
    { cbn [length Nat.eqb List.map first_hit until_hit].
      cbn [fst snd List.map List.last]. by rewrite Hstop by done. }
    assert (Nat.eqb (length ns) 0 = false) as ->.
    { apply Nat.eqb_neq. destruct ns; [congruence|simpl; lia]. }
    destruct ns as [|a ns0] eqn:Hns; [done|]. rewrite <- Hns in *.
    set (plan' := List.map (fun pre => (prov, full_ns_of prov pn cfg pre))
                    (peel (removelast ns))).
    rewrite IH.
    2:{ rewrite length_removelast_pred. lia. }
    2:{ intros Hcopy. rewrite Hcopy. apply List.Forall_forall.
        intros t (t0 & <- & _)%in_map_iff. reflexivity. }
    cbv zeta. fold plan'.
    assert (Hne' : fst (until_hit key h plan') <> []).
    { apply until_hit_nonempty. unfold plan'. rewrite peel_head. done. }
    unfold plan_outcome.
    destruct (until_hit key h plan') as [probed v'] eqn:Hu. cbn [fst snd] in *.
    rewrite add_events_app. cbn [List.map app].
    rewrite last_cons_nonempty by (by destruct probed).
    rewrite traced_cons.
    assert (Htraces :
      (if copies prov pn cfg
       then ((if copies prov pn cfg
              then if can_hold h prov
                   then (traces ++ [trace_of key h (prov, full_ns_of prov pn cfg ns)])%list
                   else traces
              else List.map (with_sections (removelast ns))
                     (if can_hold h prov
                      then (traces ++ [trace_of key h (prov, full_ns_of prov pn cfg ns)])%list
                      else traces)) ++ traced key h probed)%list
       else List.map (with_sections (List.last (List.map snd probed) []))
              ((if copies prov pn cfg
                then if can_hold h prov
                     then (traces ++ [trace_of key h (prov, full_ns_of prov pn cfg ns)])%list
                     else traces
                else List.map (with_sections (removelast ns))
                       (if can_hold h prov
                        then (traces ++ [trace_of key h (prov, full_ns_of prov pn cfg ns)])%list
                        else traces)) ++ traced key h probed)) =
      (if copies prov pn cfg
       then (traces ++
             (if can_hold h prov
              then [trace_of key h (prov, full_ns_of prov pn cfg ns)] else [])
             ++ traced key h probed)%list
       else List.map (with_sections (List.last (List.map snd probed) []))
              (traces ++
               (if can_hold h prov
                then [trace_of key h (prov, full_ns_of prov pn cfg ns)] else [])
               ++ traced key h probed))).
    { destruct (copies prov pn cfg).
      - destruct (can_hold h prov); by rewrite <- ?app_assoc.
      - rewrite !List.map_app, map_with_sections_twice.
        destruct (can_hold h prov); by rewrite ?List.map_app, <- ?app_assoc. }
    rewrite Htraces. reflexivity.
Qed.

Lemma resolve_single_provider_value_outcome prov key h pn cfg es ems st :
  resolve_single_provider_value prov key h pn cfg es ems st =
    (let plan := single_provider_plan prov pn cfg (es ++ ems) in
     (plan_outcome key h
        (walk_traces key h prov pn cfg (fst (until_hit key h plan))) plan,
      add_events st (List.map (event_of key) (fst (until_hit key h plan))))).
Proof.
  unfold resolve_single_provider_value, walk_traces.
  destruct (supports_sections prov) eqn:Hsec.
  - rewrite section_loop_outcome; [|done|by constructor].
    cbv zeta. rewrite single_provider_plan_full_ns by done. reflexivity.
  - unfold single_provider_plan. rewrite Hsec.
    destruct (truthy_str pn).
    + unfold copies. rewrite Hsec, andb_false_r. cbn. by rewrite add_events_nil.
    + rewrite section_loop_outcome; [|done|by constructor].
      cbv zeta. rewrite peel_nil. unfold full_ns_of. rewrite Hsec. reflexivity.
Qed.

Lemma plan_outcome_app key h traces plan plan' :
  plan_outcome key h traces (plan ++ plan') =
    match first_hit key h plan with
    | Some _ => plan_outcome key h traces plan
    | None => plan_outcome key h traces plan'
    end.
Proof.
  unfold plan_outcome. rewrite first_hit_app.
  by destruct (first_hit key h plan) as [[[[prov full_ns] v] k]|].
Qed.

Lemma first_hit_until_hit key h plan :
  snd (until_hit key h plan) =
    match first_hit key h plan with
    | Some (_, _, v, _) => Some v
    | None => None
    end.
Proof.
  induction plan as [|[prov full_ns] plan IH]; [reflexivity|].
  cbn [until_hit first_hit].
  destruct (get_value prov key h full_ns) as [[v|] k]; cbn [fst]; [reflexivity|].
  rewrite <- IH. by destruct (until_hit key h plan).
Qed.

Lemma for_providers_outcome ps key h pn cfg es ems : forall traces st,
  for_providers ps key h pn cfg es ems traces st =
    (plan_outcome key h (traces ++ pass_traces key h pn cfg (es ++ ems) ps)
       (pass_plan ps pn cfg (es ++ ems)),
     add_events st
       (List.map (event_of key)
          (fst (until_hit key h (pass_plan ps pn cfg (es ++ ems)))))).
Proof.
  induction ps as [|prov ps IH]; intros traces st.
  - cbn. unfold plan_outcome. cbn. by rewrite app_nil_r, add_events_nil.
  - cbn [for_providers pass_plan List.flat_map pass_traces]. unfold mbind, M_bind.
    rewrite resolve_single_provider_value_outcome. cbv zeta.
    fold (pass_plan ps pn cfg (es ++ ems)).
    rewrite plan_outcome_app, until_hit_app.
    pose proof (first_hit_until_hit key h (single_provider_plan prov pn cfg (es ++ ems)))
      as Hsnd.
    destruct (until_hit key h (single_provider_plan prov pn cfg (es ++ ems)))
      as [probed o] eqn:Hu. cbn [fst snd] in *.
    unfold plan_outcome at 1.
    destruct (first_hit key h (single_provider_plan prov pn cfg (es ++ ems)))
      as [[[[prov' full_ns] v] k]|] eqn:E; subst o.
    + unfold plan_outcome. rewrite E. rewrite app_nil_r.
      destruct (can_hold h prov'); [|reflexivity].
      by rewrite bool_decide_eq_true_2 by done.
    + rewrite bool_decide_eq_false_2 by (intros H; by apply H).
      cbn [fst snd].
      rewrite IH, add_events_app, List.map_app, app_assoc. reflexivity.
Qed.

(** A scalar lookup follows [lookup_plan] up to its first hit. *)
Lemma _resolve_single_value_outcome C key h cfg es ems st :
  providers C <> [] ->
  _resolve_single_value C key h InnerAny cfg es ems st =
    (plan_outcome key h (lookup_traces C cfg es ems key h) (lookup_plan C cfg es ems),
     add_events st
       (List.map (event_of key) (fst (until_hit key h (lookup_plan C cfg es ems))))).
Proof.
  intros Hne.
  unfold _resolve_single_value, lookup_plan, lookup_traces. cbn [is_context_inner_hint
    is_base_configuration_inner_hint].
  destruct (_apply_embedded_sections_to_config_sections cfg ems) as [cfg' ems'].
  set (outer := match es with [] => sections C | _ :: _ => es end).
  assert (Hlook : forall pn traces st0,
    look_sections (providers C) key h pn cfg' outer ems' traces st0 =
    for_providers (providers C) key h pn cfg' outer ems' traces st0).
  { intros. unfold look_sections. destruct (providers C); [congruence|reflexivity]. }
  unfold mbind, M_bind.
  fold (pass_plan (providers C) (pipeline_name C) cfg' (outer ++ ems')).
  fold (pass_plan (providers C) None cfg' (outer ++ ems')).
  destruct (truthy_str (pipeline_name C)).
  - rewrite Hlook, for_providers_outcome.
    rewrite plan_outcome_app, until_hit_app. cbn [app].
    rewrite (first_hit_until_hit key h
               (pass_plan (providers C) (pipeline_name C) cfg' (outer ++ ems'))).
    set (walk := pass_plan (providers C) (pipeline_name C) cfg' (outer ++ ems')).
    destruct (first_hit key h walk) as [[[[prov' full_ns] v] k]|] eqn:E.
    + destruct (first_hit_Some _ _ _ _ _ _ _ E) as (pre & post & _ & Hu & _).
      unfold plan_outcome. rewrite E, Hu. cbn [fst snd]. rewrite app_nil_r.
      destruct (can_hold h prov'); [|reflexivity].
      by rewrite bool_decide_eq_false_2 by discriminate.
    + destruct (first_hit_None _ _ _ E) as [Hu _].
      unfold plan_outcome at 1. rewrite E, Hu. cbn [fst snd].
      rewrite bool_decide_eq_true_2 by done.
      rewrite Hlook, for_providers_outcome, add_events_app, List.map_app. reflexivity.
  - unfold mret, M_ret. rewrite bool_decide_eq_true_2 by done.
    rewrite Hlook, for_providers_outcome. reflexivity.
Qed.

(** **** The traces of a lookup and the probes it made *)

Lemma walk_traces_probes key h prov pn cfg probed :
  List.map (with_sections []) (walk_traces key h prov pn cfg probed) =
  List.map (with_sections []) (traced key h probed).
Proof.
  unfold walk_traces. destruct (copies prov pn cfg); [reflexivity|].
  apply map_with_sections_twice.
Qed.

Lemma pass_traces_probes key h pn cfg ns ps :
  List.map (with_sections []) (pass_traces key h pn cfg ns ps) =
  List.map (with_sections [])
    (traced key h (fst (until_hit key h (pass_plan ps pn cfg ns)))).
Proof.
  induction ps as [|prov ps IH]; [reflexivity|].
  cbn [pass_traces pass_plan List.flat_map]. fold (pass_plan ps pn cfg ns).
  rewrite until_hit_app.
  destruct (until_hit key h (single_provider_plan prov pn cfg ns)) as [probed [v|]];
    cbn [fst]; rewrite List.map_app, walk_traces_probes.
  - by rewrite app_nil_r.
  - by rewrite IH, traced_app, List.map_app.
Qed.

Lemma lookup_traces_probes C cfg es ems key h :
  List.map (with_sections []) (lookup_traces C cfg es ems key h) =
  List.map (with_sections [])
    (traced key h (fst (until_hit key h (lookup_plan C cfg es ems)))).
Proof.
  unfold lookup_traces, lookup_plan.
  destruct (_apply_embedded_sections_to_config_sections cfg ems) as [cfg' ems'].
  set (outer := match es with [] => sections C | _ :: _ => es end).
  fold (pass_plan (providers C) (pipeline_name C) cfg' (outer ++ ems')).
  fold (pass_plan (providers C) None cfg' (outer ++ ems')).
  destruct (truthy_str (pipeline_name C)); [|apply pass_traces_probes].
  rewrite until_hit_app, List.map_app, pass_traces_probes.
  destruct (until_hit key h (pass_plan (providers C) (pipeline_name C) cfg'
                               (outer ++ ems'))) as [probed [v|]]; cbn [fst snd].
  - by rewrite app_nil_r.
  - by rewrite pass_traces_probes, traced_app, List.map_app.
Qed.

(** With a config section every provider that has sections is passed
    copies, and a provider without sections is probed once: every trace
    shows the sections of its probe. *)
Lemma walk_traces_exact key h prov pn cfg ns :
  truthy_str cfg = true ->
  walk_traces key h prov pn cfg
    (fst (until_hit key h (single_provider_plan prov pn cfg ns))) =
  traced key h (fst (until_hit key h (single_provider_plan prov pn cfg ns))).
Proof.
  intros Hcfg. unfold walk_traces, copies, single_provider_plan.
  rewrite Hcfg, orb_true_r.
  destruct (supports_sections prov); [reflexivity|]. cbn [andb].
  destruct (truthy_str pn); [reflexivity|].
  cbn [until_hit]. unfold traced.
  destruct (fst (get_value prov key h [])); cbn [fst List.map snd List.last List.filter];
    destruct (can_hold h prov); reflexivity.
Qed.

Lemma pass_traces_exact key h pn cfg ns ps :
  truthy_str cfg = true ->
  pass_traces key h pn cfg ns ps =
  traced key h (fst (until_hit key h (pass_plan ps pn cfg ns))).
Proof.
  intros Hcfg. induction ps as [|prov ps IH]; [reflexivity|].
  cbn [pass_traces pass_plan List.flat_map]. fold (pass_plan ps pn cfg ns).
  rewrite until_hit_app.
  pose proof (walk_traces_exact key h prov pn cfg ns Hcfg) as Hwalk.
  destruct (until_hit key h (single_provider_plan prov pn cfg ns)) as [probed [v|]];
    cbn [fst] in *; rewrite Hwalk.
  - by rewrite app_nil_r.
  - by rewrite IH, traced_app.
Qed.

Lemma lookup_traces_exact C cfg es ems key h :
  truthy_str (fst (_apply_embedded_sections_to_config_sections cfg ems)) = true ->
  lookup_traces C cfg es ems key h =
  traced key h (fst (until_hit key h (lookup_plan C cfg es ems))).
Proof.
  unfold lookup_traces, lookup_plan.
  destruct (_apply_embedded_sections_to_config_sections cfg ems) as [cfg' ems'].
  cbn [fst]. intros Hcfg.
  set (outer := match es with [] => sections C | _ :: _ => es end).
  fold (pass_plan (providers C) (pipeline_name C) cfg' (outer ++ ems')).
  fold (pass_plan (providers C) None cfg' (outer ++ ems')).
  destruct (truthy_str (pipeline_name C)); [|by apply pass_traces_exact].
  rewrite until_hit_app, !pass_traces_exact by done.
  destruct (until_hit key h (pass_plan (providers C) (pipeline_name C) cfg'
                               (outer ++ ems'))) as [probed [v|]]; cbn [fst snd].
  - by rewrite app_nil_r.
  - by rewrite traced_app.
Qed.

(** X7: a lookup of a scalar field, with at least one provider in the
    container, follows [lookup_plan] up to its first hit. Under the pipeline
    name, when there is one, every provider with section support is probed at
    the outer sections (the explicit ones, else the injected ones) followed by
    the embedded sections that are not hidden, the pipeline name in front and
    the config section last, dropping the innermost optional section probe by
    probe; a provider without section support is left out. Then every
    provider is walked again without the pipeline name, a provider without
    section support being probed once with no sections. The lookup ends at
    the first probe that yields a value: the value is returned when that
    provider can hold the hint, [ValueNotSecretException] is raised when it
    cannot; without a hit [None] is returned. The traces returned are
    [lookup_traces]: one trace per probe made on a provider that can hold the
    hint, in the order of the probes, with the provider, the effective key
    and the value of the probe. With a config section every trace also shows
    the sections of its probe. Without one, the walk without the pipeline
    name passes the provider its own list of sections and pops it, and the
    traces of that walk, which hold the same list, all show the sections of
    the walk's last probe. *)
Theorem lookup_follows_plan (C : Container) (key : string) (h : hint)
    (cfg : option string) (es ems : list string) (st : store) :
  providers C <> [] ->
  let plan := lookup_plan C cfg es ems in
  let probed := fst (until_hit key h plan) in
  let traces := lookup_traces C cfg es ems key h in
  _resolve_single_value C key h InnerAny cfg es ems st =
    (plan_outcome key h traces plan,
     add_events st (List.map (event_of key) probed)) /\
  List.map (with_sections []) traces =
    List.map (with_sections []) (traced key h probed) /\
  (truthy_str (fst (_apply_embedded_sections_to_config_sections cfg ems)) = true ->
   traces = traced key h probed).
Proof.
  intros Hne plan probed traces. split; [|split].
  - by apply _resolve_single_value_outcome.
  - apply lookup_traces_probes.
  - apply lookup_traces_exact.
Qed.

(** A field without config section under the injected sections [s1], [s2],
    on a provider that holds nothing: the probes go to [s1, s2], to [s1] and
    to no section, and the three traces show no section. *)
Lemma lookup_follows_plan_witness :
  let C := mkContainer [silent_provider "env"] (silent_provider "context")
             None ["s1"; "s2"] in
  _resolve_single_value C "k" AnyType InnerAny None [] [] empty_store =
    (Ok (None, [mkLookupTrace "env" [] "k" None;
                mkLookupTrace "env" [] "k" None;
                mkLookupTrace "env" [] "k" None]),
     mkStore ∅ [EvGetValue "env" "k" ["s1"; "s2"];
                EvGetValue "env" "k" ["s1"];
                EvGetValue "env" "k" []]).
Proof.
  intros C.
  rewrite (proj1 (lookup_follows_plan C "k" AnyType None [] [] empty_store
                    ltac:(discriminate))).
  reflexivity.
Defined.

Lemma until_hit_prefix key h plan :
  exists post, plan = (fst (until_hit key h plan) ++ post)%list.
Proof.
  destruct (first_hit key h plan) as [[[[prov full_ns] v] k]|] eqn:E.
  - apply first_hit_Some in E as (pre & post & -> & -> & _).
    exists post. cbn [fst]. by rewrite <- app_assoc.
  - apply first_hit_None in E as [-> _]. exists []. cbn [fst]. by rewrite app_nil_r.
Qed.

Lemma peel_n_length n (ns : list string) : length (peel_n n ns) = S n.
Proof. revert ns. induction n as [|n IH]; intros ns; cbn; [done|by rewrite IH]. Qed.

Lemma In_removelast (s : string) (l : list string) : In s (removelast l) -> In s l.
Proof.
  induction l as [|a [|b l] IH]; cbn; [done|done|].
  intros [->|H]; [by left|]. right. by apply IH.
Qed.

Lemma In_peel_n n : forall (ns pre : list string) s,
  In pre (peel_n n ns) -> In s pre -> In s ns.
Proof.
  induction n as [|n IH]; intros ns pre s; cbn.
  - by intros [<-|[]].
  - intros [<-|H] Hs; [done|]. apply In_removelast. by eapply IH.
Qed.

Lemma single_provider_plan_length prov pn cfg ns :
  length (single_provider_plan prov pn cfg ns) <= length ns + 1.
Proof.
  unfold single_provider_plan, provider_plan, peel.
  destruct (supports_sections prov).
  - rewrite length_map, peel_n_length. lia.
  - destruct (truthy_str pn); cbn; lia.
Qed.

Lemma single_provider_plan_provider prov pn cfg ns pr :
  In pr (single_provider_plan prov pn cfg ns) ->
  fst pr = prov /\
  forall s, In s (snd pr) ->
    (truthy_str pn = true /\ pn = Some s) \/ In s ns \/
    (truthy_str cfg = true /\ cfg = Some s).
Proof.
  unfold single_provider_plan, provider_plan, peel.
  destruct (supports_sections prov).
  - intros (pre & <- & Hpre)%in_map_iff. cbn [fst snd]. split; [done|].
    intros s. unfold wrap, opt_section. rewrite !in_app_iff.
    intros [Hs|[Hs|Hs]].
    + left. destruct pn as [p|]; cbn in *; [|done].
      destruct (negb (String.eqb p EmptyString)); [|done].
      destruct Hs as [<-|[]]. done.
    + right; left. by eapply In_peel_n.
    + right; right. destruct cfg as [c|]; cbn in *; [|done].
      destruct (negb (String.eqb c EmptyString)); [|done].
      destruct Hs as [<-|[]]. done.
  - destruct (truthy_str pn); [intros []|].
    intros [<-|[]]. cbn. split; [done|]. intros s [].
Qed.

(** X8: the [while True] loop of [resolve_single_provider_value] ends: on
    one provider it makes at most [len(explicit_sections) +
    len(embedded_sections) + 1] calls of [get_value], all on that provider
    and for the requested key, and then returns or raises. *)
Theorem provider_walk_is_bounded (prov : ConfigProvider) (key : string) (h : hint)
    (pn cfg : option string) (es ems : list string) (st : store) :
  exists evs,
    snd (resolve_single_provider_value prov key h pn cfg es ems st) = add_events st evs /\
    length evs <= length es + length ems + 1 /\
    Forall (fun ev => exists ns, ev = EvGetValue (name prov) key ns) evs /\
    fst (resolve_single_provider_value prov key h pn cfg es ems st) <> OutOfFuel.
Proof.
  rewrite resolve_single_provider_value_outcome. cbn [fst snd].
  set (plan := single_provider_plan prov pn cfg (es ++ ems)).
  destruct (until_hit_prefix key h plan) as [post Hplan].
  eexists. split; [reflexivity|]. split; [|split].
  - rewrite length_map.
    pose proof (single_provider_plan_length prov pn cfg (es ++ ems)) as Hlen.
    fold plan in Hlen. rewrite Hplan in Hlen at 1.
    rewrite !length_app in Hlen. lia.
  - apply List.Forall_forall. intros ev (pr & <- & Hin)%in_map_iff.
    assert (Hpr : In pr plan) by (rewrite Hplan; apply in_app_iff; by left).
    apply single_provider_plan_provider in Hpr as [<- _].
    exists (snd pr). reflexivity.
  - unfold plan_outcome.
    destruct (first_hit key h plan) as [[[[prov' full_ns] v] k]|]; [|discriminate].
    destruct (can_hold h prov'); discriminate.
Qed.

Lemma last_In (l : list string) d : l <> [] -> In (List.last l d) l.
Proof.
  induction l as [|a [|b l] IH]; [done|by left|].
  intros _. right. by apply IH.
Qed.

Lemma apply_embedded_cases cfg ems cfg' ems' :
  _apply_embedded_sections_to_config_sections cfg ems = (cfg', ems') ->
  ems' = List.filter (fun ns => negb (startswith_underscore ns)) (removelast ems) /\
  (cfg' = cfg \/
   (ems <> [] /\ cfg' = Some (List.last ems EmptyString) /\
    startswith_underscore (List.last ems EmptyString) = false)).
Proof.
  unfold _apply_embedded_sections_to_config_sections.
  remember (List.last ems EmptyString) as innermost eqn:Hlast.
  remember (removelast ems) as outer eqn:Houter.
  destruct ems as [|e ems0].
  - intros [= <- <-]. subst outer. split; [done|by left].
  - destruct (startswith_underscore innermost) eqn:Hu; cbn [negb];
      intros [= <- <-]; (split; [done|]); [by left|right].
    repeat split; done.
Qed.

Lemma lookup_plan_within C cfg es ems pr :
  In pr (lookup_plan C cfg es ems) ->
  In (fst pr) (providers C) /\
  forall s, In s (snd pr) -> may_probe C cfg es ems s.
Proof.
  unfold lookup_plan.
  destruct (_apply_embedded_sections_to_config_sections cfg ems) as [cfg' ems'] eqn:E.
  set (outer := match es with [] => sections C | _ :: _ => es end).
  apply apply_embedded_cases in E as [-> Hcfg'].
  assert (Hcfg : forall s, cfg' = Some s ->
            cfg = Some s \/ (In s ems /\ startswith_underscore s = false)).
  { intros s Hs. destruct Hcfg' as [->|(Hne & -> & Hu)]; [by left|].
    injection Hs as <-. right. split; [|done]. by apply last_In. }
  set (ems' := List.filter (fun ns => negb (startswith_underscore ns)) (removelast ems)).
  assert (Hems : forall s, In s ems' -> In s ems /\ startswith_underscore s = false).
  { intros s Hs. apply List.filter_In in Hs as [Hs Hu].
    split; [by apply In_removelast|]. by destruct (startswith_underscore s). }
  assert (Hone : forall pn prov,
            (truthy_str pn = true -> pn = pipeline_name C) ->
            In pr (single_provider_plan prov pn cfg' (outer ++ ems')) ->
            In prov (providers C) ->
            In (fst pr) (providers C) /\
            forall s, In s (snd pr) -> may_probe C cfg es ems s).
  { intros pn prov Hpn Hpr Hprov.
    apply single_provider_plan_provider in Hpr as [-> Hs]. split; [done|].
    intros s Hin. destruct (Hs s Hin) as [[Ht ->]|[Ho|[_ Hc]]].
    - left. symmetry. by apply Hpn.
    - apply in_app_iff in Ho as [Ho|Ho].
      + right; left. exact Ho.
      + right; right; left. by apply Hems.
    - destruct (Hcfg s Hc) as [->|H]; [by right; right; right|by right; right; left]. }
  rewrite in_app_iff. intros [Hpr|Hpr].
  - destruct (truthy_str (pipeline_name C)); [|done].
    apply in_flat_map in Hpr as (prov & Hprov & Hpr).
    by eapply (Hone (pipeline_name C)).
  - apply in_flat_map in Hpr as (prov & Hprov & Hpr).
    eapply (Hone None); [discriminate|done|done].
Qed.

(** X9: a lookup of a scalar field calls [get_value] only on the providers
    of the container, only for the requested key, and only with sections
    taken from the pipeline name, the explicit sections (the injected ones
    when none are explicit), the embedded sections that do not start with an
    underscore, and the config section: a hidden embedded section is never
    sent to a provider. Nothing else is appended to the event log. *)
Theorem probes_stay_within (C : Container) (key : string) (h : hint)
    (cfg : option string) (es ems : list string) (st : store) :
  exists evs,
    snd (_resolve_single_value C key h InnerAny cfg es ems st) = add_events st evs /\
    Forall (fun ev =>
              exists prov ns,
                ev = EvGetValue (name prov) key ns /\ In prov (providers C) /\
                forall s, In s ns -> may_probe C cfg es ems s) evs.
Proof.
  destruct (providers C) as [|p ps] eqn:Hps.
  - exists []. split; [|constructor]. rewrite add_events_nil.
    unfold _resolve_single_value. cbn [is_context_inner_hint
      is_base_configuration_inner_hint].
    destruct (_apply_embedded_sections_to_config_sections cfg ems) as [cfg' ems'].
    rewrite Hps. unfold mbind, M_bind, look_sections, raise, mret, M_ret.
    destruct (truthy_str (pipeline_name C)); reflexivity.
  - rewrite _resolve_single_value_outcome by (rewrite Hps; discriminate).
    eexists. split; [reflexivity|].
    destruct (until_hit_prefix key h (lookup_plan C cfg es ems)) as [post Hplan].
    apply List.Forall_forall. intros ev (pr & <- & Hin)%in_map_iff.
    assert (Hpr : In pr (lookup_plan C cfg es ems))
      by (rewrite Hplan; apply in_app_iff; by left).
    apply lookup_plan_within in Hpr as [Hprov Hs].
    exists (fst pr), (snd pr). rewrite Hps in Hprov. by repeat split.
Qed.

Lemma _resolve_single_value_no_providers (C : Container) (key : string) (h : hint)
    (cfg : option string) (es ems : list string) (st : store) :
  providers C = [] ->
  _resolve_single_value C key h InnerAny cfg es ems st =
    (Raise (UnboundLocalError "value"), st).
Proof.
  intros Hps. unfold _resolve_single_value. cbn [is_context_inner_hint
    is_base_configuration_inner_hint].
  destruct (_apply_embedded_sections_to_config_sections cfg ems) as [cfg' ems'].
  rewrite Hps. unfold mbind, M_bind, look_sections, raise, mret, M_ret.
  destruct (truthy_str (pipeline_name C)); reflexivity.
Qed.

(** X10: with no provider in the container, a lookup of a scalar field
    raises [UnboundLocalError]: the loop of [look_sections] never binds the
    [value] it returns. Nothing is probed. *)
Theorem lookup_without_providers (C : Container) (key : string) (h : hint)
    (cfg : option string) (es ems : list string) (st : store) :
  providers C = [] ->
  _resolve_single_value C key h InnerAny cfg es ems st =
    (Raise (UnboundLocalError "value"), st).
Proof. apply _resolve_single_value_no_providers. Qed.

Lemma lookup_without_providers_witness :
  _resolve_single_value (mkContainer [] (silent_provider "context") (Some "pipe") ["s"])
    "host" AnyType InnerAny (Some "db") [] ["_hidden"; "inner"] empty_store =
    (Raise (UnboundLocalError "value"), empty_store).
Proof.
  apply (lookup_without_providers
           (mkContainer [] (silent_provider "context") (Some "pipe") ["s"])).
  reflexivity.
Defined.

Lemma Forall_none_with_sections ns ts :
  Forall (fun t => trace_value t = None) ts ->
  Forall (fun t => trace_value t = None) (List.map (with_sections ns) ts).
Proof.
  intros Hall. apply List.Forall_forall. intros t (t0 & <- & Hin)%in_map_iff.
  rewrite List.Forall_forall in Hall. exact (Hall t0 Hin).
Qed.

Lemma ends_at_more key h ps ps' v traces :
  (forall prov, In prov ps -> In prov ps') ->
  ends_at key h ps v traces -> ends_at key h ps' v traces.
Proof.
  intros Hsub. destruct v as [x|]; [|done].
  intros (pre & prov & full_ns & ns_key & -> & Hpre & Hin & Hv).
  exists pre, prov, full_ns, ns_key. auto.
Qed.

Lemma ends_at_after key h ps v traces before :
  Forall (fun t => trace_value t = None) before ->
  ends_at key h ps v traces -> ends_at key h ps v (before ++ traces).
Proof.
  intros Hbefore. destruct v as [x|]; cbn [ends_at].
  - intros (pre & prov & full_ns & ns_key & -> & Hpre & Hin & Hv).
    exists (before ++ pre)%list, prov, full_ns, ns_key.
    rewrite <- app_assoc. split; [done|]. split; [|done].
    apply List.Forall_app. by split.
  - intros Hall. apply List.Forall_app. by split.
Qed.

Lemma section_loop_ends fuel prov key h pn cfg : forall ns traces st v traces' st',
  Forall (fun t => trace_value t = None) traces ->
  section_loop fuel prov key h pn cfg ns traces st = (Ok (v, traces'), st') ->
  ends_at key h [prov] v traces'.
Proof.
  assert (Hmiss : forall traces full_ns,
    Forall (fun t => trace_value t = None) traces ->
    fst (get_value prov key h full_ns) = None ->
    Forall (fun t => trace_value t = None)
      (if can_hold h prov then (traces ++ [trace_of key h (prov, full_ns)])%list
       else traces)).
  { intros traces full_ns Hall E. destruct (can_hold h prov); [|done].
    apply List.Forall_app. split; [done|]. constructor; [|constructor].
    unfold trace_of. cbn [trace_value fst snd]. exact E. }
  induction fuel as [|fuel IH]; intros ns traces st v traces' st' Hall;
    rewrite section_loop_eq; cbv zeta;
    destruct (fst (get_value prov key h (full_ns_of prov pn cfg ns))) as [x|] eqn:E.
  - destruct (can_hold h prov); [|discriminate]. intros [= <- <- _].
    exists traces, prov, (full_ns_of prov pn cfg ns),
      (snd (get_value prov key h (full_ns_of prov pn cfg ns))).
    unfold trace_of. cbn [fst snd]. rewrite E. split; [done|]. split; [done|].
    split; [by left|]. rewrite <- E. by destruct (get_value _ _ _ _).
  - destruct (Nat.eqb (length ns) 0); [|discriminate].
    intros [= <- <- _]. by apply Hmiss.
  - destruct (can_hold h prov); [|discriminate]. intros [= <- <- _].
    exists traces, prov, (full_ns_of prov pn cfg ns),
      (snd (get_value prov key h (full_ns_of prov pn cfg ns))).
    unfold trace_of. cbn [fst snd]. rewrite E. split; [done|]. split; [done|].
    split; [by left|]. rewrite <- E. by destruct (get_value _ _ _ _).
  - destruct (Nat.eqb (length ns) 0).
    + intros [= <- <- _]. by apply Hmiss.
    + apply IH. destruct (copies prov pn cfg); [by apply Hmiss|].
      apply Forall_none_with_sections. by apply Hmiss.
Qed.

Lemma resolve_single_provider_value_ends prov key h pn cfg es ems st v traces st' :
  resolve_single_provider_value prov key h pn cfg es ems st = (Ok (v, traces), st') ->
  ends_at key h [prov] v traces.
Proof.
  unfold resolve_single_provider_value.
  destruct (supports_sections prov).
  - by apply section_loop_ends.
  - destruct (truthy_str pn).
    + intros [= <- <- _]. constructor.
    + by apply section_loop_ends.
Qed.

Lemma for_providers_ends ps key h pn cfg es ems : forall traces st v traces' st',
  Forall (fun t => trace_value t = None) traces ->
  for_providers ps key h pn cfg es ems traces st = (Ok (v, traces'), st') ->
  ends_at key h ps v traces'.
Proof.
  induction ps as [|prov ps IH]; intros traces st v traces' st' Hall;
    cbn [for_providers].
  - by intros [= <- <- _].
  - unfold mbind, M_bind.
    destruct (resolve_single_provider_value prov key h pn cfg es ems st)
      as [[[v0 tr]| |] st0] eqn:E; try discriminate.
    apply resolve_single_provider_value_ends in E.
    destruct v0 as [x|].
    + rewrite bool_decide_eq_true_2 by done. intros [= <- <- _].
      apply ends_at_after; [done|].
      apply (ends_at_more key h [prov]); [|done]. intros p [<-|[]]. by left.
    + rewrite bool_decide_eq_false_2 by (intros H; by apply H).
      intros Hrun. apply IH in Hrun.
      * apply (ends_at_more key h ps); [|done]. intros p Hp. by right.
      * apply List.Forall_app. by split.
Qed.

Lemma look_sections_ends ps key h pn cfg es ems traces st v traces' st' :
  Forall (fun t => trace_value t = None) traces ->
  look_sections ps key h pn cfg es ems traces st = (Ok (v, traces'), st') ->
  ends_at key h ps v traces'.
Proof.
  unfold look_sections. destruct ps; [discriminate|]. apply for_providers_ends.
Qed.

(** X11: the traces a lookup returns end at the value. When a value is
    returned, the last trace records the provider of the container, the
    sections and the effective key under which [get_value] yielded it, and
    every trace before it records a probe that found nothing; when [None] is
    returned, every trace records a probe that found nothing. *)
Theorem traces_end_at_the_value (C : Container) (key : string) (h : hint)
    (inner : inner_hint) (cfg : option string) (es ems : list string)
    (st : store) (v : option value) (traces : list LookupTrace) (st' : store) :
  is_context_inner_hint inner = false ->
  _resolve_single_value C key h inner cfg es ems st = (Ok (v, traces), st') ->
  match v with
  | None => Forall (fun t => trace_value t = None) traces
  | Some x =>
      exists pre prov full_ns ns_key,
        traces = (pre ++ [mkLookupTrace (name prov) full_ns ns_key (Some x)])%list /\
        Forall (fun t => trace_value t = None) pre /\
        In prov (providers C) /\
        get_value prov key h full_ns = (Some x, ns_key)
  end.
Proof.
  intros Hctx. destruct inner as [|cls|cls]; [|discriminate|].
  2:{ cbn. intros [= <- <- _]. constructor. }
  change (_resolve_single_value C key h InnerAny cfg es ems st = (Ok (v, traces), st') ->
          ends_at key h (providers C) v traces).
  unfold _resolve_single_value. cbn [is_context_inner_hint
    is_base_configuration_inner_hint].
  destruct (_apply_embedded_sections_to_config_sections cfg ems) as [cfg' ems'].
  unfold mbind, M_bind.
  destruct (truthy_str (pipeline_name C)).
  - match goal with
    | |- context [look_sections ?ps ?k ?hh ?pn ?c ?o ?e [] st] =>
        destruct (look_sections ps k hh pn c o e [] st) as [[[v1 tr1]| |] st1] eqn:E
    end; try discriminate.
    apply look_sections_ends in E; [|constructor].
    destruct v1 as [x|].
    + rewrite bool_decide_eq_false_2 by discriminate. by intros [= <- <- _].
    + rewrite bool_decide_eq_true_2 by done. by apply look_sections_ends.
  - unfold mret, M_ret. rewrite bool_decide_eq_true_2 by done.
    apply look_sections_ends. constructor.
Qed.

(** The [host] of the cascade scenario, found by [env] under section [db]. *)
Lemma traces_end_at_the_value_witness :
  exists pre prov full_ns ns_key,
    [mkLookupTrace "env" ["db"] "DB__HOST" (Some (VStr "h1"))] =
      (pre ++ [mkLookupTrace (name prov) full_ns ns_key (Some (VStr "h1"))])%list /\
    Forall (fun t => trace_value t = None) pre /\
    In prov (providers db_container) /\
    get_value prov "host" AnyType full_ns = (Some (VStr "h1"), ns_key).
Proof.
  apply (traces_end_at_the_value db_container "host" AnyType InnerAny (Some "db")
           [] [] empty_store (Some (VStr "h1"))
           [mkLookupTrace "env" ["db"] "DB__HOST" (Some (VStr "h1"))]
           (mkStore ∅ [EvGetValue "env" "host" ["db"]]));
    reflexivity.
Defined.

(** *** The lifecycle of a configuration instance *)

Section Lifecycle.

Variable classes : class_name -> configspec.
Variable C : Container.
Variable deserialize_value : string -> value -> inner_hint -> exn + value.



(** **** No configuration instance is ever removed *)

Lemma keeps_ret {A} l (a : A) : keeps l (mret a).
Proof. intros st r st' [= <- <-]. done. Qed.

Lemma keeps_raise {A} l e : keeps l (raise e : M A).
Proof. intros st r st' [= <- <-]. done. Qed.

Lemma keeps_out_of_fuel {A} l : keeps l (out_of_fuel : M A).
Proof. intros st r st' [= <- <-]. done. Qed.

Lemma keeps_bind {A B} l (m : M A) (f : A -> M B) :
  keeps l m -> (forall a, keeps l (f a)) -> keeps l (m ≫= f).
Proof.
  intros Hm Hf st r st' Hrun Hl. unfold mbind, M_bind in Hrun.
  destruct (m st) as [[a|e|] st1] eqn:E.
  - eapply Hf; [exact Hrun|]. by eapply Hm.
  - injection Hrun as <- <-. by eapply Hm.
  - injection Hrun as <- <-. by eapply Hm.
Qed.

Lemma keeps_try {A} l (m : M A) (handler : exn -> M A) :
  keeps l m -> (forall e, keeps l (handler e)) -> keeps l (try_except m handler).
Proof.
  intros Hm Hh st r st' Hrun Hl. unfold try_except in Hrun.
  destruct (m st) as [[a|e|] st1] eqn:E.
  - injection Hrun as <- <-. by eapply Hm.
  - eapply Hh; [exact Hrun|]. by eapply Hm.
  - injection Hrun as <- <-. by eapply Hm.
Qed.

Lemma keeps_emit l ev : keeps l (emit ev).
Proof. intros st r st' [= <- <-]. done. Qed.

Lemma keeps_deref l l' : keeps l (deref l').
Proof.
  intros st r st' Hrun Hl. unfold deref in Hrun.
  destruct (heap st !! l'); by injection Hrun as <- <-.
Qed.

Lemma keeps_update l l' f : keeps l (update l' f).
Proof.
  intros st r st' Hrun Hl. unfold update in Hrun.
  destruct (heap st !! l') as [c|]; injection Hrun as <- <-; [|done].
  cbn [heap]. destruct (decide (l = l')) as [->|Hne].
  - rewrite lookup_insert_eq. by eexists.
  - by rewrite lookup_insert_ne.
Qed.

Lemma keeps_alloc l c : keeps l (alloc c).
Proof.
  intros st r st' [= <- <-] Hl. cbn [heap].
  destruct (decide (l = fresh (dom (heap st)))) as [->|Hne].
  - rewrite lookup_insert_eq. by eexists.
  - by rewrite lookup_insert_ne.
Qed.

Lemma keeps_lift {A} l (r : exn + A) : keeps l (lift r).
Proof. destruct r; [apply keeps_raise|apply keeps_ret]. Qed.

Lemma keeps__resolve_single_value l key h inner cfg es ems :
  keeps l (_resolve_single_value C key h inner cfg es ems).
Proof.
  intros st r st' Hrun Hl.
  pose proof (_resolve_single_value_heap C key h inner cfg es ems st) as Hh.
  rewrite Hrun in Hh. cbn [snd] in Hh. by rewrite Hh.
Qed.

Ltac keeps_step :=
  match goal with
  | |- keeps _ (mbind _ _) => apply keeps_bind; [|intros ?]
  | |- keeps _ (mret _) => apply keeps_ret
  | |- keeps _ (raise _) => apply keeps_raise
  | |- keeps _ out_of_fuel => apply keeps_out_of_fuel
  | |- keeps _ (try_except _ _) => apply keeps_try; [|intros ?]
  | |- keeps _ (emit _) => apply keeps_emit
  | |- keeps _ (log_traces _ _) => apply keeps_emit
  | |- keeps _ (deref _) => apply keeps_deref
  | |- keeps _ (update _ _) => apply keeps_update
  | |- keeps _ (alloc _) => apply keeps_alloc
  | |- keeps _ (lift _) => apply keeps_lift
  | |- keeps _ (_resolve_single_value _ _ _ _ _ _ _) => apply keeps__resolve_single_value
  | |- keeps _ (if ?b then _ else _) => destruct b
  | |- keeps _ (match ?x with _ => _ end) => destruct x
  end.

Lemma keeps_call_methods l config m : forall classes_in_order,
  keeps l (call_methods classes config m classes_in_order).
Proof.
  induction classes_in_order as [|c rest_of_mro IH]; cbn [call_methods].
  - apply keeps_ret.
  - destruct (own_hook (classes c) m); [|exact IH].
    repeat keeps_step. exact IH.
Qed.

Lemma keeps__call_method_in_mro l config m :
  keeps l (_call_method_in_mro classes config m).
Proof.
  unfold _call_method_in_mro. repeat keeps_step. apply keeps_call_methods.
Qed.

Lemma keeps_call_parse_native_representation l config v :
  keeps l (call_parse_native_representation classes config v).
Proof. unfold call_parse_native_representation. repeat keeps_step. Qed.

Section WithResolve.

Variable resolve : loc -> list string -> list string -> option value -> bool -> M loc.
Variable l : loc.
Hypothesis keeps_resolve : forall config es ems ev ap, keeps l (resolve config es ems ev ap).

Lemma keeps__resolve_config_field key h dv ev cs es ems ap :
  keeps l (_resolve_config_field classes C deserialize_value resolve key h dv ev cs es ems ap).
Proof.
  unfold _resolve_config_field.
  repeat first [apply keeps_resolve | keeps_step].
Qed.

Lemma keeps_resolve_union key dv ev cs es ems ap : forall specs traces,
  keeps l (resolve_union classes C deserialize_value resolve key specs dv ev cs es ems ap
             traces).
Proof.
  induction specs as [|alt_spec rest IH]; intros traces; cbn [resolve_union].
  - apply keeps_ret.
  - apply keeps_try; [apply keeps__resolve_config_field|].
    intros e. destruct e; try apply keeps_raise; [apply IH|].
    destruct rest; [apply keeps_raise|apply IH].
Qed.

Lemma keeps_explicit_value_of evs key : keeps l (explicit_value_of evs key).
Proof. unfold explicit_value_of. repeat keeps_step. Qed.

Lemma keeps_resolve_fields config evs es ems ap : forall fields unresolved,
  keeps l (resolve_fields classes C deserialize_value resolve config evs es ems ap fields
             unresolved).
Proof.
  induction fields as [|[key h] rest IH]; intros unresolved; cbn [resolve_fields].
  - apply keeps_ret.
  - repeat first [apply keeps_explicit_value_of | apply keeps_resolve_union
                 | apply keeps__resolve_config_field | apply IH | keeps_step].
Qed.

Lemma keeps__resolve_config_fields config evs es ems ap :
  keeps l (_resolve_config_fields classes C deserialize_value resolve config evs es ems ap).
Proof.
  unfold _resolve_config_fields.
  repeat first [apply keeps_resolve_fields | keeps_step].
Qed.

End WithResolve.

Lemma keeps__resolve_configuration l fuel : forall config es ems ev ap,
  keeps l (_resolve_configuration classes C deserialize_value fuel config es ems ev ap).
Proof.
  induction fuel as [|fuel IH]; intros config es ems ev ap;
    cbn [_resolve_configuration].
  - repeat keeps_step.
  - repeat first [apply keeps__resolve_config_fields; exact IH
                 | apply keeps__call_method_in_mro
                 | apply keeps_call_parse_native_representation
                 | keeps_step].
Qed.

(** X13: when [_resolve_configuration] raises on an instance that is not yet
    resolved, the exception it raises is the one it has stored in the
    instance's [__exception__]. *)
Theorem failed_resolution_stores_exception (fuel : nat) (config : loc)
    (es ems : list string) (ev : option value) (ap : bool)
    (st : store) (self : Resolve.config) (e : exn) (st' : store) :
  heap st !! config = Some self ->
  _resolve_configuration classes C deserialize_value fuel config es ems ev ap st
    = (Raise e, st') ->
  exists self', heap st' !! config = Some self' /\ __exception__ self' = Some e.
Proof.
  intros Hself Hrun.
  destruct fuel as [|fuel]; cbn [_resolve_configuration] in Hrun;
    unfold mbind at 1, M_bind at 1, deref at 1 in Hrun; rewrite Hself in Hrun;
    destruct (is_resolved self); try discriminate.
  unfold mbind at 1, M_bind at 1, update at 1 in Hrun. rewrite Hself in Hrun.
  set (st1 := mkStore _ _) in Hrun.
  unfold mbind at 1, M_bind at 1 in Hrun.
  match type of Hrun with
  | context [try_except ?body ?handler st1] =>
      assert (Hkeep : keeps config body);
      [|unfold try_except at 1 in Hrun; destruct (body st1) as [[u|ex|] st2] eqn:Hbody]
  end.
  { repeat first [apply keeps__resolve_config_fields; apply keeps__resolve_configuration
                 | apply keeps__call_method_in_mro
                 | apply keeps_call_parse_native_representation
                 | keeps_step]. }
  - discriminate.
  - assert (Hin : is_Some (heap st2 !! config)).
    { eapply Hkeep; [exact Hbody|]. subst st1. cbn [heap].
      rewrite lookup_insert_eq. by eexists. }
    destruct Hin as [c Hc].
    unfold mbind, M_bind, update, raise in Hrun. rewrite Hc in Hrun.
    injection Hrun as <- <-. cbn [heap]. rewrite lookup_insert_eq.
    eexists. split; [reflexivity|]. reflexivity.
  - discriminate.
Qed.

(** X14: a request that does not accept partial results and returns, returns
    the instance it was given, marked resolved (the [on_resolved] hooks are
    assumed not to reset the flag); every further request on that instance,
    whatever its arguments, returns it again and changes nothing. *)
Theorem successful_resolution_is_final (fuel : nat) (config : loc)
    (es ems : list string) (ev : option value)
    (st : store) (l : loc) (st' : store) :
  hooks_keep_resolved classes ->
  _resolve_configuration classes C deserialize_value fuel config es ems ev false st
    = (Ok l, st') ->
  l = config /\
  (exists self', heap st' !! config = Some self' /\ is_resolved self' = true) /\
  (forall fuel' es' ems' ev' ap',
     _resolve_configuration classes C deserialize_value fuel' config es' ems' ev' ap' st'
       = (Ok config, st')).
Proof.
  intros Hkeep Hrun.
  destruct (_resolve_configuration_resolves _ _ _ _ _ _ _ _ _ _ _ Hkeep Hrun)
    as (-> & self' & Hself' & Hres').
  split; [done|]. split; [eauto|].
  intros. by eapply _resolve_configuration_resolved.
Qed.







(** **** Nothing found anywhere *)





(** **** Native values that do not parse *)




(** **** Partial configurations *)





(** **** Field by field *)


Lemma until_hit_nothing key h plan :
  snd (until_hit key h plan) = None -> fst (until_hit key h plan) = plan.
Proof.
  destruct (first_hit key h plan) as [[[[prov full_ns] v] k]|] eqn:E.
  - destruct (first_hit_Some _ _ _ _ _ _ _ E) as (pre & post & _ & -> & _). discriminate.
  - destruct (first_hit_None _ _ _ E) as [-> _]. reflexivity.
Qed.












End Lifecycle.

Lemma failed_resolution_stores_exception_witness :
  exists self',
    heap (snd (_resolve_configuration db_classes silent_container no_coercion 1
                 1%positive [] [] None false db_store)) !! 1%positive = Some self' /\
    __exception__ self' = Some host_missing.
Proof.
  apply (failed_resolution_stores_exception db_classes silent_container no_coercion
           1 1%positive [] [] None false db_store
           (new_instance db_classes "DbConfiguration") host_missing);
    [reflexivity | vm_compute; reflexivity].
Defined.

Lemma db_hooks_keep_resolved : hooks_keep_resolved db_classes.
Proof.
  intros cls method self self' Hm Hcall Hres. unfold db_classes in Hm.
  destruct (String.eqb cls "DbConfiguration"); cbn in Hm; [|discriminate].
  injection Hm as <-. injection Hcall as <-. exact Hres.
Qed.

Lemma successful_resolution_is_final_witness :
  1%positive = 1%positive /\
  (exists self', heap db_store_resolved !! 1%positive = Some self' /\
                 is_resolved self' = true) /\
  (forall fuel' es' ems' ev' ap',
     _resolve_configuration db_classes db_container no_coercion fuel' 1%positive
       es' ems' ev' ap' db_store_resolved = (Ok 1%positive, db_store_resolved)).
Proof.
  apply (successful_resolution_is_final db_classes db_container no_coercion 1
           1%positive [] [] None db_store 1%positive db_store_resolved
           db_hooks_keep_resolved).
  vm_compute. reflexivity.
Defined.








End ResolveTheory.

(** ** Properties of the Synapse error classifier *)

Module SynapseTheory.
Import Synapse.

(** On the exceptions [pyodbc] itself raises, whose [args] are a pair of
    strings, the classifier returns one of its three classes. *)
Lemma _make_database_exception_pair cls a0 a1 rest :
  classifies (mkException cls (PStr a0 :: PStr a1 :: rest))
    (_make_database_exception (mkException cls (PStr a0 :: PStr a1 :: rest))).
Proof.
  unfold classifies, _make_database_exception.
  destruct cls; cbn; repeat (match goal with |- context [if ?b then _ else _] =>
    destruct b end); auto.
Qed.

(** C10 does not hold of the code: a [pyodbc.ProgrammingError] whose [args]
    holds the message alone, as in
    [ProgrammingError("Attempt to use a closed connection.")], makes
    [_make_database_exception] evaluate [ex.args[1]] and raise [IndexError];
    with an empty [args] it fails on [ex.args[0]], for [pyodbc.Error] too. *)
Theorem _make_database_exception_raises :
  let closed :=
    mkException ProgrammingError [PStr "Attempt to use a closed connection."] in
  _make_database_exception closed = Raise IndexError /\
  ~ classifies closed (_make_database_exception closed) /\
  _make_database_exception (mkException ProgrammingError []) = Raise IndexError /\
  _make_database_exception (mkException PyodbcError []) = Raise IndexError.
Proof.
  repeat split. intros [H|[H|H]]; discriminate H.
Qed.

Lemma eq_str_true o s : eq_str o s = true <-> o = PStr s.
Proof.
  destruct o as [t| |]; cbn; try (split; [discriminate|intros [=]]).
  rewrite String.eqb_eq. split; [intros ->; reflexivity|intros [=]; assumption].
Qed.

Lemma eq_str_false o s : eq_str o s = false <-> o <> PStr s.
Proof.
  rewrite <- eq_str_true. destruct (eq_str o s); split; try congruence; auto.
Qed.

(** X1: [_make_database_exception] returns a classification exactly in these
    cases: always for an exception that is not a [pyodbc.Error] and for
    [OperationalError]; for [ProgrammingError] when [args[0]] exists and either
    is ["42S02"], or [args[1]] exists and is ["HY000"], or is a string, or
    [args[0]] is not ["42000"]; for the other [pyodbc] errors when [args] is
    not empty. In every other case it raises. *)
Theorem _make_database_exception_returns_iff (ex : exception) :
  (exists r, _make_database_exception ex = Return r) <->
  match ex_class ex with
  | OtherException | OperationalError => True
  | ProgrammingError =>
      exists a0, nth_error (args ex) 0 = Some a0 /\
        (a0 = PStr "42S02" \/
         exists a1, nth_error (args ex) 1 = Some a1 /\
           (a1 = PStr "HY000" \/ a0 <> PStr "42000" \/ exists s, a1 = PStr s))
  | _ => args ex <> []
  end.
Proof.
  destruct ex as [cls l].
  assert (Hplain : forall c, isinstance_ProgrammingError (mkException c l) = false ->
            isinstance_OperationalError (mkException c l) = false ->
            isinstance_Error (mkException c l) = true ->
            (exists r, _make_database_exception (mkException c l) = Return r) <-> l <> []).
  { intros c H1 H2 H3. unfold _make_database_exception. rewrite H1, H2, H3.
    unfold arg; cbn [args]. destruct l as [|a0 l']; cbn.
    - split; [intros [r Hr]; discriminate Hr|congruence].
    - split; [discriminate|intros _]. destruct (eq_str a0 "07002"); eauto. }
  destruct cls; cbn [ex_class];
    try (apply Hplain; reflexivity);
    try (split; [intros _; exact I|intros _; cbn; eauto]; fail).
  unfold _make_database_exception, arg; cbn.
  destruct l as [|a0 l']; cbn.
  { split; [intros [r Hr]; discriminate Hr|intros (a0 & [=] & _)]. }
  destruct (eq_str a0 "42S02") eqn:E0.
  { apply eq_str_true in E0. split; eauto. }
  apply eq_str_false in E0.
  destruct l' as [|a1 l'']; cbn.
  { split; [intros [r Hr]; discriminate Hr|].
    intros (b0 & [= <-] & [H|(a1 & [=] & _)]). contradiction. }
  destruct (eq_str a1 "HY000") eqn:E1.
  { apply eq_str_true in E1. split; [intros _|eauto].
    exists a0; split; [reflexivity|right]. exists a1; auto. }
  apply eq_str_false in E1.
  destruct (eq_str a0 "42000") eqn:E2.
  - apply eq_str_true in E2. destruct a1 as [s| |]; cbn.
    + split; [intros _|destruct (is_substring "(15151)" s); eauto].
      exists a0; split; [reflexivity|right]. exists (PStr s). eauto.
    + split; [intros [r Hr]; discriminate Hr|].
      intros (b0 & [= <-] & [H|(b1 & [= <-] & [H|[H|[s H]]])]);
        congruence.
    + split; [intros [r Hr]; discriminate Hr|].
      intros (b0 & [= <-] & [H|(b1 & [= <-] & [H|[H|[s H]]])]);
        congruence.
  - apply eq_str_false in E2. split; [intros _|eauto].
    exists a0; split; [reflexivity|right]. exists a1; auto.
Qed.

(** X2: [DatabaseUndefinedRelation] is returned only for a
    [pyodbc.ProgrammingError] whose SQLSTATE [args[0]] is ["42S02"], or is
    ["42000"] with a message [args[1]] that holds ["(15151)"]; it wraps the
    exception it was given. *)
Theorem undefined_relation_only_if (ex e : exception) :
  _make_database_exception ex = Return (DatabaseUndefinedRelation e) ->
  e = ex /\ ex_class ex = ProgrammingError /\
  (nth_error (args ex) 0 = Some (PStr "42S02") \/
   (nth_error (args ex) 0 = Some (PStr "42000") /\
    exists msg, nth_error (args ex) 1 = Some (PStr msg) /\
                is_substring "(15151)" msg = true)).
Proof.
  destruct ex as [cls l]. unfold _make_database_exception, arg.
  destruct cls; cbn;
    try (destruct l as [|a0 l']; cbn; [discriminate|];
         destruct (eq_str a0 "07002"); discriminate);
    try discriminate.
  destruct l as [|a0 l']; cbn; [discriminate|].
  destruct (eq_str a0 "42S02") eqn:E0.
  { apply eq_str_true in E0. intros [= <-]. subst a0. auto. }
  destruct l' as [|a1 l'']; cbn; [discriminate|].
  destruct (eq_str a1 "HY000"); [discriminate|].
  destruct (eq_str a0 "42000") eqn:E2; [|discriminate].
  apply eq_str_true in E2. subst a0.
  destruct a1 as [msg| |]; cbn; try discriminate.
  destruct (is_substring "(15151)" msg) eqn:E3; [|discriminate].
  intros [= <-]. repeat split; auto. right. split; [reflexivity|]. eauto.
Qed.

Lemma undefined_relation_only_if_witness :
  let ex := mkException ProgrammingError
              [PStr "42000"; PStr "Cannot drop the table (15151)"] in
  ex = ex /\ ex_class ex = ProgrammingError /\
  (nth_error (args ex) 0 = Some (PStr "42S02") \/
   (nth_error (args ex) 0 = Some (PStr "42000") /\
    exists msg, nth_error (args ex) 1 = Some (PStr msg) /\
                is_substring "(15151)" msg = true)).
Proof.
  intros ex. apply (undefined_relation_only_if ex ex). reflexivity.
Defined.

(** The loop returns the sizes by type when no string makes [json.loads]
    raise past the [except] clause, and otherwise raises at the first string
    that does. *)
Lemma input_sizes_loop_returns json args : forall acc,
  (forall s e, In (AStr s) args -> is_valid_json json s <> inr e) ->
  input_sizes_loop json args acc = inl (acc ++ map size_of args)%list.
Proof.
  induction args as [|a args IH]; intros acc Hok; cbn [input_sizes_loop map].
  - by rewrite app_nil_r.
  - assert (Hrest : forall s e, In (AStr s) args -> is_valid_json json s <> inr e).
    { intros s e Hin. apply Hok. by right. }
    destruct a as [s| | |t]; cbn [size_of isinstance_str];
      try (rewrite IH by exact Hrest; by rewrite <- app_assoc).
    destruct (is_valid_json json s) as [[|]|e] eqn:Hs;
      try (rewrite IH by exact Hrest; by rewrite <- app_assoc).
    exfalso. apply (Hok s e); [by left|exact Hs].
Qed.

Lemma input_sizes_loop_inl json args : forall acc sizes,
  input_sizes_loop json args acc = inl sizes ->
  sizes = (acc ++ map size_of args)%list.
Proof.
  induction args as [|a args IH]; intros acc sizes; cbn [input_sizes_loop map].
  - intros [= <-]. by rewrite app_nil_r.
  - destruct a as [s| | |t]; cbn [size_of isinstance_str];
      try (intros H; apply IH in H; by rewrite <- app_assoc in H).
    destruct (is_valid_json json s) as [[|]|e]; [| |discriminate];
      intros H; apply IH in H; by rewrite <- app_assoc in H.
Qed.

Lemma input_sizes_loop_inr json args : forall acc e,
  input_sizes_loop json args acc = inr e ->
  exists before s after,
    args = (before ++ AStr s :: after)%list /\
    is_valid_json json s = inr e /\
    (forall s' e', In (AStr s') before -> is_valid_json json s' <> inr e').
Proof.
  induction args as [|a args IH]; intros acc e; cbn [input_sizes_loop]; [discriminate|].
  assert (Hstep : forall acc',
            (forall s' e', a = AStr s' -> is_valid_json json s' <> inr e') ->
            input_sizes_loop json args acc' = inr e ->
            exists before s after,
              a :: args = (before ++ AStr s :: after)%list /\
              is_valid_json json s = inr e /\
              (forall s' e', In (AStr s') before -> is_valid_json json s' <> inr e')).
  { intros acc' Ha H. apply IH in H as (before & s & after & -> & Hs & Hbefore).
    exists (a :: before), s, after. split; [reflexivity|]. split; [exact Hs|].
    intros s' e' [->|Hin]; [by apply Ha|by apply Hbefore]. }
  destruct a as [s| | |t]; try (apply Hstep; intros ? ? [=]).
  destruct (is_valid_json json s) as [[|]|e0] eqn:Hs.
  - apply Hstep. intros s' e' [= <-]. congruence.
  - apply Hstep. intros s' e' [= <-]. congruence.
  - intros [= <-]. exists [], s, args. split; [reflexivity|]. split; [exact Hs|].
    intros s' e' [].
Qed.

(** X3: [set_input_sizes] returns the parameters as they were passed (a
    single tuple spread into its items) with one input size per parameter, in
    the parameters' order: [(SQL_WVARCHAR, 0, 0)] for a string, valid JSON or
    not, and [None] for any other value. It returns unless [json.loads]
    raises something else than [JSONDecodeError] on a string parameter in
    braces or brackets: then that exception leaves [set_input_sizes], for
    the first such parameter. *)
Theorem set_input_sizes_by_type (json : string -> loads_outcome) (args : list sqlarg) :
  let params := parameters args in
  ((forall s e, In (AStr s) params -> is_valid_json json s <> inr e) ->
   set_input_sizes json args = inl (map size_of params, params)) /\
  (forall sizes returned,
     set_input_sizes json args = inl (sizes, returned) ->
     returned = params /\ sizes = map size_of params /\
     length sizes = length returned) /\
  (forall e,
     set_input_sizes json args = inr e ->
     exists before s after,
       params = (before ++ AStr s :: after)%list /\
       is_valid_json json s = inr e /\
       (forall s' e', In (AStr s') before -> is_valid_json json s' <> inr e')) /\
  (forall s e, is_valid_json json s = inr e ->
     json s = LoadsRaises e /\
     (startswith_char "{" s && endswith_char "}" s ||
      startswith_char "[" s && endswith_char "]" s) = true).
Proof.
  intros params.
  assert (Hdef : set_input_sizes json args =
                 match input_sizes_loop json params [] with
                 | inl input_sizes => inl (input_sizes, params)
                 | inr e => inr e
                 end) by reflexivity.
  split; [|split; [|split]].
  - intros Hok. rewrite Hdef, input_sizes_loop_returns by exact Hok. reflexivity.
  - intros sizes returned. rewrite Hdef.
    destruct (input_sizes_loop json params []) as [input_sizes|e] eqn:Hloop;
      [|discriminate].
    intros [= <- <-]. apply input_sizes_loop_inl in Hloop as ->.
    split; [reflexivity|]. split; [reflexivity|]. cbn [app]. apply length_map.
  - intros e. rewrite Hdef.
    destruct (input_sizes_loop json params []) as [input_sizes|e0] eqn:Hloop;
      [discriminate|].
    intros [= <-]. by apply input_sizes_loop_inr in Hloop.
  - intros s e. unfold is_valid_json.
    destruct (startswith_char "{" s && endswith_char "}" s);
      destruct (startswith_char "[" s && endswith_char "]" s);
      cbn [negb andb orb]; try discriminate;
      destruct (json s); try discriminate; intros [= <-]; by split.
Qed.

(** X4: passing the parameters as one tuple gives the same sizes and
    parameters as passing them spread, unless the spread parameters are
    themselves a single tuple (which is unwrapped once more). *)
Theorem set_input_sizes_spread (json : string -> loads_outcome) (items : list sqlarg) :
  (forall t, items <> [ATuple t]) ->
  set_input_sizes json [ATuple items] = set_input_sizes json items.
Proof.
  intros Hne. unfold set_input_sizes.
  destruct items as [|a [|b rest]]; try reflexivity;
    destruct a as [s| | |t]; try reflexivity.
  exfalso. apply (Hne t). reflexivity.
Qed.

Lemma set_input_sizes_spread_witness :
  (forall t, [AStr "a"; AInt 1] <> [ATuple t]) /\
  set_input_sizes (fun _ => JSONDecodeError) [ATuple [AStr "a"; AInt 1]] =
  set_input_sizes (fun _ => JSONDecodeError) [AStr "a"; AInt 1].
Proof.
  split; [intros t; discriminate|].
  apply (set_input_sizes_spread (fun _ => JSONDecodeError) [AStr "a"; AInt 1]).
  intros t; discriminate.
Defined.

Local Open Scope Z_scope.

Lemma u8_byte_of_Z z : u8 (byte_of_Z z) = z mod 256.
Proof.
  unfold u8, byte_of_Z.
  assert (Hr : 0 <= z mod 256 < 256) by (apply Z.mod_pos_bound; lia).
  destruct (Byte.of_N (Z.to_N (z mod 256))) as [b|] eqn:E.
  - apply Byte.to_of_N in E. rewrite E. lia.
  - apply Byte.of_N_None_iff in E. lia.
Qed.

Lemma unpack_pack_h z :
  -32768 <= z < 32768 ->
  unpack_h (byte_of_Z z) (byte_of_Z (z / 256)) = z.
Proof.
  intros Hz. unfold unpack_h. rewrite !u8_byte_of_Z.
  destruct (Z.ltb_spec (z mod 256 + 256 * ((z / 256) mod 256)) 32768);
    Z.div_mod_to_equations; lia.
Qed.

Lemma unpack_pack_I z :
  0 <= z < 4294967296 ->
  unpack_I (byte_of_Z z) (byte_of_Z (z / 256)) (byte_of_Z (z / 65536))
           (byte_of_Z (z / 16777216)) = z.
Proof.
  intros Hz. unfold unpack_I. rewrite !u8_byte_of_Z.
  Z.div_mod_to_equations; lia.
Qed.

(** X5: [handle_datetimeoffset] decodes the 20-byte little-endian layout
    [<6hI2h]: on the packed fields of a calendar date and time with a
    nanosecond fraction below 10^9 and an offset within a day, it returns the
    [datetime] with those fields, the fraction cut down to microseconds
    ([ns // 1000]) and the offset [hours * 3600 + minutes * 60] seconds. *)
Theorem handle_datetimeoffset_unpacks (y mo d h mi s ns tzh tzm : Z) :
  1 <= y <= 9999 -> 1 <= mo <= 12 -> 1 <= d <= days_in_month y mo ->
  0 <= h <= 23 -> 0 <= mi <= 59 -> 0 <= s <= 59 ->
  0 <= ns < 1000000000 ->
  -32768 <= tzh < 32768 -> -32768 <= tzm < 32768 ->
  -86400 < timedelta tzh tzm < 86400 ->
  handle_datetimeoffset (struct_pack_6hI2h (y, mo, d, h, mi, s, ns, tzh, tzm)) =
    inl (mkDatetime y mo d h mi s (ns / 1000) (timedelta tzh tzm)).
Proof.
  intros Hy Hmo Hd Hh Hmi Hs Hns Hth Htm Htz.
  assert (Hdim : days_in_month y mo <= 31).
  { unfold days_in_month.
    repeat match goal with |- context [if ?b then _ else _] => destruct b end; lia. }
  unfold handle_datetimeoffset, struct_pack_6hI2h, pack_h, pack_I.
  cbn [app struct_unpack_6hI2h].
  rewrite !unpack_pack_h, unpack_pack_I by lia.
  unfold timezone.
  replace ((-86400 <? timedelta tzh tzm) && (timedelta tzh tzm <? 86400))%bool
    with true by (symmetry; apply andb_true_intro; split; apply Z.ltb_lt; lia).
  unfold new_datetime.
  assert (Hus : 0 <= ns / 1000 <= 999999) by (Z.div_mod_to_equations; lia).
  replace (_ && _)%bool with true; [reflexivity|].
  symmetry. repeat (apply andb_true_intro; split); apply Z.leb_le; lia.
Qed.

(** The source's own example:
    [(2017, 3, 16, 10, 35, 18, 500000000, -6, 0)]. *)
Lemma handle_datetimeoffset_unpacks_witness :
  handle_datetimeoffset
    (struct_pack_6hI2h (2017, 3, 16, 10, 35, 18, 500000000, -6, 0)) =
    inl (mkDatetime 2017 3 16 10 35 18 (500000000 / 1000) (timedelta (-6) 0)).
Proof.
  apply (handle_datetimeoffset_unpacks 2017 3 16 10 35 18 500000000 (-6) 0);
    try lia; [change (days_in_month 2017 3) with 31; lia | unfold timedelta; lia].
Defined.

Lemma struct_unpack_length dto_value t :
  struct_unpack_6hI2h dto_value = Some t -> length dto_value = 20%nat.
Proof.
  unfold struct_unpack_6hI2h.
  do 20 (destruct dto_value as [|? dto_value]; [discriminate|]).
  destruct dto_value; [reflexivity|discriminate].
Qed.

(** X6: [handle_datetimeoffset] raises [struct.error] on every buffer that is
    not 20 bytes long, and [ValueError] on a 20-byte buffer whose nanosecond
    field is 10^9 or more (the field is 32 bits wide, the microsecond of a
    [datetime] must stay below 10^6). *)
Theorem handle_datetimeoffset_raises (dto_value : list Byte.byte) :
  (length dto_value <> 20%nat -> handle_datetimeoffset dto_value = inr struct_error) /\
  (forall t0 t1 t2 t3 t4 t5 ns t7 t8,
     struct_unpack_6hI2h dto_value = Some (t0, t1, t2, t3, t4, t5, ns, t7, t8) ->
     1000000000 <= ns ->
     handle_datetimeoffset dto_value = inr dto_ValueError).
Proof.
  split.
  - intros Hlen. unfold handle_datetimeoffset.
    destruct (struct_unpack_6hI2h dto_value) as [t|] eqn:E; [|reflexivity].
    apply struct_unpack_length in E. contradiction.
  - intros t0 t1 t2 t3 t4 t5 ns t7 t8 E Hns. unfold handle_datetimeoffset.
    rewrite E. destruct (timezone (timedelta t7 t8)); [|reflexivity].
    unfold new_datetime.
    assert (Hus : (ns / 1000 <=? 999999) = false).
    { apply Z.leb_gt. Z.div_mod_to_equations; lia. }
    rewrite Hus, !andb_false_r. reflexivity.
Qed.

Lemma handle_datetimeoffset_raises_witness :
  handle_datetimeoffset [] = inr struct_error /\
  handle_datetimeoffset
    (struct_pack_6hI2h (2017, 3, 16, 10, 35, 18, 1000000000, -6, 0)) =
    inr dto_ValueError.
Proof.
  split.
  - apply (proj1 (handle_datetimeoffset_raises [])). cbn. lia.
  - apply (proj2 (handle_datetimeoffset_raises
                    (struct_pack_6hI2h (2017, 3, 16, 10, 35, 18, 1000000000, -6, 0)))
             2017 3 16 10 35 18 1000000000 (-6) 0);
      [vm_compute; reflexivity | lia].
Defined.

End SynapseTheory.

(** ** Properties of the GCP credentials *)

Module GcpTheory.
Import Gcp.

(** *** The reference codec reads back what it writes *)































(** *** The round trip *)








Section RoundTrip.

(** [dlt.common.json]: what [dumps] renders, [loads] reads back. *)
Variable json_dumps : pyobj -> option string.
Variable json_loads : string -> option pyobj.
Hypothesis loads_dumps : forall o s, json_dumps o = Some s -> json_loads s = Some o.


End RoundTrip.



(** *** Fields under assignment *)

Lemma set_field_keys fs key v :
  List.map fst (set_field fs key v) = List.map fst fs.
Proof.
  induction fs as [|[k old] fs IH]; [reflexivity|]. cbn [set_field].
  destruct (String.eqb k key); cbn [List.map fst]; [reflexivity|by rewrite IH].
Qed.

Lemma update_keys info : forall fs,
  List.map fst (fold_left (fun fs kv => set_field fs (fst kv) (snd kv)) info fs)
  = List.map fst fs.
Proof.
  induction info as [|[k v] info IH]; intros fs; [reflexivity|].
  cbn [fold_left]. by rewrite IH, set_field_keys.
Qed.

Lemma find_set_field_eq fs key v :
  In key (List.map fst fs) ->
  List.find (fun kv => String.eqb (fst kv) key) (set_field fs key v) = Some (key, v).
Proof.
  induction fs as [|[k old] fs IH]; [intros []|]. cbn [set_field List.map fst].
  destruct (String.eqb_spec k key) as [->|Hne].
  - intros _. cbn [List.find fst]. by rewrite String.eqb_refl.
  - intros [H|H]; [congruence|]. cbn [List.find fst].
    destruct (String.eqb_spec k key); [congruence|]. by apply IH.
Qed.






(** The last key of the mapping handed to [_from_info_dict] ends up in its
    field. *)
Lemma getattr_from_info_dict self self' items key v :
  _from_info_dict self (PDict (items ++ [(key, v)])) = Ok self' ->
  In key (List.map fst (fields self)) ->
  getattr self' key = v.
Proof.
  unfold _from_info_dict. intros [= <-] Hin.
  unfold getattr, update. cbn [fields]. rewrite fold_left_app. cbn [fold_left fst snd].
  rewrite find_set_field_eq; [reflexivity|]. by rewrite update_keys.
Qed.

Section Parsing.

Variable json_loads : string -> option pyobj.

(** X18: a [GcpClientCredentials] parsed from a native
    [ServiceAccountCredentials] object keeps that object in [private_key],
    and [on_resolved], which subscripts the private key, raises [TypeError]
    on it. *)
Theorem on_resolved_after_native_credentials
    (self self' : credentials) (native : ServiceAccountCredentials) :
  credentials_class self = GcpClientCredentials ->
  well_formed self ->
  parse_native_representation json_loads self (PNative native) = Ok self' ->
  getattr self' "private_key" = PNative native /\
  on_resolved self' = inr NotSubscriptable.
Proof.
  intros Hcls Hwf. unfold parse_native_representation. rewrite Hcls.
  unfold client_parse_native_representation. cbn [bind].
  intros Hrun.
  assert (Hpk : getattr self' "private_key" = PNative native).
  { apply (getattr_from_info_dict self self'
             [("project_id", PStr (native_project_id native));
              ("client_email", PStr (service_account_email native))]
             "private_key" (PNative native) Hrun).
    unfold well_formed in Hwf. rewrite Hwf, Hcls. cbn. intuition. }
  split; [exact Hpk|]. unfold on_resolved. rewrite Hpk. reflexivity.
Qed.

(** X19: whatever the native value holds, a parse that returns leaves the
    instance with its class and with exactly the fields it had, in their
    order: keys of the JSON object that are no fields are dropped, and no
    field disappears. A [GcpClientCredentials] is marked resolved by the
    parse exactly when none of its fields is left unset. *)
Theorem parse_keeps_the_fields (self self' : credentials) (native_value : pyobj) :
  parse_native_representation json_loads self native_value = Ok self' ->
  credentials_class self' = credentials_class self /\
  List.map fst (fields self') = List.map fst (fields self) /\
  (credentials_class self = GcpClientCredentials ->
   __is_resolved__ self' = negb (existsb (fun kv => is_none (snd kv)) (fields self'))).
Proof.
  assert (Hfrom : forall info,
            _from_info_dict self info = Ok self' ->
            credentials_class self' = credentials_class self /\
            List.map fst (fields self') = List.map fst (fields self) /\
            (credentials_class self = GcpClientCredentials ->
             __is_resolved__ self' =
               negb (existsb (fun kv => is_none (snd kv)) (fields self')))).
  { intros info. unfold _from_info_dict.
    destruct info as [| | | |items| |]; try discriminate.
    intros [= <-]. cbn [credentials_class fields __is_resolved__ update].
    split; [reflexivity|]. split; [apply update_keys|]. intros Hcls.
    unfold is_partial, update. cbn [credentials_class fields]. rewrite Hcls.
    reflexivity. }
  unfold parse_native_representation.
  destruct (credentials_class self) eqn:Hcls.
  - unfold base_parse_native_representation.
    destruct native_value; try discriminate. intros [= <-]. by repeat split.
  - unfold client_parse_native_representation.
    destruct native_value as [|s|z|elements|items|native|native];
      cbn [base_parse_native_representation bind]; try discriminate.
    + destruct (json_loads s) as [service_dict|]; [|discriminate].
      cbn [bind]. apply Hfrom.
    + apply Hfrom.
  - unfold oauth_parse_native_representation.
    destruct native_value as [|s|z|elements|items|native|native];
      cbn [base_parse_native_representation bind]; try discriminate.
    + destruct (json_loads s) as [oauth_dict|]; [|discriminate].
      destruct (len oauth_dict) as [[|[|n]]|]; try discriminate.
      * cbn [bind]. apply Hfrom.
      * destruct oauth_dict as [| | | |[|[k inner] [|]]| |]; try discriminate.
        cbn [bind]. apply Hfrom.
      * cbn [bind]. apply Hfrom.
    + apply Hfrom.
Qed.

End Parsing.

Lemma on_resolved_after_native_credentials_witness :
  getattr credentials_from_native "private_key" = PNative native_service_account /\
  on_resolved credentials_from_native = inr NotSubscriptable.
Proof.
  apply (on_resolved_after_native_credentials reference_loads
           (new GcpClientCredentials) credentials_from_native native_service_account);
    reflexivity.
Defined.

(** [services.json] with a key that is no field, and without [client_email]. *)
Lemma parse_keeps_the_fields_witness :
  let parsed :=
    value_of (parse_native_representation reference_loads (new GcpClientCredentials)
                (PStr (reference_dumps_text
                         [("project_id", PStr "chat-analytics");
                          ("private_key_id", PStr "0123");
                          ("private_key", PStr "MIIEuw")])))
             (new GcpCredentialsBase) in
  credentials_class parsed = GcpClientCredentials /\
  List.map fst (fields parsed) = List.map fst (fields (new GcpClientCredentials)) /\
  __is_resolved__ parsed = false.
Proof.
  intros parsed.
  destruct (parse_keeps_the_fields reference_loads (new GcpClientCredentials) parsed
              (PStr (reference_dumps_text
                       [("project_id", PStr "chat-analytics");
                        ("private_key_id", PStr "0123");
                        ("private_key", PStr "MIIEuw")])))
    as (Hcls & Hkeys & Hres); [vm_compute; reflexivity|].
  split; [exact Hcls|]. split; [exact Hkeys|].
  rewrite (Hres eq_refl). vm_compute. reflexivity.
Defined.

End GcpTheory.
